(** * framesconv: RGB to NV12 conversion on the GPU

    A shallow embedding of the host code (command line, GBM buffers, EGL
    context, the two converters and the orchestrating [main]) and of the
    GLSL kernels, followed by the properties proved about them.

    The sources hold several successive states of [main] and of the
    raster converter.  What is embedded is the program that converts: the
    [main] that selects a converter with [-es], the compute converter of
    framesconv_es31.cc and the raster converter with its luma and chroma
    passes.  The first state of [main], which runs a kernel that copies
    texels into a destination as large as the source, is embedded apart,
    in [FirstState]. *)

From Stdlib Require Import ZArith List String Ascii Bool QArith Qround Lia Lqa.
Import ListNotations.

Local Open Scope string_scope.
Local Open Scope Z_scope.

(** ** Machine integers *)

Module Int.

Definition INT_MAX : Z := 2147483647.
Definition INT_MIN : Z := -2147483648.
Definition LONG_MAX : Z := 9223372036854775807.
Definition LONG_MIN : Z := -9223372036854775808.

(** The conversion of a [long] to [int] keeps the low 32 bits. *)
Definition int (z : Z) : Z := (z + 2 ^ 31) mod 2 ^ 32 - 2 ^ 31.

(** [std::size_t] on the 64-bit targets the program is built for. *)
Definition size_max : Z := 2 ^ 64.
Definition size_t (z : Z) : Z := z mod size_max.

(** [static_cast<uint32_t>] and [static_cast<GLuint>]. *)
Definition uint32_t (z : Z) : Z := z mod 2 ^ 32.

(** [static_cast<std::streamsize>]: a 64-bit signed integer. *)
Definition streamsize (z : Z) : Z := (z + 2 ^ 63) mod 2 ^ 64 - 2 ^ 63.

(** [static_cast<GLsizei>]: a 32-bit signed integer. *)
Definition GLsizei (z : Z) : Z := (z + 2 ^ 31) mod 2 ^ 32 - 2 ^ 31.

End Int.

(** ** Exceptions *)

(** An exception carries the message it is constructed with; what
    [std::system_error] appends for [errno] is left out. *)
Inductive exn : Type :=
| invalid_argument (what : string)
| runtime_error (what : string)
| system_error (what : string).

(** ** The command line (main.cc) *)

Module Cmdline.

(** *** [std::atoi]

    White space is skipped, an optional sign is read, then the longest
    run of decimal digits: [numeral] is the number they spell.  The C
    standard defines [atoi] only where that number fits an [int].  The C
    library the program is built against computes [(int) strtol(s, NULL,
    10)]: [strtol] saturates at the bounds of [long], and the conversion
    to [int] keeps the low 32 bits, so that ["4294967304"] and
    ["-4294967288"] both read as 8. *)

Definition isspace (c : ascii) : bool :=
  let n := nat_of_ascii c in
  (Nat.eqb n 32 || (Nat.leb 9 n && Nat.leb n 13))%bool.

Definition isdigit (c : ascii) : bool :=
  let n := nat_of_ascii c in (Nat.leb 48 n && Nat.leb n 57)%bool.

Definition digit_value (c : ascii) : Z := Z.of_nat (nat_of_ascii c) - 48.

Fixpoint skip_space (s : string) : string :=
  match s with
  | String c r => if isspace c then skip_space r else s
  | EmptyString => s
  end.

Fixpoint digits (acc : Z) (s : string) : Z :=
  match s with
  | String c r => if isdigit c then digits (acc * 10 + digit_value c) r else acc
  | EmptyString => acc
  end.

Definition numeral (s : string) : Z :=
  match skip_space s with
  | String "-" r => - digits 0 r
  | String "+" r => digits 0 r
  | r => digits 0 r
  end.

Definition strtol (s : string) : Z :=
  Z.max Int.LONG_MIN (Z.min Int.LONG_MAX (numeral s)).

Definition atoi (s : string) : Z := Int.int (strtol s).

(** *** Options *)

Record Options : Type := {
  width : Z;
  height : Z;
  input : option string;
  output : option string;
  render_node : option string;
  es20 : bool
}.

(** What a step of the parser can do: return, throw, or run into a
    behaviour the language leaves undefined (a [string_view] built from
    the null pointer that ends [argv]). *)
Inductive parsed (A : Type) : Type :=
| Parsed (a : A)
| Rejected (e : exn)
| Undefined.
Arguments Parsed {A} a.
Arguments Rejected {A} e.
Arguments Undefined {A}.

Definition and_then {A B} (p : parsed A) (k : A -> parsed B) : parsed B :=
  match p with
  | Parsed a => k a
  | Rejected e => Rejected e
  | Undefined => Undefined
  end.

(** A null [in] is [None]. *)
Definition check_size (inp : option string) (mask : Z) : parsed Z :=
  match inp with
  | None => Rejected (invalid_argument "Missing argument")
  | Some s =>
      let value := atoi s in
      if value <=? 0 then Rejected (invalid_argument "Size must be positive")
      else if negb (Z.land value mask =? 0)
           then Rejected (invalid_argument "Size must be aligned")
           else Parsed (Int.size_t value)
  end.

Definition check_fname (inp : option string) : parsed (option string) :=
  match inp with
  | None => Undefined
  | Some s => Parsed (if String.eqb s "-" then None else Some s)
  end.

Definition check_implementation (inp : option string) : parsed bool :=
  match inp with
  | None => Undefined
  | Some s =>
      if String.eqb s "31" then Parsed false
      else if String.eqb s "20" then Parsed true
      else Rejected (invalid_argument "Invalid implementation")
  end.

Definition is_flag (it : string) : bool :=
  (String.eqb it "-w" || String.eqb it "-h" || String.eqb it "-i" || String.eqb it "-o"
   || String.eqb it "-r" || String.eqb it "-es")%bool.

(** One branch of the [if]/[else if] chain; [arg] is [*++it]. *)
Definition handle (it : string) (arg : option string) (result : Options)
  : parsed Options :=
  if String.eqb it "-w" then
    and_then (check_size arg 7) (fun v =>
      Parsed {| width := v; height := height result; input := input result;
                output := output result; render_node := render_node result;
                es20 := es20 result |})
  else if String.eqb it "-h" then
    and_then (check_size arg 3) (fun v =>
      Parsed {| width := width result; height := v; input := input result;
                output := output result; render_node := render_node result;
                es20 := es20 result |})
  else if String.eqb it "-i" then
    and_then (check_fname arg) (fun f =>
      Parsed {| width := width result; height := height result; input := f;
                output := output result; render_node := render_node result;
                es20 := es20 result |})
  else if String.eqb it "-o" then
    and_then (check_fname arg) (fun f =>
      Parsed {| width := width result; height := height result;
                input := input result; output := f;
                render_node := render_node result; es20 := es20 result |})
  else if String.eqb it "-r" then
    Parsed {| width := width result; height := height result;
              input := input result; output := output result;
              render_node := arg; es20 := es20 result |}
  else if String.eqb it "-es" then
    and_then (check_implementation arg) (fun b =>
      Parsed {| width := width result; height := height result;
                input := input result; output := output result;
                render_node := render_node result; es20 := b |})
  else Parsed result.

(** The [for] loop over [argv, argv + argc).  A flag in last position
    reads [argv[argc]], the null pointer. *)
Fixpoint parse_loop (args : list string) (result : Options) : parsed Options :=
  match args with
  | [] => Parsed result
  | it :: rest =>
      if is_flag it then
        match rest with
        | [] => handle it None result
        | arg :: rest' => and_then (handle it (Some arg) result) (parse_loop rest')
        end
      else parse_loop rest result
  end.

Definition usage : string :=
  "Usage: framesconv [-i input] -w width -h height [-o output] [-r render_node] [-es implementation]".

Definition initial : Options :=
  {| width := 0; height := 0; input := None; output := None;
     render_node := Some "/dev/dri/renderD128"; es20 := false |}.

Definition ParseCommandline (argv : list string) : parsed Options :=
  and_then (parse_loop argv initial) (fun result =>
    if ((width result =? 0) || (height result =? 0))%bool
    then Rejected (runtime_error usage)
    else Parsed result).

End Cmdline.

(** ** The native layer

    Everything below the program: libc, GBM, EGL, OpenGL ES and the GPU.
    A call is indexed by the type of what it returns; handles and enums
    are integers, a null handle is [0] and a closed descriptor is [-1]. *)

Module Native.

Inductive prot : Type := PROT_READ | PROT_WRITE.

Inductive call : Type -> Type :=
(* libc *)
| open (path : option string) : call Z
| close (fd : Z) : call unit
| mmap (size : Z) (p : prot) (fd : Z) : call (option Z)
| munmap (addr size : Z) : call unit
| poke (addr : Z) (data : list Byte.byte) : call unit
(* gbm *)
| gbm_create_device (fd : Z) : call Z
| gbm_device_destroy (dev : Z) : call unit
| gbm_bo_create (dev w h : Z) : call Z
| gbm_bo_destroy (bo : Z) : call unit
| gbm_bo_get_fd (bo : Z) : call Z
(* EGL *)
| eglGetError : call Z
| eglQueryString (dpy : Z) : call (option string)
| eglGetPlatformDisplay : call Z
| eglInitialize (dpy : Z) : call bool
| eglBindAPI : call bool
| eglCreateContext (dpy major minor : Z) : call Z
| eglDestroyContext (dpy ctx : Z) : call unit
| eglTerminate (dpy : Z) : call unit
| eglMakeCurrent (dpy ctx : Z) : call bool
| eglCreateSync (dpy : Z) : call Z
| eglClientWaitSync (dpy sync : Z) : call Z
| eglDestroySync (dpy sync : Z) : call bool
| eglCreateImage (dpy w h fd offset pitch : Z) : call Z
| eglDestroyImage (dpy image : Z) : call unit
| eglGetProcAddress (name : string) : call bool
(* OpenGL ES *)
| glGetError : call Z
| glGetString : call (option string)
| glGenTextures : call Z
| glBindTexture (texture : Z) : call unit
| glTexParameteri (pname : string) : call unit
| glEGLImageTargetTexture2DOES (image : Z) : call unit
| glDeleteTextures (texture : Z) : call unit
| glCreateShader : call Z
| glDeleteShader (shader : Z) : call unit
| glShaderSource (shader : Z) : call unit
| glCompileShader (shader : Z) : call unit
| glGetShaderiv_status (shader : Z) : call bool
| glGetShaderiv_log_length (shader : Z) : call Z
| glGetShaderInfoLog (shader length : Z) : call string
| glCreateProgram : call Z
| glDeleteProgram (program : Z) : call unit
| glAttachShader (program shader : Z) : call unit
| glLinkProgram (program : Z) : call unit
| glGetProgramiv_status (program : Z) : call bool
| glGetProgramiv_log_length (program : Z) : call Z
| glGetProgramInfoLog (program length : Z) : call string
| glUseProgram (program : Z) : call unit
| glBindImageTexture (unit_ texture : Z) (write : bool) : call unit
| glDispatchCompute (x y z : Z) : call unit
| glMemoryBarrier : call unit
| glGenFramebuffers : call Z
| glDeleteFramebuffers (fb : Z) : call unit
| glGenBuffers : call Z
| glDeleteBuffers (bo : Z) : call unit
| glBindBuffer (target : string) (bo : Z) : call unit
| glBufferData : call unit
| glGetUniformLocation (program : Z) (name : string) : call Z
| glUniform1i (location v : Z) : call unit
| glUniform2f (location w h : Z) : call unit
| glBindFramebuffer (fb : Z) : call unit
| glFramebufferTexture2D (texture : Z) : call unit
| glCheckFramebufferStatus : call bool
| glViewport (x y w h : Z) : call unit
| glActiveTexture : call unit
| glVertexAttribPointer : call unit
| glEnableVertexAttribArray : call unit
| glDrawArrays (count : Z) : call unit
| glDisableVertexAttribArray : call unit
(* The overload of [CreateGlProgram] that takes a vertex and a fragment
   shader is not part of the sources: what it does is left to the
   environment, which answers a program name or the exception thrown. *)
| CreateGlProgram2 : call (exn + Z).

(** A call together with its answer. *)
Inductive event : Type :=
| Ev (R : Type) (c : call R) (r : R).
Arguments Ev {R} c r.

(** *** Host streams ([std::istream], [std::ostream]) *)

Record istream : Type := {
  pending : list Byte.byte;      (* what the stream can still deliver *)
  in_eof : bool;
  in_fail : bool                 (* failbit or badbit: [!stream] *)
}.

(** [stream.read(data, n)]: nothing is extracted from a stream that is
    not good, nor for a negative count, and the stream fails; reaching
    the end before [n] bytes sets eofbit and failbit. *)
Definition istream_read (s : istream) (n : Z) : list Byte.byte * istream :=
  if (in_eof s || in_fail s || (n <? 0))%bool then
    ([], {| pending := pending s; in_eof := in_eof s; in_fail := true |})
  else if (Z.to_nat n <=? List.length (pending s))%nat then
    (firstn (Z.to_nat n) (pending s),
     {| pending := skipn (Z.to_nat n) (pending s);
        in_eof := false; in_fail := false |})
  else
    (pending s, {| pending := []; in_eof := true; in_fail := true |}).

Record ostream : Type := {
  written : list Byte.byte;
  room : option nat;             (* bytes the sink still takes, if bounded *)
  out_fail : bool                (* failbit or badbit: [!stream] *)
}.

(** [stream.write(data, n)], [data] being the [n] bytes to write (none
    for a negative count, which fails the stream): a sink that cannot
    take all of it keeps what fits and sets badbit. *)
Definition ostream_write (s : ostream) (n : Z) (data : list Byte.byte) : ostream :=
  if out_fail s then s
  else if n <? 0 then
    {| written := written s; room := room s; out_fail := true |}
  else match room s with
       | None => {| written := written s ++ data; room := None; out_fail := false |}
       | Some k =>
           if (List.length data <=? k)%nat then
             {| written := written s ++ data; room := Some (k - List.length data)%nat;
                out_fail := false |}
           else
             {| written := written s ++ firstn k data; room := Some 0%nat;
                out_fail := true |}
       end.

(** *** The world and the environment *)

Record world : Type := {
  trace : list event;
  fin : option string -> istream;       (* [None] is [std::cin] *)
  fout : option string -> ostream;      (* [None] is [std::cout] *)
  resolved : bool;   (* the function-local static of [CreateGlTexture] *)
  cerr : list string
}.

Record Env : Type := {
  answer : forall R : Type, list event -> call R -> R;
  mapped : list event -> Z -> nat -> Byte.byte
}.

(** *** Computations: state, exceptions and [std::terminate] *)

Inductive outcome (A : Type) : Type :=
| Ok (a : A)
| Exn (e : exn)
| Terminated.
Arguments Ok {A} a.
Arguments Exn {A} e.
Arguments Terminated {A}.

Definition M (A : Type) : Type := Env -> world -> outcome A * world.

Definition ret {A} (a : A) : M A := fun _ w => (Ok a, w).
Definition throw {A} (e : exn) : M A := fun _ w => (Exn e, w).

Definition bind {A B} (m : M A) (k : A -> M B) : M B :=
  fun env w =>
    match m env w with
    | (Ok a, w1) => k a env w1
    | (Exn e, w1) => (Exn e, w1)
    | (Terminated, w1) => (Terminated, w1)
    end.

Definition log (e : event) (w : world) : world :=
  {| trace := trace w ++ [e]; fin := fin w; fout := fout w;
     resolved := resolved w; cerr := cerr w |}.

Definition native {R} (c : call R) : M R :=
  fun env w => let r := answer env R (trace w) c in (Ok r, log (Ev c r) w).

(** The first [n] bytes of a mapping. *)
Definition peek (addr : Z) (n : Z) : M (list Byte.byte) :=
  fun env w => (Ok (map (mapped env (trace w) addr) (seq 0 (Z.to_nat n))), w).

Definition same_stream (a b : option string) : bool :=
  match a, b with
  | None, None => true
  | Some x, Some y => String.eqb x y
  | _, _ => false
  end.

Definition read_stream (id : option string) (n : Z) : M (list Byte.byte) :=
  fun _ w =>
    let (data, s) := istream_read (fin w id) n in
    (Ok data,
     {| trace := trace w;
        fin := fun i => if same_stream i id then s else fin w i;
        fout := fout w; resolved := resolved w; cerr := cerr w |}).

Definition write_stream (id : option string) (n : Z) (data : list Byte.byte)
  : M unit :=
  fun _ w =>
    (Ok tt,
     {| trace := trace w; fin := fin w;
        fout := fun i => if same_stream i id
                         then ostream_write (fout w id) n data else fout w i;
        resolved := resolved w; cerr := cerr w |}).

(** [!stream] *)
Definition istream_failed (id : option string) : M bool :=
  fun _ w => (Ok (in_fail (fin w id)), w).
Definition ostream_failed (id : option string) : M bool :=
  fun _ w => (Ok (out_fail (fout w id)), w).

Definition get_resolved : M bool := fun _ w => (Ok (resolved w), w).
Definition set_resolved : M unit :=
  fun _ w => (Ok tt, {| trace := trace w; fin := fin w; fout := fout w;
                        resolved := true; cerr := cerr w |}).

Definition print_cerr (line : string) (w : world) : world :=
  {| trace := trace w; fin := fin w; fout := fout w;
     resolved := resolved w; cerr := cerr w ++ [line] |}.

(** *** Scope guards (utils.h)

    [Defer] runs its closure when the scope is left, by return or by an
    exception.  Destructors are [noexcept]: an exception that leaves the
    closure ends the process through [std::terminate]. *)

Definition Defer {A} (impl : M unit) (scope : M A) : M A :=
  fun env w =>
    match scope env w with
    | (Terminated, w1) => (Terminated, w1)
    | (r, w1) =>
        match impl env w1 with
        | (Ok _, w2) => (r, w2)
        | (_, w2) => (Terminated, w2)
        end
    end.

(** A guard whose closure captures a local by reference: the scope
    returns, next to its result, the value the local has when the scope
    is left normally; an exception leaves the local as it was. *)
Definition Defer_ref {A S} (local : S) (impl : S -> M unit)
           (scope : M (A * S)) : M A :=
  fun env w =>
    match scope env w with
    | (Terminated, w1) => (Terminated, w1)
    | (Exn e, w1) =>
        match impl local env w1 with
        | (Ok _, w2) => (Exn e, w2)
        | (_, w2) => (Terminated, w2)
        end
    | (Ok (a, s), w1) =>
        match impl s env w1 with
        | (Ok _, w2) => (Ok a, w2)
        | (_, w2) => (Terminated, w2)
        end
    end.

Definition when (b : bool) (m : M unit) : M unit := if b then m else ret tt.

End Native.

Declare Scope monad_scope.
Notation "x <- c1 ;; c2" := (Native.bind c1 (fun x => c2))
  (at level 61, c1 at next level, right associativity) : monad_scope.
Notation "c1 ;; c2" := (Native.bind c1 (fun _ => c2))
  (at level 61, right associativity) : monad_scope.
Local Open Scope monad_scope.

(** ** GBM buffers, the EGL context and the GL helpers (gpu.cc) *)

Module Gpu.
Import Native.

(** [haystack.find(needle) != npos] *)
Fixpoint contains (haystack needle : string) : bool :=
  (String.prefix needle haystack
   || match haystack with
      | String _ rest => contains rest needle
      | EmptyString => false
      end)%bool.

Definition VerifyExtension (haystack needle : string) : M unit :=
  if contains haystack needle then ret tt
  else throw (runtime_error
                ("Required extenstion " ++ needle ++ " is not supported")).

Definition kEglErrors : list (Z * string) :=
  [(0x3000, "EGL_SUCCESS"); (0x3001, "EGL_NOT_INITIALIZED");
   (0x3002, "EGL_BAD_ACCESS"); (0x3003, "EGL_BAD_ALLOC");
   (0x3004, "EGL_BAD_ATTRIBUTE"); (0x3005, "EGL_BAD_CONFIG");
   (0x3006, "EGL_BAD_CONTEXT"); (0x3007, "EGL_BAD_CURRENT_SURFACE");
   (0x3008, "EGL_BAD_DISPLAY"); (0x3009, "EGL_BAD_MATCH");
   (0x300A, "EGL_BAD_NATIVE_PIXMAP"); (0x300B, "EGL_BAD_NATIVE_WINDOW");
   (0x300C, "EGL_BAD_PARAMETER"); (0x300D, "EGL_BAD_SURFACE");
   (0x300E, "EGL_CONTEXT_LOST")].

Definition GL_NO_ERROR : Z := 0.

Definition kGlErrors : list (Z * string) :=
  [(GL_NO_ERROR, "GL_NO_ERROR"); (0x0500, "GL_INVALID_ENUM");
   (0x0501, "GL_INVALID_VALUE"); (0x0502, "GL_INVALID_OPERATION");
   (0x0505, "GL_OUT_OF_MEMORY");
   (0x0506, "GL_INVALID_FRAMEBUFFER_OPERATION")].

Fixpoint LookupError (list : list (Z * string)) (key : Z) : string :=
  match list with
  | [] => "???"
  | it :: rest => if fst it =? key then snd it else LookupError rest key
  end.

Definition WrapEglError (message : string) (error : Z) : string :=
  message ++ ": " ++ LookupError kEglErrors error.
Definition WrapGlError (message : string) (error : Z) : string :=
  message ++ ": " ++ LookupError kGlErrors error.

(** The default argument [error = eglGetError()], resp. [glGetError()]. *)
Definition throwEgl {A} (message : string) : M A :=
  error <- native eglGetError;;
  throw (runtime_error (WrapEglError message error)).
Definition throwGl {A} (message : string) : M A :=
  error <- native glGetError;;
  throw (runtime_error (WrapGlError message error)).

(** *** GbmBuffer *)

Record GbmBuffer : Type := {
  width_ : Z;
  height_ : Z;
  bo_ : Z;
  fd_ : Z
}.

(** [fd_] is a [std::unique_ptr] whose pointer type wraps a descriptor,
    the null pointer being -1.  [reset] hands the value it replaces to
    the deleter when that value converts to true; the wrapper converts
    through [int], so the initial -1 does, and [fd_.reset(..)] calls
    [close(-1)].  [bo_] is a pointer, and its initial null is not handed
    to the deleter.  A constructor that throws destroys the members it
    has set: [bo_]. *)
Definition GbmBuffer_new (device width height : Z) : M GbmBuffer :=
  bo <- native (gbm_bo_create device (Int.uint32_t width) (Int.uint32_t height));;
  if bo =? 0 then throw (system_error "Failed to create gbm buffer object")
  else
    fd <- native (gbm_bo_get_fd bo);;
    native (close (-1));;
    if fd =? -1 then
      native (gbm_bo_destroy bo);;
      throw (system_error "Failed to get gbm buffer object fd")
    else ret {| width_ := width; height_ := height; bo_ := bo; fd_ := fd |}.

(** Members go in reverse order of declaration: [fd_], then [bo_]. *)
Definition GbmBuffer_delete (b : GbmBuffer) : M unit :=
  when (negb (fd_ b =? -1)) (native (close (fd_ b)));;
  when (negb (bo_ b =? 0)) (native (gbm_bo_destroy (bo_ b))).

Definition extent (b : GbmBuffer) : Z :=
  Int.size_t (Int.size_t (width_ b * height_ b) * 4).

Definition FillFrom (b : GbmBuffer) (stream : option string) : M unit :=
  let size := extent b in
  data <- native (mmap size PROT_WRITE (fd_ b));;
  match data with
  | None => throw (system_error "Failed to mmap gbm buffer object fd")
  | Some data =>
      Defer (native (munmap data size))
        (got <- read_stream stream (Int.streamsize size);;
         native (poke data got);;
         failed <- istream_failed stream;;
         if failed then throw (runtime_error "Failed to read source")
         else ret tt)
  end.

Definition DrainTo (b : GbmBuffer) (stream : option string) : M unit :=
  let size := extent b in
  data <- native (mmap size PROT_READ (fd_ b));;
  match data with
  | None => throw (system_error "Failed to mmap gbm buffer object fd")
  | Some data =>
      Defer (native (munmap data size))
        (bytes <- peek data (Int.streamsize size);;
         write_stream stream (Int.streamsize size) bytes;;
         failed <- ostream_failed stream;;
         if failed then throw (runtime_error "Failed to write target")
         else ret tt)
  end.

Definition CreateEglImage (b : GbmBuffer) (display : Z) : M Z :=
  result <- native (eglCreateImage display (width_ b) (height_ b) (fd_ b) 0
                                   (Int.size_t (width_ b * 4)));;
  if result =? 0 then throwEgl "Failed to create egl image"
  else ret result.

(** *** GbmDevice *)

Record GbmDevice : Type := {
  dev_fd_ : Z;
  device_ : Z
}.

(** [fd_.reset(open(..))] calls [close(-1)], as in [GbmBuffer]. *)
Definition GbmDevice_new (render_node : option string) : M GbmDevice :=
  fd <- native (open render_node);;
  native (close (-1));;
  if fd =? -1 then throw (system_error "Failed to open redner node")
  else
    device <- native (gbm_create_device fd);;
    if device =? 0 then
      native (close fd);;
      throw (system_error "Failed to create gbm device")
    else ret {| dev_fd_ := fd; device_ := device |}.

Definition GbmDevice_delete (d : GbmDevice) : M unit :=
  when (negb (device_ d =? 0)) (native (gbm_device_destroy (device_ d)));;
  when (negb (dev_fd_ d =? -1)) (native (close (dev_fd_ d))).

Definition CreateGbmBuffer (d : GbmDevice) (width height : Z) : M GbmBuffer :=
  GbmBuffer_new (device_ d) width height.

(** *** EglContext *)

Record EglContext : Type := {
  display_ : Z;
  context_ : Z
}.

Definition EGL_NO_DISPLAY : Z := 0.
Definition EGL_NO_CONTEXT : Z := 0.
Definition EGL_NO_SYNC : Z := 0.

(** gpu.cc asks [eglCreateContext] for client version 3; [main] constructs
    the context with the version of the converter it selected, which is
    taken here as the two parameters of the constructor. *)
Definition EglContext_new (major minor : Z) : M EglContext :=
  egl_ext <- native (eglQueryString EGL_NO_DISPLAY);;
  match egl_ext with
  | None => throwEgl "Failed to query platformless egl extensions"
  | Some egl_ext =>
      VerifyExtension egl_ext "EGL_MESA_platform_surfaceless";;
      display <- native eglGetPlatformDisplay;;
      if display =? EGL_NO_DISPLAY then throwEgl "Failed to get platform display"
      else
        Defer_ref display
          (fun display =>
             when (negb (display =? EGL_NO_DISPLAY)) (native (eglTerminate display)))
          (ok <- native (eglInitialize display);;
           if negb ok then throwEgl "Failed to initialize egl display"
           else
             egl_ext <- native (eglQueryString display);;
             match egl_ext with
             | None => throwEgl "Failed to query platform egl extensions"
             | Some egl_ext =>
                 VerifyExtension egl_ext "EGL_KHR_surfaceless_context";;
                 VerifyExtension egl_ext "EGL_KHR_no_config_context";;
                 VerifyExtension egl_ext "EGL_EXT_image_dma_buf_import";;
                 ok <- native eglBindAPI;;
                 if negb ok then throwEgl "Failed to bind egl api"
                 else
                   context <- native (eglCreateContext display major minor);;
                   if context =? EGL_NO_CONTEXT
                   then throwEgl "Failed to create egl context"
                   else ret ({| display_ := display; context_ := context |},
                             EGL_NO_DISPLAY)
             end)
  end.

Definition EglContext_delete (c : EglContext) : M unit :=
  native (eglDestroyContext (display_ c) (context_ c));;
  native (eglTerminate (display_ c)).

Definition MakeCurrent (c : EglContext) : M unit :=
  ok <- native (eglMakeCurrent (display_ c) (context_ c));;
  if negb ok then throwEgl "Failed to make EGL context current" else ret tt.

Definition ResetCurrent (c : EglContext) : M unit :=
  ok <- native (eglMakeCurrent (display_ c) EGL_NO_CONTEXT);;
  if negb ok then throwEgl "Failed to reset current EGL context" else ret tt.

Definition Sync (c : EglContext) : M unit :=
  sync <- native (eglCreateSync (display_ c));;
  if sync =? EGL_NO_SYNC then throwEgl "Failed to create egl fence sync"
  else
    native (eglClientWaitSync (display_ c) sync);;
    native (eglDestroySync (display_ c) sync);;
    ret tt.

(** *** GL helpers *)

Definition CreateGlTexture (image : Z) : M Z :=
  known <- get_resolved;;
  (if known then ret tt
   else
     gl_ext <- native glGetString;;
     match gl_ext with
     | None => throw (runtime_error "Failed to get gl extensions")
     | Some gl_ext =>
         VerifyExtension gl_ext "GL_OES_EGL_image";;
         found <- native (eglGetProcAddress "glEGLImageTargetTexture2DOES");;
         if found then set_resolved
         else throw (runtime_error
                       "Failed to import glEGLImageTargetTexture2DOES")
     end);;
  result <- native glGenTextures;;
  native (glBindTexture result);;
  native (glTexParameteri "GL_TEXTURE_MAG_FILTER");;
  native (glTexParameteri "GL_TEXTURE_MIN_FILTER");;
  native (glTexParameteri "GL_TEXTURE_WRAP_S");;
  native (glTexParameteri "GL_TEXTURE_WRAP_T");;
  native (glEGLImageTargetTexture2DOES image);;
  native (glBindTexture 0);;
  error <- native glGetError;;
  if negb (error =? GL_NO_ERROR) then
    native (glDeleteTextures result);;
    throw (runtime_error (WrapGlError "Failed to create image texture" error))
  else ret result.

Record Traits : Type := {
  message : string;
  status : Z -> call bool;        (* [getter(.., T::status, ..) == GL_TRUE] *)
  log_length : Z -> call Z;
  logger : Z -> Z -> call string
}.

Definition GlShaderTraits : Traits :=
  {| message := "Failed to compile shader"; status := glGetShaderiv_status;
     log_length := glGetShaderiv_log_length; logger := glGetShaderInfoLog |}.

Definition GlProgramTraits : Traits :=
  {| message := "Failed to link program"; status := glGetProgramiv_status;
     log_length := glGetProgramiv_log_length; logger := glGetProgramInfoLog |}.

Definition CheckBuildable (T : Traits) (buildable : Z) : M unit :=
  error <- native glGetError;;
  if negb (error =? GL_NO_ERROR)
  then throw (runtime_error (WrapGlError (message T) error))
  else
    built <- native (status T buildable);;
    if built then ret tt
    else
      length <- native (log_length T buildable);;
      log <- native (logger T buildable length);;
      throw (runtime_error log).

Definition CreateGlProgram : M Z :=
  shader <- native glCreateShader;;
  if shader =? 0 then throwGl "Failed to create shader"
  else
    Defer (native (glDeleteShader shader))
      (native (glShaderSource shader);;
       native (glCompileShader shader);;
       CheckBuildable GlShaderTraits shader;;
       program <- native glCreateProgram;;
       if program =? 0 then throwGl "Failed to create program"
       else
         Defer_ref program
           (fun program => when (negb (program =? 0)) (native (glDeleteProgram program)))
           (native (glAttachShader program shader);;
            native (glLinkProgram program);;
            CheckBuildable GlProgramTraits program;;
            ret (program, 0))).

End Gpu.

(** ** The converter interface (framesconv.h) *)

Record Framesconv : Type := {
  Convert : Z -> Z -> Z -> Z -> Native.M unit;
      (* texture_rgbx, width, height, texture_nv12 *)
  Framesconv_delete : Native.M unit
}.

(** ** The compute converter, host side (framesconv_es31.cc) *)

Module ES31.
Import Native Gpu.

Record FramesconvES31 : Type := { program_ : Z }.

Definition FramesconvES31_new : M FramesconvES31 :=
  program <- CreateGlProgram;;
  ret {| program_ := program |}.

Definition FramesconvES31_delete (self : FramesconvES31) : M unit :=
  native (glDeleteProgram (program_ self)).

Definition Convert (self : FramesconvES31)
           (texture_rgbx width height texture_nv12 : Z) : M unit :=
  native (glUseProgram (program_ self));;
  native (glBindImageTexture 0 texture_rgbx false);;
  native (glBindImageTexture 1 texture_nv12 true);;
  native (glDispatchCompute (Int.uint32_t (width / 8))
                            (Int.uint32_t (height / 4)) 1);;
  native glMemoryBarrier;;
  error <- native glGetError;;
  if negb (error =? GL_NO_ERROR)
  then throw (runtime_error (WrapGlError "Failed to dispatch compute" error))
  else ret tt.

Definition CreateFramesconvES31 : M Framesconv :=
  self <- FramesconvES31_new;;
  ret (Build_Framesconv (Convert self) (FramesconvES31_delete self)).

End ES31.

(** ** The raster converter, host side (framesconv_es20.cc) *)

Module ES20.
Import Native Gpu.

Record FramesconvES20 : Type := {
  framebuffer_ : Z;
  buffer_object_ : Z;
  program_ : Z;
  img_input_size_ : Z
}.

Definition delete_unless_zero (name : Z) (del : Z -> call unit) : M unit :=
  when (negb (name =? 0)) (native (del name)).

Definition FramesconvES20_new : M FramesconvES20 :=
  framebuffer <- native glGenFramebuffers;;
  if framebuffer =? 0 then throwGl "Failed to allocate framebuffer name"
  else
  Defer_ref framebuffer (fun fb => delete_unless_zero fb glDeleteFramebuffers)
    (buffer_object <- native glGenBuffers;;
     if buffer_object =? 0 then throwGl "Failed to allocate buffer object name"
     else
     Defer_ref buffer_object (fun bo => delete_unless_zero bo glDeleteBuffers)
       (native (glBindBuffer "GL_ARRAY_BUFFER" buffer_object);;
        native glBufferData;;
        native (glBindBuffer "GL_ARRAY_BUFFER" 0);;
        error <- native glGetError;;
        if negb (error =? GL_NO_ERROR)
        then throw (runtime_error (WrapGlError "Failed to initialize vbo" error))
        else
        built <- native CreateGlProgram2;;
        match built with
        | inl e => throw e
        | inr program =>
        Defer_ref program (fun p => delete_unless_zero p glDeleteProgram)
          (img_input <- native (glGetUniformLocation program "img_input");;
           if img_input =? -1 then throwGl "Failed to get img_input location"
           else
           native (glUseProgram program);;
           native (glUniform1i img_input 0);;
           native (glUseProgram 0);;
           error <- native glGetError;;
           if negb (error =? GL_NO_ERROR)
           then throw (runtime_error (WrapGlError "Failed to set img_input" error))
           else
           img_input_size <- native (glGetUniformLocation program "img_input_size");;
           if img_input_size =? -1
           then throwGl "Failed to get img_input_size location"
           else
           ret ({| framebuffer_ := framebuffer; buffer_object_ := buffer_object;
                   program_ := program; img_input_size_ := img_input_size |},
                0, 0, 0))
        end)).

Definition FramesconvES20_delete (self : FramesconvES20) : M unit :=
  native (glDeleteProgram (program_ self));;
  native (glDeleteBuffers (buffer_object_ self));;
  native (glDeleteFramebuffers (framebuffer_ self)).

(** The check of the framebuffer is taken by its outcome, complete or
    not: the message of the code ends with the status in hexadecimal,
    which is left out.  The sizes reach [glUniform2f] converted to
    [GLfloat]; the event records the integers that are converted. *)
Definition Convert (self : FramesconvES20)
           (texture_rgbx width height texture_nv12 : Z) : M unit :=
  native (glBindFramebuffer (framebuffer_ self));;
  native (glFramebufferTexture2D texture_nv12);;
  complete <- native glCheckFramebufferStatus;;
  if negb complete then
    native (glBindBuffer "GL_FRAMEBUFFER" 0);;
    throw (runtime_error "Framebuffer is incomplete")
  else
    native (glViewport 0 0 (Int.GLsizei width)
                       (Int.GLsizei (Int.size_t (height * 3) / 2)));;
    native (glUseProgram (program_ self));;
    native (glUniform2f (img_input_size_ self) width height);;
    native glActiveTexture;;
    native (glBindTexture texture_rgbx);;
    native (glBindBuffer "GL_ARRAY_BUFFER" (buffer_object_ self));;
    native glVertexAttribPointer;;
    native glEnableVertexAttribArray;;
    native (glDrawArrays 4);;
    native glDisableVertexAttribArray;;
    native (glBindBuffer "GL_ARRAY_BUFFER" 0);;
    native (glBindTexture 0);;
    native (glUseProgram 0);;
    native (glBindFramebuffer 0);;
    error <- native glGetError;;
    if negb (error =? GL_NO_ERROR)
    then throw (runtime_error (WrapGlError "Conversion failed" error))
    else ret tt.

Definition CreateFramesconvES20 : M Framesconv :=
  self <- FramesconvES20_new;;
  ret (Build_Framesconv (Convert self) (FramesconvES20_delete self)).

End ES20.

(** ** The orchestrator (main.cc) *)

Module Main.
Import Native Gpu Cmdline.

Inductive status : Type :=
| EXIT_SUCCESS
| EXIT_FAILURE
| Aborted            (* [std::terminate] *)
| Unspecified.       (* undefined behaviour in the command line *)

(** The body of the [try] block once the options are known.  Objects
    are destroyed in reverse order of construction when their scope is
    left.  The timing line written to [std::cerr] is not modelled. *)
Definition try_block (options : Options) : M unit :=
  device <- GbmDevice_new (render_node options);;
  Defer (GbmDevice_delete device)
  (buffer_rgbx <- CreateGbmBuffer device (width options) (height options);;
   Defer (GbmBuffer_delete buffer_rgbx)
   (FillFrom buffer_rgbx (input options);;
    buffer_nv12 <- CreateGbmBuffer device (width options / 4)
                     (Int.size_t (height options * 3) / 2);;
    Defer (GbmBuffer_delete buffer_nv12)
    (let context_version := if es20 options then (2, 0) else (3, 1) in
     context <- EglContext_new (fst context_version) (snd context_version);;
     Defer (EglContext_delete context)
     (MakeCurrent context;;
      Defer (ResetCurrent context)
      (let display := display_ context in
       image_rgbx <- CreateEglImage buffer_rgbx display;;
       Defer (native (eglDestroyImage display image_rgbx))
       (texture_rgbx <- CreateGlTexture image_rgbx;;
        Defer (native (glDeleteTextures texture_rgbx))
        (image_nv12 <- CreateEglImage buffer_nv12 display;;
         Defer (native (eglDestroyImage display image_nv12))
         (texture_nv12 <- CreateGlTexture image_nv12;;
          Defer (native (glDeleteTextures texture_nv12))
          (framesconv <- (if es20 options then ES20.CreateFramesconvES20
                          else ES31.CreateFramesconvES31);;
           Defer (Framesconv_delete framesconv)
           (Convert framesconv texture_rgbx (width options) (height options)
                    texture_nv12;;
            Sync context;;
            DrainTo buffer_nv12 (output options))))))))))).

Definition what (e : exn) : string :=
  match e with
  | invalid_argument s | runtime_error s | system_error s => s
  end.

Definition main (argv : list string) (env : Env) (w : world) : status * world :=
  match ParseCommandline argv with
  | Parsed options =>
      match try_block options env w with
      | (Ok _, w1) => (EXIT_SUCCESS, w1)
      | (Exn ex, w1) => (EXIT_FAILURE, print_cerr (what ex) w1)
      | (Terminated, w1) => (Aborted, w1)
      end
  | Rejected ex => (EXIT_FAILURE, print_cerr (what ex) w)
  | Undefined => (Unspecified, w)
  end.

End Main.

(** ** The GLSL kernels

    The shaders compute on floating-point samples whose precision and
    rounding are the GPU's.  They are embedded over an arbitrary carrier
    [F] with its four operations, its comparison and its literals, so that
    what is proved holds for whatever arithmetic executes them. *)

Record vec2 (T : Type) : Type := Vec2 { x : T; y : T }.
Record vec3 (T : Type) : Type := Vec3 { r3 : T; g3 : T; b3 : T }.
Record vec4 (T : Type) : Type := Vec4 { r : T; g : T; b : T; a : T }.
Arguments Vec2 {T} x y.
Arguments Vec3 {T} r3 g3 b3.
Arguments Vec4 {T} r g b a.
Arguments x {T} v.
Arguments y {T} v.
Arguments r3 {T} v.
Arguments g3 {T} v.
Arguments b3 {T} v.
Arguments r {T} v.
Arguments g {T} v.
Arguments b {T} v.
Arguments a {T} v.

(** The swizzles the shaders use. *)
Definition gb {T} (v : vec3 T) : vec2 T := Vec2 (g3 v) (b3 v).
Definition bgra {T} (v : vec4 T) : vec4 T := Vec4 (b v) (g v) (r v) (a v).

(** Output channel [i] of a 4-channel store, in the order r, g, b, a. *)
Definition channel {T} (v : vec4 T) (i : nat) : T :=
  match i with
  | O => r v
  | 1%nat => g v
  | 2%nat => b v
  | _ => a v
  end.

(** GLSL [uint] and [int] are 32 bits wide. *)
Definition uint (z : Z) : Z := z mod 2 ^ 32.
Definition int (z : Z) : Z := (z + 2 ^ 31) mod 2 ^ 32 - 2 ^ 31.

Definition ivec2 : Type := vec2 Z.
Definition ivec2_add (p q : ivec2) : ivec2 :=
  Vec2 (int (x p + x q)) (int (y p + y q)).

(** A pixel of the source file: raw 4-byte RGBX. *)
Record pixel (T : Type) : Type := Pixel { red : T; green : T; blue : T; pad : T }.
Arguments Pixel {T} red green blue pad.
Arguments red {T} p.
Arguments green {T} p.
Arguments blue {T} p.
Arguments pad {T} p.

(** How a source pixel reaches a kernel.  An [rgba8] image load sees the
    four bytes in file order.  A texture fetch sees them through the ARGB
    format the buffer is imported with, R and B exchanged, as the comment
    of the raster kernel says. *)
Definition imageLoad_texel {T} (p : pixel T) : vec4 T :=
  Vec4 (red p) (green p) (blue p) (pad p).
Definition texture2D_texel {T} (p : pixel T) : vec4 T :=
  Vec4 (blue p) (green p) (red p) (pad p).

Section Kernels.

Variable F : Type.
Variables fadd fsub fmul fdiv : F -> F -> F.
Variable flt : F -> F -> bool.
Variable lit : Q -> F.

Local Infix "+." := fadd (at level 50, left associativity).
Local Infix "-." := fsub (at level 50, left associativity).
Local Infix "*." := fmul (at level 40, left associativity).
Local Infix "/." := fdiv (at level 40, left associativity).

Definition vec2_add (p q : vec2 F) : vec2 F := Vec2 (x p +. x q) (y p +. y q).
Definition vec2_div (p : vec2 F) (d : F) : vec2 F := Vec2 (x p /. d) (y p /. d).

(** [vec4(p, q)] *)
Definition vec4_of (p q : vec2 F) : vec4 F := Vec4 (x p) (y p) (x q) (y q).

(** *** The formula as the specification writes it *)

Definition bt709_y (r g b : F) : F :=
  lit 0.2126 *. r +. lit 0.7152 *. g +. lit 0.0722 *. b.
Definition bt709_u (r g b : F) : F :=
  (b -. bt709_y r g b) /. (lit 2 *. (lit 1 -. lit 0.0722)) +. lit 0.5.
Definition bt709_v (r g b : F) : F :=
  (r -. bt709_y r g b) /. (lit 2 *. (lit 1 -. lit 0.2126)) +. lit 0.5.

(** *** The compute kernel (framesconv_es31.cc) *)

Definition rgb2yuv (rgb : vec4 F) : vec3 F :=
  let y := r rgb *. lit 0.2126 +. g rgb *. lit 0.7152 +. b rgb *. lit 0.0722 in
  let u := (b rgb -. y) /. (lit 2 *. (lit 1 -. lit 0.0722)) in
  let v := (r rgb -. y) /. (lit 2 *. (lit 1 -. lit 0.2126)) in
  Vec3 y (u +. lit 0.5) (v +. lit 0.5).

(** The work-group size declared by the kernel. *)
Definition local_size_x : Z := 2.
Definition local_size_y : Z := 2.

Section Compute.

Variable img_input : ivec2 -> vec4 F.      (* [imageLoad(img_input, .)] *)
Variable img_input_size : ivec2.           (* [imageSize(img_input)] *)
Variable gl_GlobalInvocationID : vec2 Z.   (* its x and y, two [uint] *)

Definition src_upper_left : ivec2 :=
  Vec2 (int (uint (x gl_GlobalInvocationID * 4)))
       (int (uint (y gl_GlobalInvocationID * 2))).

Definition src_offset (i : nat) : ivec2 :=
  nth i [Vec2 0 0; Vec2 1 0; Vec2 2 0; Vec2 3 0;
         Vec2 0 1; Vec2 1 1; Vec2 2 1; Vec2 3 1] (Vec2 0 0).

Definition rgb (i : nat) : vec4 F :=
  img_input (ivec2_add src_upper_left (src_offset i)).

Definition yuv (i : nat) : vec3 F := rgb2yuv (rgb i).

Definition dst_upper_left_luma : ivec2 :=
  Vec2 (int (x gl_GlobalInvocationID))
       (int (uint (y gl_GlobalInvocationID * 2))).

Definition dst_upper_left_chroma : ivec2 :=
  Vec2 (int (x gl_GlobalInvocationID))
       (int (int (y gl_GlobalInvocationID) + y img_input_size)).

Definition sum4 (p q s t : vec2 F) : vec2 F :=
  vec2_add (vec2_add (vec2_add p q) s) t.

(** The three [imageStore]s of one invocation, in program order. *)
Definition compute_main : list (ivec2 * vec4 F) :=
  [ (ivec2_add dst_upper_left_luma (Vec2 0 0),
     Vec4 (r3 (yuv 0)) (r3 (yuv 1)) (r3 (yuv 2)) (r3 (yuv 3)));
    (ivec2_add dst_upper_left_luma (Vec2 0 1),
     Vec4 (r3 (yuv 4)) (r3 (yuv 5)) (r3 (yuv 6)) (r3 (yuv 7)));
    (dst_upper_left_chroma,
     vec4_of
       (vec2_div (sum4 (gb (yuv 0)) (gb (yuv 1)) (gb (yuv 4)) (gb (yuv 5)))
                 (lit 4))
       (vec2_div (sum4 (gb (yuv 2)) (gb (yuv 3)) (gb (yuv 6)) (gb (yuv 7)))
                 (lit 4))) ].

(** The texels one invocation loads. *)
Definition footprint : list ivec2 :=
  map (fun i => ivec2_add src_upper_left (src_offset i)) (seq 0 8).

End Compute.

(** *** The raster kernel (framesconv_es20.cc) *)

Definition rgb2luma (rgb : vec4 F) : F :=
  b rgb *. lit 0.2126 +. g rgb *. lit 0.7152 +. r rgb *. lit 0.0722.

Definition rgb2chroma (rgb : vec4 F) : vec2 F :=
  let y := b rgb *. lit 0.2126 +. g rgb *. lit 0.7152 +. r rgb *. lit 0.0722 in
  let u := (r rgb -. y) /. (lit 2 *. (lit 1 -. lit 0.0722)) in
  let v := (b rgb -. y) /. (lit 2 *. (lit 1 -. lit 0.2126)) in
  Vec2 (u +. lit 0.5) (v +. lit 0.5).

Section Raster.

Variable texture2D : vec2 F -> vec4 F.     (* [texture2D(img_input, .)] *)
Variable img_input_size : vec2 F.
Variable dst_upper_left : vec2 F.

Definition pix_width : F := lit 1 /. x img_input_size.
Definition pix_height : F := lit 1 /. y img_input_size.

Definition luma_upper_left : vec2 F :=
  Vec2 (x dst_upper_left *. lit 4) (y dst_upper_left /. lit 2 *. lit 3).

Definition luma_offset (i : nat) : vec2 F :=
  nth i [Vec2 (lit 0) (lit 0); Vec2 pix_width (lit 0);
         Vec2 (pix_width *. lit 2) (lit 0);
         Vec2 (pix_width *. lit 3) (lit 0)] (Vec2 (lit 0) (lit 0)).

(** [luma[i]], the [i]-th logical sample of the 4x1 rectangle. *)
Definition luma (i : nat) : F :=
  rgb2luma (texture2D (vec2_add luma_upper_left (luma_offset i))).

Definition handle_luma : vec4 F :=
  bgra (Vec4 (luma 0) (luma 1) (luma 2) (luma 3)).

Definition chroma_upper_left : vec2 F :=
  Vec2 (x dst_upper_left *. lit 4)
       ((y dst_upper_left -. lit 2 /. lit 3) *. lit 3).

Definition chroma_offset (i : nat) : vec2 F :=
  nth i [Vec2 (lit 0) (lit 0); Vec2 pix_width (lit 0);
         Vec2 (pix_width *. lit 2) (lit 0);
         Vec2 (pix_width *. lit 3) (lit 0);
         Vec2 (lit 0) pix_height; Vec2 pix_width pix_height;
         Vec2 (pix_width *. lit 2) pix_height;
         Vec2 (pix_width *. lit 3) pix_height] (Vec2 (lit 0) (lit 0)).

Definition chroma (i : nat) : vec2 F :=
  rgb2chroma (texture2D (vec2_add chroma_upper_left (chroma_offset i))).

Definition add4 (p q s t : vec2 F) : vec2 F :=
  vec2_add (vec2_add (vec2_add p q) s) t.

Definition handle_chroma : vec4 F :=
  bgra (vec4_of
          (vec2_div (add4 (chroma 0) (chroma 1) (chroma 4) (chroma 5)) (lit 4))
          (vec2_div (add4 (chroma 2) (chroma 3) (chroma 6) (chroma 7)) (lit 4))).

(** [gl_FragColor] *)
Definition raster_main : vec4 F :=
  if flt (y dst_upper_left) (lit 2 /. lit 3) then handle_luma
  else handle_chroma.

(** The earlier luma-only state of the kernel, which samples the row
    [dst_upper_left.y] and converts with [rgb2yuv]. *)
Definition luma_only_sample (i : nat) : F :=
  r3 (rgb2yuv (texture2D (vec2_add (Vec2 (x dst_upper_left *. lit 4)
                                         (y dst_upper_left))
                                   (luma_offset i)))).

Definition luma_only_main : vec4 F :=
  Vec4 (luma_only_sample 2) (luma_only_sample 1)
       (luma_only_sample 0) (luma_only_sample 3).

End Raster.

End Kernels.

(** ** The first state of the orchestrator (main.cc)

    Before the converters existed [main] ran a kernel that copies each
    texel of the source to the same place of a destination of the same
    size, in work groups of 16x16 invocations.  It takes no [-es] and
    asks for sizes aligned to 16. *)

Module FirstState.
Import Native Gpu.

Record Options : Type := {
  width : Z;
  height : Z;
  input : option string;
  output : option string;
  render_node : option string
}.

Definition is_flag (it : string) : bool :=
  (String.eqb it "-w" || String.eqb it "-h" || String.eqb it "-i"
   || String.eqb it "-o" || String.eqb it "-r")%bool.

Definition handle (it : string) (arg : option string) (result : Options)
  : Cmdline.parsed Options :=
  if String.eqb it "-w" then
    Cmdline.and_then (Cmdline.check_size arg 0xf) (fun v =>
      Cmdline.Parsed {| width := v; height := height result;
                        input := input result; output := output result;
                        render_node := render_node result |})
  else if String.eqb it "-h" then
    Cmdline.and_then (Cmdline.check_size arg 0xf) (fun v =>
      Cmdline.Parsed {| width := width result; height := v;
                        input := input result; output := output result;
                        render_node := render_node result |})
  else if String.eqb it "-i" then
    Cmdline.and_then (Cmdline.check_fname arg) (fun f =>
      Cmdline.Parsed {| width := width result; height := height result;
                        input := f; output := output result;
                        render_node := render_node result |})
  else if String.eqb it "-o" then
    Cmdline.and_then (Cmdline.check_fname arg) (fun f =>
      Cmdline.Parsed {| width := width result; height := height result;
                        input := input result; output := f;
                        render_node := render_node result |})
  else if String.eqb it "-r" then
    Cmdline.Parsed {| width := width result; height := height result;
                      input := input result; output := output result;
                      render_node := arg |}
  else Cmdline.Parsed result.

Fixpoint parse_loop (args : list string) (result : Options)
  : Cmdline.parsed Options :=
  match args with
  | [] => Cmdline.Parsed result
  | it :: rest =>
      if is_flag it then
        match rest with
        | [] => handle it None result
        | arg :: rest' =>
            Cmdline.and_then (handle it (Some arg) result) (parse_loop rest')
        end
      else parse_loop rest result
  end.

Definition usage : string :=
  "Usage: framesconv [-i input] -w width -h height [-o output] [-r render_node]".

Definition initial : Options :=
  {| width := 0; height := 0; input := None; output := None;
     render_node := Some "/dev/dri/renderD128" |}.

Definition ParseCommandline (argv : list string) : Cmdline.parsed Options :=
  Cmdline.and_then (parse_loop argv initial) (fun result =>
    if ((width result =? 0) || (height result =? 0))%bool
    then Cmdline.Rejected (runtime_error usage)
    else Cmdline.Parsed result).

(** [kShaderSource]: one invocation copies one texel. *)
Definition copy_main {T} (img_input : ivec2 -> vec4 T)
           (gl_GlobalInvocationID : vec2 Z) : ivec2 * vec4 T :=
  let position := Vec2 (int (x gl_GlobalInvocationID))
                       (int (y gl_GlobalInvocationID)) in
  (position, img_input position).

Definition try_block (options : Options) : M unit :=
  device <- GbmDevice_new (render_node options);;
  Defer (GbmDevice_delete device)
  (buffer_rgbx <- CreateGbmBuffer device (width options) (height options);;
   Defer (GbmBuffer_delete buffer_rgbx)
   (FillFrom buffer_rgbx (input options);;
    buffer_nv12 <- CreateGbmBuffer device (width options) (height options);;
    Defer (GbmBuffer_delete buffer_nv12)
    (context <- EglContext_new 3 0;;
     Defer (EglContext_delete context)
     (MakeCurrent context;;
      Defer (ResetCurrent context)
      (let display := display_ context in
       program <- CreateGlProgram;;
       Defer (native (glDeleteProgram program))
       (image_rgbx <- CreateEglImage buffer_rgbx display;;
        Defer (native (eglDestroyImage display image_rgbx))
        (texture_rgbx <- CreateGlTexture image_rgbx;;
         Defer (native (glDeleteTextures texture_rgbx))
         (image_nv12 <- CreateEglImage buffer_nv12 display;;
          Defer (native (eglDestroyImage display image_nv12))
          (texture_nv12 <- CreateGlTexture image_nv12;;
           Defer (native (glDeleteTextures texture_nv12))
           (native (glUseProgram program);;
            native (glBindImageTexture 0 texture_rgbx false);;
            native (glBindImageTexture 1 texture_nv12 true);;
            native (glDispatchCompute (Int.uint32_t (width options / 16))
                                      (Int.uint32_t (height options / 16)) 1);;
            native glMemoryBarrier;;
            error <- native glGetError;;
            (if negb (error =? GL_NO_ERROR)
             then throw (runtime_error
                           (WrapGlError "Failed to dispatch compute" error))
             else ret tt);;
            Sync context;;
            DrainTo buffer_nv12 (output options))))))))))).

Definition main (argv : list string) (env : Env) (w : world)
  : Main.status * world :=
  match ParseCommandline argv with
  | Cmdline.Parsed options =>
      match try_block options env w with
      | (Ok _, w1) => (Main.EXIT_SUCCESS, w1)
      | (Exn ex, w1) => (Main.EXIT_FAILURE, print_cerr (Main.what ex) w1)
      | (Terminated, w1) => (Main.Aborted, w1)
      end
  | Cmdline.Rejected ex => (Main.EXIT_FAILURE, print_cerr (Main.what ex) w)
  | Cmdline.Undefined => (Main.Unspecified, w)
  end.

End FirstState.

(** The kernels over exact rationals, to evaluate them. *)
Module Exact.

Definition Qlt_bool (p q : Q) : bool := negb (Qle_bool q p).

Definition raster_main : (vec2 Q -> vec4 Q) -> vec2 Q -> vec2 Q -> vec4 Q :=
  raster_main Q Qplus Qminus Qmult Qdiv Qlt_bool (fun q => q).

Definition rgb2yuv : vec4 Q -> vec3 Q := rgb2yuv Q Qplus Qminus Qmult Qdiv (fun q => q).
Definition rgb2luma : vec4 Q -> Q := rgb2luma Q Qplus Qmult (fun q => q).
Definition rgb2chroma : vec4 Q -> vec2 Q :=
  rgb2chroma Q Qplus Qminus Qmult Qdiv (fun q => q).
Definition handle_luma : (vec2 Q -> vec4 Q) -> vec2 Q -> vec2 Q -> vec4 Q :=
  handle_luma Q Qplus Qmult Qdiv (fun q => q).
Definition luma : (vec2 Q -> vec4 Q) -> vec2 Q -> vec2 Q -> nat -> Q :=
  luma Q Qplus Qmult Qdiv (fun q => q).

(** Pure red. *)
Definition red_pixel : pixel Q := Pixel 1%Q 0%Q 0%Q 1%Q.

(** A grey ramp: the sample at abscissa [x] has all three channels [x]. *)
Definition ramp (p : vec2 Q) : vec4 Q := Vec4 (x p) (x p) (x p) 1%Q.

Definition size_4x2 : vec2 Q := Vec2 4%Q 2%Q.
Definition origin : vec2 Q := Vec2 0%Q 0%Q.

End Exact.

(** ** The fixed function around the raster kernel

    What OpenGL ES does between [glDrawArrays] and the fragment shader,
    for the state that [FramesconvES20::Convert] and [CreateGlTexture]
    set, in exact arithmetic: the vertex shader places the fan of
    [kVertices] on the whole viewport, a varying is interpolated linearly
    and a fragment is shaded at the centre of its pixel; a texture with
    the filter [GL_NEAREST] and the wrap mode [GL_CLAMP_TO_EDGE] returns
    the texel that holds the coordinate. *)

Module Pipeline.
Local Open Scope Q_scope.

(** [kVertices] of the constructor: the corners of the unit square. *)
Definition kVertices : list (vec2 Q) :=
  [Vec2 0 0; Vec2 1 0; Vec2 1 1; Vec2 0 1].

(** [mat4(c0, c1, c2, c3) * v]: the matrix is given by its columns. *)
Definition mat4_mul (c0 c1 c2 c3 v : vec4 Q) : vec4 Q :=
  Vec4 (r c0 * r v + r c1 * g v + r c2 * b v + r c3 * a v)
       (g c0 * r v + g c1 * g v + g c2 * b v + g c3 * a v)
       (b c0 * r v + b c1 * g v + b c2 * b v + b c3 * a v)
       (a c0 * r v + a c1 * g v + a c2 * b v + a c3 * a v).

(** The vertex shader: the varying [dst_upper_left] and [gl_Position]. *)
Definition vertex_main (position : vec2 Q) : vec2 Q * vec4 Q :=
  (position,
   mat4_mul (Vec4 2 0 0 0) (Vec4 0 2 0 0) (Vec4 0 0 2 0) (Vec4 (-1) (-1) 0 1)
            (Vec4 (x position) (y position) 0 1)).

(** Window coordinates of a clip position under [glViewport(0, 0, w, h)]. *)
Definition window (viewport : ivec2) (clip : vec4 Q) : vec2 Q :=
  Vec2 ((r clip / a clip + 1) / 2 * inject_Z (x viewport))
       ((g clip / a clip + 1) / 2 * inject_Z (y viewport)).

(** The varying of the fragment of pixel [(i, j)].  At each vertex the
    varying is the window position divided by the viewport, so that is
    what linear interpolation gives at the centre of the pixel. *)
Definition fragment_varying (viewport : ivec2) (i j : Z) : vec2 Q :=
  Vec2 ((inject_Z i + (1 # 2)) / inject_Z (x viewport))
       ((inject_Z j + (1 # 2)) / inject_Z (y viewport)).

(** [GL_CLAMP_TO_EDGE] *)
Definition clamp_to_edge (n i : Z) : Z := Z.max 0 (Z.min (n - 1) i)%Z.

(** [GL_NEAREST]: the texel whose cell holds the coordinate. *)
Definition nearest (size : ivec2) (coord : vec2 Q) : ivec2 :=
  Vec2 (clamp_to_edge (x size) (Qfloor (x coord * inject_Z (x size))))
       (clamp_to_edge (y size) (Qfloor (y coord * inject_Z (y size)))).

(** A normalized channel as the byte that stores it. *)
Definition unorm8 (v : Q) : Z :=
  let clamped := if Qle_bool v 0 then 0 else if Qle_bool 1 v then 1 else v in
  Qfloor (clamped * 255 + (1 # 2)).

(** A byte as the normalized channel a kernel reads. *)
Definition of_byte (n : Z) : Q := inject_Z n / 255.

(** The bytes of a destination texel, in memory order: an image store
    writes its channels in order, the framebuffer of the raster converter
    holds them with R and B exchanged, as its texture fetch reads them. *)
Definition imageStore_bytes (v : vec4 Q) : list Z :=
  map unorm8 [r v; g v; b v; a v].
Definition framebuffer_bytes (v : vec4 Q) : list Z :=
  map unorm8 [b v; g v; r v; a v].

(** What [Convert] of the raster converter leaves in texel [(i, j)] of the
    destination, for a source [frame] of [width] by [height] pixels. *)
Definition raster_texel (frame : ivec2 -> pixel Q) (width height i j : Z)
  : list Z :=
  framebuffer_bytes
    (Exact.raster_main
       (fun coord => texture2D_texel (frame (nearest (Vec2 width height) coord)))
       (Vec2 (inject_Z width) (inject_Z height))
       (fragment_varying
          (Vec2 (Int.GLsizei width)
                (Int.GLsizei (Int.size_t (height * 3) / 2)%Z))
          i j)).

(** What the invocation [(gx, gy)] of the compute converter stores: the
    texels it writes with their bytes. *)
Definition compute_texels (frame : ivec2 -> pixel Q) (width height gx gy : Z)
  : list (ivec2 * list Z) :=
  map (fun store => (fst store, imageStore_bytes (snd store)))
      (compute_main Q Qplus Qminus Qmult Qdiv (fun q => q)
                    (fun p => imageLoad_texel (frame p))
                    (Vec2 width height) (Vec2 gx gy)).

(** A frame of 8 by 4 pixels, a grey ramp: the three colour bytes of the
    pixels of column [x] are [32 * x]. *)
Definition ramp (p : ivec2) : pixel Q :=
  Pixel (of_byte (32 * x p)%Z) (of_byte (32 * x p)%Z) (of_byte (32 * x p)%Z) 1.

(** A frame of 8 by 4 pixels whose rows differ: the blue byte of the
    pixels of row [y] is [60 * y], red and green are 0. *)
Definition blue_rows (p : ivec2) : pixel Q :=
  Pixel 0 0 (of_byte (60 * y p)%Z) 1.

End Pipeline.

(** ** A cooperative environment

    A native layer on which every call succeeds, and a world whose
    standard input holds one 8x4 RGBX frame; used to run the program. *)

Module Demo.
Import Native.

Definition platform_extensions : string :=
  "EGL_EXT_platform_base EGL_MESA_platform_surfaceless".

Definition display_extensions : string :=
  "EGL_KHR_surfaceless_context EGL_KHR_no_config_context EGL_EXT_image_dma_buf_import".

Definition cooperative (R : Type) (history : list event) (c : call R) : R :=
  match c in call R return R with
  | open _ => 3
  | close _ => tt
  | mmap _ _ _ => Some 4096
  | munmap _ _ => tt
  | poke _ _ => tt
  | gbm_create_device _ => 1
  | gbm_device_destroy _ => tt
  | gbm_bo_create _ _ _ => 7
  | gbm_bo_destroy _ => tt
  | gbm_bo_get_fd _ => 5
  | eglGetError => 0x3000
  | eglQueryString dpy =>
      Some (if dpy =? 0 then platform_extensions else display_extensions)
  | eglGetPlatformDisplay => 1
  | eglInitialize _ => true
  | eglBindAPI => true
  | eglCreateContext _ _ _ => 2
  | eglDestroyContext _ _ => tt
  | eglTerminate _ => tt
  | eglMakeCurrent _ _ => true
  | eglCreateSync _ => 9
  | eglClientWaitSync _ _ => 0x30F6
  | eglDestroySync _ _ => true
  | eglCreateImage _ _ _ _ _ _ => 11
  | eglDestroyImage _ _ => tt
  | eglGetProcAddress _ => true
  | glGetError => 0
  | glGetString => Some "GL_OES_EGL_image"
  | glGenTextures => 1
  | glBindTexture _ => tt
  | glTexParameteri _ => tt
  | glEGLImageTargetTexture2DOES _ => tt
  | glDeleteTextures _ => tt
  | glCreateShader => 1
  | glDeleteShader _ => tt
  | glShaderSource _ => tt
  | glCompileShader _ => tt
  | glGetShaderiv_status _ => true
  | glGetShaderiv_log_length _ => 0
  | glGetShaderInfoLog _ _ => ""
  | glCreateProgram => 2
  | glDeleteProgram _ => tt
  | glAttachShader _ _ => tt
  | glLinkProgram _ => tt
  | glGetProgramiv_status _ => true
  | glGetProgramiv_log_length _ => 0
  | glGetProgramInfoLog _ _ => ""
  | glUseProgram _ => tt
  | glBindImageTexture _ _ _ => tt
  | glDispatchCompute _ _ _ => tt
  | glMemoryBarrier => tt
  | glGenFramebuffers => 1
  | glDeleteFramebuffers _ => tt
  | glGenBuffers => 1
  | glDeleteBuffers _ => tt
  | glBindBuffer _ _ => tt
  | glBufferData => tt
  | glGetUniformLocation _ _ => 0
  | glUniform1i _ _ => tt
  | glUniform2f _ _ _ => tt
  | glBindFramebuffer _ => tt
  | glFramebufferTexture2D _ => tt
  | glCheckFramebufferStatus => true
  | glViewport _ _ _ _ => tt
  | glActiveTexture => tt
  | glVertexAttribPointer => tt
  | glEnableVertexAttribArray => tt
  | glDrawArrays _ => tt
  | glDisableVertexAttribArray => tt
  | CreateGlProgram2 => inr 3
  end.

Definition env : Env :=
  {| answer := cooperative; mapped := fun _ _ _ => Byte.x80 |}.

Definition idle_in : istream :=
  {| pending := []; in_eof := false; in_fail := false |}.

Definition empty_out : ostream :=
  {| written := []; room := None; out_fail := false |}.

(** 8 * 4 * 4 bytes wait on standard input; nothing was written yet. *)
Definition start : world :=
  {| trace := [];
     fin := fun id =>
              match id with
              | None => {| pending := repeat Byte.xff 128; in_eof := false;
                           in_fail := false |}
              | Some _ => idle_in
              end;
     fout := fun _ => empty_out;
     resolved := false;
     cerr := [] |}.

Definition buffer : Gpu.GbmBuffer :=
  {| Gpu.width_ := 8; Gpu.height_ := 4; Gpu.bo_ := 7; Gpu.fd_ := 5 |}.

Definition argv : list string := ["framesconv"; "-w"; "8"; "-h"; "4"].

End Demo.

(** ** Vocabulary of the statements *)

Module Vocabulary.
Import Cmdline Native.

(** *** Numerals on the command line *)

Definition all_digits (s : string) : bool :=
  forallb isdigit (list_ascii_of_string s).

Definition starts_with_digit (s : string) : bool :=
  match s with
  | String c _ => isdigit c
  | EmptyString => false
  end.

(** The number a run of digits spells: the digits weighted by the powers
    of ten, the last one by 1. *)
Fixpoint positional (least_first : list ascii) : Z :=
  match least_first with
  | [] => 0
  | c :: more => digit_value c + 10 * positional more
  end.

Definition spelled (s : string) : Z :=
  positional (rev (list_ascii_of_string s)).

(** What is left of a string once [atoi] has read white space and sign. *)
Definition after_sign (s : string) : string :=
  match skip_space s with
  | String "-" rest => rest
  | String "+" rest => rest
  | rest => rest
  end.

(** The flags of a command line with the argument each one takes, as
    the loop of [ParseCommandline] pairs them. *)
Fixpoint flag_args (args : list string) : list (string * option string) :=
  match args with
  | [] => []
  | it :: rest =>
      if is_flag it then
        match rest with
        | [] => [(it, None)]
        | arg :: rest' => (it, Some arg) :: flag_args rest'
        end
      else flag_args rest
  end.

(** *** Resources held through EGL *)

Inductive resource : Type :=
| Display (dpy : Z)
| Context (dpy ctx : Z).

Definition resource_eqb (p q : resource) : bool :=
  match p, q with
  | Display d, Display d' => d =? d'
  | Context d c, Context d' c' => (d =? d') && (c =? c')
  | _, _ => false
  end.

(** What a call hands out, going by its answer. *)
Definition acquired (e : event) : option resource :=
  match e with
  | Ev c ans =>
      match c in call R return R -> option resource with
      | eglGetPlatformDisplay =>
          fun dpy => if dpy =? 0 then None else Some (Display dpy)
      | eglCreateContext dpy _ _ =>
          fun ctx => if ctx =? 0 then None else Some (Context dpy ctx)
      | _ => fun _ => None
      end ans
  end.

(** What a call gives back. *)
Definition released (e : event) : option resource :=
  match e with
  | Ev c _ =>
      match c with
      | eglTerminate dpy => Some (Display dpy)
      | eglDestroyContext dpy ctx => Some (Context dpy ctx)
      | _ => None
      end
  end.

(** The resources held after a run of events, the latest on top, starting
    from [held].  A release has to give back the resource on top: one that
    releases anything else (out of order, twice, or never acquired) makes
    the run ill-formed, [None]. *)
Fixpoint unwind (tr : list event) (held : list resource)
  : option (list resource) :=
  match tr with
  | [] => Some held
  | e :: tr' =>
      match released e with
      | Some res =>
          match held with
          | top :: rest => if resource_eqb res top then unwind tr' rest else None
          | [] => None
          end
      | None =>
          match acquired e with
          | Some res => unwind tr' (res :: held)
          | None => unwind tr' held
          end
      end
  end.

(** An extension-string query with its display and its answer. *)
Definition queried (e : event) : option (Z * option string) :=
  match e with
  | Ev c ans =>
      match c in call R return R -> option (Z * option string) with
      | eglQueryString dpy => fun ext => Some (dpy, ext)
      | _ => fun _ => None
      end ans
  end.

(** The capabilities [EglContext] looks for in the extension string of a
    display; [0] is [EGL_NO_DISPLAY], the platform itself. *)
Definition required (dpy : Z) : list string :=
  if dpy =? 0 then ["EGL_MESA_platform_surfaceless"]
  else ["EGL_KHR_surfaceless_context"; "EGL_KHR_no_config_context";
        "EGL_EXT_image_dma_buf_import"].

(** *** Host streams *)

(** The source can deliver [n] more bytes. *)
Definition delivers (s : istream) (n : Z) : bool :=
  negb (in_eof s || in_fail s) && (Z.to_nat n <=? List.length (pending s))%nat.

(** The sink can take [n] more bytes. *)
Definition takes (s : ostream) (n : Z) : bool :=
  negb (out_fail s)
  && match room s with
     | None => true
     | Some k => (Z.to_nat n <=? k)%nat
     end.

(** A computation that writes to no sink and only adds to the trace. *)
Definition tame {A : Type} (m : M A) : Prop :=
  forall env w,
    fout (snd (m env w)) = fout w
    /\ exists tr, trace (snd (m env w)) = (trace w ++ tr)%list.

(** A converter whose methods are tame. *)
Definition tame_converter (fc : Framesconv) : Prop :=
  (forall texture_rgbx width height texture_nv12,
      tame (Convert fc texture_rgbx width height texture_nv12))
  /\ tame (Framesconv_delete fc).

(** [bytes] are the first [n] bytes of a read-only mapping of the buffer
    [b], which a run with the events [tr] allocated and exported. *)
Definition drained_from (env : Env) (tr : list event) (b : Gpu.GbmBuffer)
           (n : Z) (bytes : list Byte.byte) : Prop :=
  exists device addr history,
    In (Ev (gbm_bo_create device (Gpu.width_ b) (Gpu.height_ b)) (Gpu.bo_ b)) tr
    /\ In (Ev (gbm_bo_get_fd (Gpu.bo_ b)) (Gpu.fd_ b)) tr
    /\ In (Ev (mmap n PROT_READ (Gpu.fd_ b)) (Some addr)) tr
    /\ bytes = map (mapped env history addr) (seq 0 (Z.to_nat n)).

(** The sizes the parser lets through. *)
Definition aligned (result : Options) : Prop :=
  0 <= width result /\ width result mod 8 = 0
  /\ 0 <= height result /\ height result mod 4 = 0.

End Vocabulary.

(** ** The ledger of native resources

    What the program holds of the native layer, kind by kind: file
    descriptors, GBM devices and buffer objects, mappings, the EGL
    display, context, fences and images, and the GL names. *)

Module Ledger.
Import Native.

Inductive resource : Type :=
| Descriptor (fd : Z)
| Device (dev : Z)
| BufferObject (bo : Z)
| Mapping (addr size : Z)
| Display (dpy : Z)
| Context (dpy ctx : Z)
| Fence (dpy sync : Z)
| Image (dpy image : Z)
| Texture (name : Z)
| Shader (name : Z)
| Program (name : Z)
| Framebuffer (name : Z)
| VertexBuffer (name : Z).

Definition resource_eqb (p q : resource) : bool :=
  match p, q with
  | Descriptor a, Descriptor a' => a =? a'
  | Device a, Device a' => a =? a'
  | BufferObject a, BufferObject a' => a =? a'
  | Mapping a n, Mapping a' n' => (a =? a') && (n =? n')
  | Display a, Display a' => a =? a'
  | Context d a, Context d' a' => (d =? d') && (a =? a')
  | Fence d a, Fence d' a' => (d =? d') && (a =? a')
  | Image d a, Image d' a' => (d =? d') && (a =? a')
  | Texture a, Texture a' => a =? a'
  | Shader a, Shader a' => a =? a'
  | Program a, Program a' => a =? a'
  | Framebuffer a, Framebuffer a' => a =? a'
  | VertexBuffer a, VertexBuffer a' => a =? a'
  | _, _ => false
  end.

(** A handle that is not the null value of its kind. *)
Definition unless (null handle : Z) (res : resource) : list resource :=
  if handle =? null then [] else [res].

(** What a call hands out, going by its answer: nothing when it answers
    the null handle of its kind. *)
Definition gain {R : Type} (c : call R) : R -> list resource :=
  match c in call R return R -> list resource with
  | open _ => fun fd => unless (-1) fd (Descriptor fd)
  | gbm_bo_get_fd _ => fun fd => unless (-1) fd (Descriptor fd)
  | gbm_create_device _ => fun dev => unless 0 dev (Device dev)
  | gbm_bo_create _ _ _ => fun bo => unless 0 bo (BufferObject bo)
  | mmap size _ _ =>
      fun data => match data with
                  | Some addr => [Mapping addr size]
                  | None => []
                  end
  | eglGetPlatformDisplay => fun dpy => unless 0 dpy (Display dpy)
  | eglCreateContext dpy _ _ => fun ctx => unless 0 ctx (Context dpy ctx)
  | eglCreateSync dpy => fun sync => unless 0 sync (Fence dpy sync)
  | eglCreateImage dpy _ _ _ _ _ => fun image => unless 0 image (Image dpy image)
  | glGenTextures => fun name => unless 0 name (Texture name)
  | glCreateShader => fun name => unless 0 name (Shader name)
  | glCreateProgram => fun name => unless 0 name (Program name)
  | glGenFramebuffers => fun name => unless 0 name (Framebuffer name)
  | glGenBuffers => fun name => unless 0 name (VertexBuffer name)
  | CreateGlProgram2 =>
      fun built => match built with
                   | inr name => unless 0 name (Program name)
                   | inl _ => []
                   end
  | _ => fun _ => []
  end.

(** What a call gives back.  The GL calls that delete a name ignore the
    name 0, and [close(-1)] fails without closing anything. *)
Definition loss {R : Type} (c : call R) : list resource :=
  match c with
  | close fd => unless (-1) fd (Descriptor fd)
  | gbm_device_destroy dev => [Device dev]
  | gbm_bo_destroy bo => [BufferObject bo]
  | munmap addr size => [Mapping addr size]
  | eglTerminate dpy => [Display dpy]
  | eglDestroyContext dpy ctx => [Context dpy ctx]
  | eglDestroySync dpy sync => [Fence dpy sync]
  | eglDestroyImage dpy image => [Image dpy image]
  | glDeleteTextures name => unless 0 name (Texture name)
  | glDeleteShader name => unless 0 name (Shader name)
  | glDeleteProgram name => unless 0 name (Program name)
  | glDeleteFramebuffers name => unless 0 name (Framebuffer name)
  | glDeleteBuffers name => unless 0 name (VertexBuffer name)
  | _ => []
  end.

(** Takes the latest [res] out of what is held; [None] when it is not
    held. *)
Fixpoint take (res : resource) (held : list resource)
  : option (list resource) :=
  match held with
  | [] => None
  | top :: rest =>
      if resource_eqb res top then Some rest
      else match take res rest with
           | Some rest' => Some (top :: rest')
           | None => None
           end
  end.

Fixpoint take_all (given_back held : list resource)
  : option (list resource) :=
  match given_back with
  | [] => Some held
  | res :: more =>
      match take res held with
      | Some rest => take_all more rest
      | None => None
      end
  end.

(** The resources held after a run of events, the latest first, starting
    from [held].  A run that gives back what is not held (never handed
    out, or given back before) is ill-formed, [None]. *)
Fixpoint settle (tr : list event) (held : list resource)
  : option (list resource) :=
  match tr with
  | [] => Some held
  | Ev c ans :: tr' =>
      match take_all (loss c) held with
      | Some rest => settle tr' (gain c ans ++ rest)
      | None => None
      end
  end.

(** The events end with a context that could not be released from the
    thread: [eglMakeCurrent] with no context answered false, and the
    error was fetched. *)
Definition reset_failed_last (tr : list event) : Prop :=
  exists front dpy error,
    tr = (front ++ [Ev (eglMakeCurrent dpy 0) false; Ev eglGetError error])%list.

(** [m] keeps the books.  Started while [pre] is held on top of anything
    else, a run of [m] gives back only what is held; it holds [ok a] in
    place of [pre] when it returns [a], and [ex] when it throws, [None]
    meaning that it does not throw.  It ends the process only if
    [may_abort], and only right after a failed reset. *)
Definition accounts {A : Type} (m : M A) (pre : list resource)
           (ok : A -> list resource) (ex : option (list resource))
           (may_abort : bool) : Prop :=
  forall env w,
  exists tr,
    trace (snd (m env w)) = (trace w ++ tr)%list
    /\ match fst (m env w) with
       | Ok a => forall base,
           settle tr (pre ++ base)%list = Some (ok a ++ base)%list
       | Exn _ =>
           match ex with
           | Some held => forall base,
               settle tr (pre ++ base)%list = Some (held ++ base)%list
           | None => False
           end
       | Terminated => may_abort = true /\ reset_failed_last tr
       end.

(** What the objects of the program own. *)
Definition GbmDevice_owns (d : Gpu.GbmDevice) : list resource :=
  unless 0 (Gpu.device_ d) (Device (Gpu.device_ d))
  ++ unless (-1) (Gpu.dev_fd_ d) (Descriptor (Gpu.dev_fd_ d)).

Definition GbmBuffer_owns (b : Gpu.GbmBuffer) : list resource :=
  unless (-1) (Gpu.fd_ b) (Descriptor (Gpu.fd_ b))
  ++ unless 0 (Gpu.bo_ b) (BufferObject (Gpu.bo_ b)).

Definition EglContext_owns (c : Gpu.EglContext) : list resource :=
  [Context (Gpu.display_ c) (Gpu.context_ c); Display (Gpu.display_ c)].

Definition FramesconvES20_owns (self : ES20.FramesconvES20) : list resource :=
  unless 0 (ES20.program_ self) (Program (ES20.program_ self))
  ++ unless 0 (ES20.buffer_object_ self) (VertexBuffer (ES20.buffer_object_ self))
  ++ unless 0 (ES20.framebuffer_ self) (Framebuffer (ES20.framebuffer_ self)).

End Ledger.

Module Lookup.
Import Native.

(** The calls by which [CreateGlTexture] finds its entry point: the
    query of the GL extension string and the lookup of the address. *)
Definition looks_up (e : event) : bool :=
  match e with
  | Ev c _ =>
      match c with
      | glGetString => true
      | eglGetProcAddress _ => true
      | _ => false
      end
  end.

End Lookup.

(** ** The bindings of the GL context *)

Module Binding.
Import Native.

(** The names bound in the context that the raster converter touches. *)
Record bindings : Type := {
  framebuffer : Z;
  program : Z;
  texture : Z;
  array_buffer : Z
}.

Definition bind_event (e : event) (st : bindings) : bindings :=
  match e with
  | Ev c _ =>
      match c with
      | glBindFramebuffer fb =>
          {| framebuffer := fb; program := program st; texture := texture st;
             array_buffer := array_buffer st |}
      | glUseProgram p =>
          {| framebuffer := framebuffer st; program := p; texture := texture st;
             array_buffer := array_buffer st |}
      | glBindTexture t =>
          {| framebuffer := framebuffer st; program := program st; texture := t;
             array_buffer := array_buffer st |}
      | glBindBuffer target bo =>
          if String.eqb target "GL_ARRAY_BUFFER" then
            {| framebuffer := framebuffer st; program := program st;
               texture := texture st; array_buffer := bo |}
          else st
      | _ => st
      end
  end.

(** The bindings after a run of events. *)
Definition after (tr : list event) (st : bindings) : bindings :=
  fold_left (fun st e => bind_event e st) tr st.

Definition unbound : bindings :=
  {| framebuffer := 0; program := 0; texture := 0; array_buffer := 0 |}.

(** The calls that set the viewport or draw. *)
Definition renders (e : event) : bool :=
  match e with
  | Ev c _ =>
      match c with
      | glViewport _ _ _ _ => true
      | glDrawArrays _ => true
      | _ => false
      end
  end.

End Binding.

(** ** Vocabulary of the command line *)

Module Flags.
Import Cmdline.

(** The argument given last to [flag], among the flags of a command
    line paired with their arguments; [Some None] is the flag in last
    position, with no argument. *)
Fixpoint last_arg (flag : string) (given : list (string * option string))
  : option (option string) :=
  match given with
  | [] => None
  | (f, arg) :: rest =>
      match last_arg flag rest with
      | Some later => Some later
      | None => if String.eqb f flag then Some arg else None
      end
  end.

(** The file a [-i] or [-o] argument names; ["-"] is the standard
    stream, [None]. *)
Definition named_file (given : option (option string)) : option string :=
  match given with
  | Some (Some s) => if String.eqb s "-" then None else Some s
  | _ => None
  end.

Definition all_spaces (s : string) : bool :=
  forallb isspace (list_ascii_of_string s).

(** The fields of the options after the loop, given the fields before.
    A size, a file or an implementation is never left by a flag in last
    position. *)
Definition decoded (given : list (string * option string))
           (result r : Options) : Prop :=
  width r = match last_arg "-w" given with
            | Some (Some s) => Int.size_t (atoi s)
            | Some None => width r
            | None => width result
            end
  /\ height r = match last_arg "-h" given with
                | Some (Some s) => Int.size_t (atoi s)
                | Some None => height r
                | None => height result
                end
  /\ input r = match last_arg "-i" given with
               | Some (Some s) => named_file (Some (Some s))
               | Some None => input r
               | None => input result
               end
  /\ output r = match last_arg "-o" given with
                | Some (Some s) => named_file (Some (Some s))
                | Some None => output r
                | None => output result
                end
  /\ render_node r = match last_arg "-r" given with
                     | Some arg => arg
                     | None => render_node result
                     end
  /\ es20 r = match last_arg "-es" given with
              | Some (Some s) => String.eqb s "20"
              | Some None => es20 r
              | None => es20 result
              end.

End Flags.

(** ** Vocabulary of the kernels *)

Module Texels.

(** A colour component lies between 0 and 1, as a normalized byte does. *)
Definition unit_range (q : Q) : Prop := (0 <= q <= 1)%Q.

(** The four channels are equal as rationals. *)
Definition same_texel (p q : vec4 Q) : Prop :=
  (r p == r q /\ g p == g q /\ b p == b q /\ a p == a q)%Q.

End Texels.

Module FirstDemo.
Import Native.

(** 16 * 16 * 4 bytes wait on standard input. *)
Definition start : world :=
  {| trace := [];
     fin := fun id =>
              match id with
              | None => {| pending := repeat Byte.xff 1024; in_eof := false;
                           in_fail := false |}
              | Some _ => Demo.idle_in
              end;
     fout := fun _ => Demo.empty_out;
     resolved := false;
     cerr := [] |}.

Definition argv : list string := ["framesconv"; "-w"; "16"; "-h"; "16"].

Definition options : FirstState.Options :=
  {| FirstState.width := 16; FirstState.height := 16;
     FirstState.input := None; FirstState.output := None;
     FirstState.render_node := Some "/dev/dri/renderD128" |}.

(** The sizes the first parser lets through. *)
Definition aligned (result : FirstState.Options) : Prop :=
  0 <= FirstState.width result /\ FirstState.width result mod 16 = 0
  /\ 0 <= FirstState.height result /\ FirstState.height result mod 16 = 0.

End FirstDemo.

Module Graphics.
Import Native.

(** The calls into EGL and OpenGL ES, as opposed to those into the C
    library and GBM. *)
Definition graphics (e : event) : bool :=
  match e with
  | Ev c _ =>
      match c with
      | open _ | close _ | mmap _ _ _ | munmap _ _ | poke _ _
      | gbm_create_device _ | gbm_device_destroy _ | gbm_bo_create _ _ _
      | gbm_bo_destroy _ | gbm_bo_get_fd _ => false
      | _ => true
      end
  end.

End Graphics.

Module Starved.
Import Native.

(** A process whose source has nothing to deliver. *)
Definition start : world :=
  {| trace := []; fin := fun _ => Demo.idle_in;
     fout := fun _ => Demo.empty_out; resolved := false; cerr := [] |}.

End Starved.

Module Streams.
Import Native.

(** A computation that reads from no source but [input] and writes to no
    sink but [output]. *)
Definition confined (input output : option string) {A : Type} (m : M A)
  : Prop :=
  forall env w,
    (forall id, same_stream id input = false ->
                fin (snd (m env w)) id = fin w id)
    /\ (forall id, same_stream id output = false ->
                   fout (snd (m env w)) id = fout w id).

End Streams.

(** * Properties *)

(** Division and remainder by a literal are linear arithmetic. *)
Ltac Zify.zify_post_hook ::= Z.div_mod_to_equations.

(** ** The command line *)

Section CmdlineFacts.
Import Cmdline Vocabulary.

Lemma digits_app (ds rest : string) (acc : Z) :
  all_digits ds = true -> starts_with_digit rest = false ->
  digits acc (ds ++ rest) = digits acc ds.
Proof.
  revert acc. induction ds as [|c ds IH]; intros acc Hd Hr.
  - destruct rest as [|c rest]; [reflexivity|].
    simpl in *. now rewrite Hr.
  - unfold all_digits in Hd. simpl in Hd.
    apply andb_true_iff in Hd as [Hc Hd].
    simpl. rewrite Hc. now apply IH.
Qed.

Lemma digits_no_digit (s : string) (acc : Z) :
  starts_with_digit s = false -> digits acc s = acc.
Proof. destruct s as [|c s]; simpl; [reflexivity|]. now intros ->. Qed.

Lemma digit_not_space (c : ascii) : isdigit c = true -> isspace c = false.
Proof.
  unfold isdigit, isspace. intros H.
  apply andb_true_iff in H as [H1 H2].
  apply Nat.leb_le in H1. apply Nat.leb_le in H2.
  apply orb_false_iff. split.
  - apply Nat.eqb_neq. lia.
  - apply andb_false_iff. right. apply Nat.leb_gt. lia.
Qed.

Lemma digit_not_sign (c : ascii) :
  isdigit c = true -> c <> "-"%char /\ c <> "+"%char.
Proof. split; intros ->; discriminate. Qed.

(** A string that begins with a digit is read from its first character. *)
Lemma numeral_digits (s : string) :
  starts_with_digit s = true -> numeral s = digits 0 s.
Proof.
  destruct s as [|c s]; [discriminate|]. simpl. intros Hc.
  unfold numeral. simpl. rewrite (digit_not_space c Hc).
  destruct (digit_not_sign c Hc) as [Hm Hp].
  destruct (Ascii.ascii_dec c "-") as [->|_]; [congruence|].
  destruct (Ascii.ascii_dec c "+") as [->|_]; [congruence|].
  destruct c as [[] [] [] [] [] [] [] []]; try reflexivity; congruence.
Qed.

Lemma numeral_trailing (ds rest : string) :
  all_digits ds = true -> ds <> "" -> starts_with_digit rest = false ->
  numeral (ds ++ rest) = numeral ds.
Proof.
  intros Hd Hne Hr.
  assert (Hs : starts_with_digit ds = true).
  { destruct ds as [|c ds]; [congruence|].
    unfold all_digits in Hd. simpl in Hd.
    now apply andb_true_iff in Hd as [Hc _]. }
  rewrite !numeral_digits; auto.
  - now apply digits_app.
  - destruct ds; [congruence|exact Hs].
Qed.

Lemma numeral_no_digits (s : string) :
  starts_with_digit (after_sign s) = false -> numeral s = 0.
Proof.
  unfold after_sign, numeral. intros H.
  destruct (skip_space s) as [|c t]; [reflexivity|].
  destruct c as [[] [] [] [] [] [] [] []];
    try (now rewrite (digits_no_digit _ 0 H)).
Qed.

(** Where the number fits an [int], [atoi] reads it. *)
Lemma atoi_numeral (s : string) :
  Int.INT_MIN <= numeral s <= Int.INT_MAX -> atoi s = numeral s.
Proof.
  unfold atoi, strtol, Int.int, Int.INT_MIN, Int.INT_MAX, Int.LONG_MIN,
    Int.LONG_MAX.
  change (2 ^ 31) with 2147483648. change (2 ^ 32) with 4294967296.
  intros H.
  rewrite Z.min_r, Z.max_r by lia.
  rewrite Z.mod_small by lia. lia.
Qed.

Lemma atoi_no_digits (s : string) :
  starts_with_digit (after_sign s) = false -> atoi s = 0.
Proof.
  intros H. rewrite atoi_numeral; rewrite (numeral_no_digits s H);
    [reflexivity|unfold Int.INT_MIN, Int.INT_MAX; lia].
Qed.

End CmdlineFacts.

Section SpellingFacts.
Import Cmdline Vocabulary.

Lemma positional_snoc (l : list ascii) (c : ascii) :
  positional (l ++ [c])
  = positional l + 10 ^ Z.of_nat (List.length l) * digit_value c.
Proof.
  induction l as [|d l IH].
  - cbn [app positional List.length]. change (10 ^ Z.of_nat 0) with 1. lia.
  - cbn [app positional]. rewrite IH.
    change (List.length (d :: l)) with (S (List.length l)).
    rewrite Nat2Z.inj_succ, Z.pow_succ_r by lia. ring.
Qed.

Lemma digits_spelled (s : string) (acc : Z) :
  all_digits s = true ->
  digits acc s = acc * 10 ^ Z.of_nat (String.length s) + spelled s.
Proof.
  revert acc. induction s as [|c s IH]; intros acc Hd.
  - cbn. lia.
  - unfold all_digits in Hd. cbn in Hd.
    apply andb_true_iff in Hd as [Hc Hd].
    cbn [digits]. rewrite Hc, (IH _ Hd).
    unfold spelled. cbn [list_ascii_of_string rev].
    rewrite positional_snoc, length_rev.
    replace (List.length (list_ascii_of_string s)) with (String.length s).
    + cbn [String.length]. rewrite Nat2Z.inj_succ, Z.pow_succ_r by lia. ring.
    + clear. induction s as [|d s IH]; cbn; congruence.
Qed.

Lemma numeral_spelled (ds : string) :
  all_digits ds = true -> ds <> "" -> numeral ds = spelled ds.
Proof.
  intros Hd Hne. rewrite numeral_digits.
  - rewrite (digits_spelled ds 0 Hd). lia.
  - destruct ds as [|c ds]; [congruence|].
    unfold all_digits in Hd. cbn in Hd.
    now apply andb_true_iff in Hd as [Hc _].
Qed.

End SpellingFacts.

(** Outside the range of [int] a size is read through its low 32 bits:
    both texts below are read as 8, and accepted as a width. *)
Example atoi_keeps_low_32_bits :
  Cmdline.atoi "4294967304" = 8
  /\ Cmdline.atoi "-4294967288" = 8
  /\ Cmdline.check_size (Some "-4294967288") 7 = Cmdline.Parsed 8
  /\ Cmdline.atoi "9223372036854775808" = -1.
Proof. vm_compute. auto. Qed.

(** C9.  Sizes are read with [atoi]: a run of digits followed by anything
    that is not a digit is read as the number the digits spell, and is
    accepted when that number is a positive [int] aligned to the mask
    (["16xyz"] is accepted as 16); a string in which no digit follows the
    optional white space and sign reads as 0 and is rejected with "Size
    must be positive". *)
Theorem check_size_reads_like_atoi (ds rest junk : string) (mask : Z) :
  Vocabulary.all_digits ds = true -> ds <> "" ->
  Vocabulary.starts_with_digit rest = false ->
  0 < Vocabulary.spelled ds <= Int.INT_MAX ->
  Z.land (Vocabulary.spelled ds) mask = 0 ->
  Vocabulary.starts_with_digit (Vocabulary.after_sign junk) = false ->
  Cmdline.atoi (ds ++ rest) = Vocabulary.spelled ds
  /\ Cmdline.check_size (Some (ds ++ rest)) mask
     = Cmdline.Parsed (Vocabulary.spelled ds)
  /\ Cmdline.check_size (Some "16xyz") 7 = Cmdline.Parsed 16
  /\ Cmdline.atoi junk = 0
  /\ Cmdline.check_size (Some junk) mask
     = Cmdline.Rejected (invalid_argument "Size must be positive").
Proof.
  intros Hd Hne Hr [Hpos Hmax] Hmask Hjunk.
  assert (Hval : Cmdline.atoi (ds ++ rest) = Vocabulary.spelled ds).
  { rewrite atoi_numeral;
      rewrite (numeral_trailing ds rest Hd Hne Hr), (numeral_spelled ds Hd Hne);
      [reflexivity|unfold Int.INT_MIN; lia]. }
  split; [exact Hval|]. split; [|split; [|split]].
  - unfold Cmdline.check_size. rewrite Hval.
    destruct (Z.leb_spec (Vocabulary.spelled ds) 0); [lia|].
    rewrite Hmask. simpl. f_equal.
    unfold Int.size_t, Int.size_max. apply Z.mod_small.
    unfold Int.INT_MAX in Hmax. lia.
  - reflexivity.
  - now apply atoi_no_digits.
  - unfold Cmdline.check_size. now rewrite (atoi_no_digits junk Hjunk).
Qed.

Lemma check_size_reads_like_atoi_witness :
  Cmdline.atoi ("64" ++ " pixels") = 64
  /\ Cmdline.check_size (Some ("64" ++ " pixels")) 7 = Cmdline.Parsed 64
  /\ Cmdline.check_size (Some "16xyz") 7 = Cmdline.Parsed 16
  /\ Cmdline.atoi "wide" = 0
  /\ Cmdline.check_size (Some "wide") 7
     = Cmdline.Rejected (invalid_argument "Size must be positive").
Proof.
  apply (check_size_reads_like_atoi "64" " pixels" "wide" 7).
  - reflexivity.
  - discriminate.
  - reflexivity.
  - change (0 < 64 <= 2147483647). lia.
  - reflexivity.
  - reflexivity.
Defined.

(** ** Running computations *)

Section MonadFacts.
Import Native.

Lemma unit_tt (u : unit) : u = tt.
Proof. now destruct u. Qed.

Lemma run_bind {A B} (m : M A) (k : A -> M B) env w :
  bind m k env w =
  match m env w with
  | (Ok a, w1) => k a env w1
  | (Exn e, w1) => (Exn e, w1)
  | (Terminated, w1) => (Terminated, w1)
  end.
Proof. reflexivity. Qed.

Lemma run_native {R} (c : call R) env w :
  native c env w
  = (Ok (answer env R (trace w) c), log (Ev c (answer env R (trace w) c)) w).
Proof. reflexivity. Qed.

Lemma bind_Ok {A B} (m : M A) (k : A -> M B) env w b w' :
  bind m k env w = (Ok b, w') ->
  exists a w1, m env w = (Ok a, w1) /\ k a env w1 = (Ok b, w').
Proof.
  rewrite run_bind. destruct (m env w) as [[a0|e|] w1]; intros H.
  - now exists a0, w1.
  - discriminate.
  - discriminate.
Qed.

Lemma Defer_Ok {A} (impl : M unit) (scope : M A) env w v w' :
  Defer impl scope env w = (Ok v, w') ->
  exists w1, scope env w = (Ok v, w1) /\ impl env w1 = (Ok tt, w').
Proof.
  unfold Defer. destruct (scope env w) as [[a0|e|] w1]; intros H.
  - exists w1. destruct (impl env w1) as [[u|e|] w2]; inversion H; subst.
    now rewrite (unit_tt u).
  - destruct (impl env w1) as [[u|e'|] w2]; discriminate.
  - discriminate.
Qed.

Lemma Defer_ref_Ok {A S} (local : S) (impl : S -> M unit) (scope : M (A * S))
      env w v w' :
  Defer_ref local impl scope env w = (Ok v, w') ->
  exists s w1, scope env w = (Ok (v, s), w1) /\ impl s env w1 = (Ok tt, w').
Proof.
  unfold Defer_ref. destruct (scope env w) as [[[a0 s]|e|] w1]; intros H.
  - exists s, w1. destruct (impl s env w1) as [[u|e|] w2]; inversion H; subst.
    now rewrite (unit_tt u).
  - destruct (impl local env w1) as [[u|e'|] w2]; discriminate.
  - discriminate.
Qed.

Lemma trace_log e w : trace (log e w) = (trace w ++ [e])%list.
Proof. reflexivity. Qed.

End MonadFacts.

(** ** The fence *)

(** C10.  [Sync] throws exactly when the fence cannot be created.  Once it
    is created the wait and the destruction are issued and their answers
    are dropped: whatever they are, [Sync] returns normally. *)
Theorem Sync_fails_only_on_fence_creation (c : Gpu.EglContext)
        (env : Native.Env) (w : Native.world) :
  let d := Gpu.display_ c in
  let sync := Native.answer env Z (Native.trace w) (Native.eglCreateSync d) in
  let w1 := Native.log (Native.Ev (Native.eglCreateSync d) sync) w in
  if sync =? Gpu.EGL_NO_SYNC then
    let error := Native.answer env Z (Native.trace w1) Native.eglGetError in
    Gpu.Sync c env w
    = (Native.Exn (runtime_error
                     (Gpu.WrapEglError "Failed to create egl fence sync" error)),
       Native.log (Native.Ev Native.eglGetError error) w1)
  else
    let waited :=
      Native.answer env Z (Native.trace w1) (Native.eglClientWaitSync d sync) in
    let w2 := Native.log (Native.Ev (Native.eglClientWaitSync d sync) waited) w1 in
    let destroyed :=
      Native.answer env bool (Native.trace w2) (Native.eglDestroySync d sync) in
    Gpu.Sync c env w
    = (Native.Ok tt,
       Native.log (Native.Ev (Native.eglDestroySync d sync) destroyed) w2).
Proof.
  intros d sync w1. unfold Gpu.Sync.
  rewrite run_bind, run_native. fold d sync w1.
  destruct (sync =? Gpu.EGL_NO_SYNC); reflexivity.
Qed.

(** ** The display context *)

Ltac run_monad :=
  cbv beta iota zeta delta
      [Native.bind Native.native Native.throw Native.ret Native.when
       Native.Defer Native.Defer_ref Native.peek Native.istream_failed
       Native.ostream_failed Native.read_stream Native.write_stream
       Native.get_resolved Native.set_resolved
       Gpu.throwEgl Gpu.throwGl Gpu.VerifyExtension].

(** Gives a name to every answer of the environment, the earliest first. *)
Ltac name_answers env :=
  repeat match goal with
         | |- context [Native.answer env ?R ?h ?c] =>
             lazymatch h with
             | context [Native.answer] => fail
             | _ =>
                 lazymatch c with
                 | context [Native.answer] => fail
                 | _ => let v := fresh "ans" in
                        set (v := Native.answer env R h c) in *; clearbody v
                 end
             end
         end.

Ltac branch :=
  match goal with
  | |- context [?n =? ?n] => rewrite (Z.eqb_refl n); cbn [negb]
  | |- context [if negb ?t then _ else _] => destruct t eqn:?; cbn [negb]
  | |- context [if ?t then _ else _] => destruct t eqn:?
  | |- context [match ?t with Some _ => _ | None => _ end] => destruct t eqn:?
  | |- context [match ?t with inl _ => _ | inr _ => _ end] => destruct t eqn:?
  end; cbv beta iota zeta.

(** Answers of type [unit] are [tt]. *)
Ltac unit_answers env :=
  name_answers env; repeat match goal with u : unit |- _ => destruct u end.



(** The ledger tells a leak and a double release from a clean run. *)
Example unwind_tells_leaks_and_double_releases :
  Vocabulary.unwind [Native.Ev Native.eglGetPlatformDisplay 1] []
  = Some [Vocabulary.Display 1]
  /\ Vocabulary.unwind [Native.Ev Native.eglGetPlatformDisplay 1;
                        Native.Ev (Native.eglTerminate 1) tt;
                        Native.Ev (Native.eglTerminate 1) tt] [] = None
  /\ Vocabulary.unwind [Native.Ev Native.eglGetPlatformDisplay 1;
                        Native.Ev (Native.eglCreateContext 1 3 1) 2;
                        Native.Ev (Native.eglTerminate 1) tt] [] = None
  /\ Vocabulary.unwind [Native.Ev Native.eglGetPlatformDisplay 1;
                        Native.Ev (Native.eglCreateContext 1 3 1) 2;
                        Native.Ev (Native.eglDestroyContext 1 2) tt;
                        Native.Ev (Native.eglTerminate 1) tt] [] = Some [].
Proof. repeat split. Qed.

(** ** Filling and draining a buffer *)

Section BufferFacts.
Import Native Gpu Vocabulary.

Lemma extent_exact (b : GbmBuffer) :
  0 <= width_ b -> 0 <= height_ b -> width_ b * height_ b * 4 < 2 ^ 63 ->
  extent b = width_ b * height_ b * 4
  /\ Int.streamsize (extent b) = width_ b * height_ b * 4.
Proof.
  intros Hw Hh Hs. unfold extent, Int.size_t, Int.size_max, Int.streamsize.
  assert (0 <= width_ b * height_ b) by nia.
  rewrite (Z.mod_small (width_ b * height_ b)) by lia.
  rewrite (Z.mod_small (width_ b * height_ b * 4)) by lia.
  split; [reflexivity|].
  rewrite Z.mod_small by lia. lia.
Qed.

Lemma read_delivered (s : istream) (n : Z) :
  0 <= n -> delivers s n = true ->
  fst (istream_read s n) = firstn (Z.to_nat n) (pending s)
  /\ Z.of_nat (List.length (fst (istream_read s n))) = n
  /\ in_fail (snd (istream_read s n)) = false.
Proof.
  unfold delivers, istream_read. intros Hn H.
  apply andb_true_iff in H as [Hgood Hlen].
  apply negb_true_iff in Hgood. rewrite Hgood.
  destruct (Z.ltb_spec n 0); [lia|]. cbn [orb].
  rewrite Hlen. cbn [fst snd in_fail]. repeat split.
  apply Nat.leb_le in Hlen. rewrite length_firstn. lia.
Qed.

Lemma read_short (s : istream) (n : Z) :
  0 <= n -> delivers s n = false ->
  in_fail (snd (istream_read s n)) = true
  /\ (0 < n -> Z.of_nat (List.length (fst (istream_read s n))) < n).
Proof.
  unfold delivers, istream_read. intros Hn H.
  destruct (Z.ltb_spec n 0); [lia|]. rewrite orb_false_r.
  destruct (in_eof s || in_fail s)%bool; cbn [negb andb] in *.
  - cbn. split; [reflexivity|lia].
  - rewrite H. cbn [fst snd in_fail]. split; [reflexivity|].
    apply Nat.leb_gt in H. lia.
Qed.

Lemma write_taken (s : ostream) (n : Z) (data : list Byte.byte) :
  0 <= n -> Z.of_nat (List.length data) = n -> takes s n = true ->
  written (ostream_write s n data) = (written s ++ data)%list
  /\ out_fail (ostream_write s n data) = false.
Proof.
  unfold takes, ostream_write. intros Hn Hlen H.
  apply andb_true_iff in H as [Hgood Hroom].
  apply negb_true_iff in Hgood. rewrite Hgood.
  destruct (Z.ltb_spec n 0); [lia|].
  destruct (room s) as [k|]; [|split; reflexivity].
  replace (List.length data) with (Z.to_nat n) by lia.
  rewrite Hroom. split; reflexivity.
Qed.

Lemma write_short (s : ostream) (n : Z) (data : list Byte.byte) :
  0 <= n -> Z.of_nat (List.length data) = n -> takes s n = false ->
  out_fail (ostream_write s n data) = true
  /\ exists kept, written (ostream_write s n data) = (written s ++ kept)%list
                  /\ (0 < n -> Z.of_nat (List.length kept) < n).
Proof.
  unfold takes, ostream_write. intros Hn Hlen H.
  destruct (out_fail s) eqn:Hf; cbn [negb andb] in H.
  - split; [assumption|]. exists []. rewrite app_nil_r. split; [reflexivity|].
    cbn. lia.
  - destruct (Z.ltb_spec n 0); [lia|].
    destruct (room s) as [k|]; [|discriminate].
    replace (List.length data) with (Z.to_nat n) by lia.
    rewrite H. split; [reflexivity|]. exists (firstn k data).
    split; [reflexivity|]. intros _. apply Nat.leb_gt in H.
    rewrite length_firstn. lia.
Qed.

Lemma same_stream_refl (id : option string) : same_stream id id = true.
Proof. destruct id as [p|]; [apply String.eqb_refl|reflexivity]. Qed.

End BufferFacts.

(** C6.  For a buffer whose extent [width * height * 4] fits the signed
    size of a stream operation, [FillFrom] and [DrainTo] map exactly that
    extent.  If the mapping fails they throw and there is nothing to
    unmap.  Otherwise they unmap it, once, as their last action, whether
    the copy succeeded or not; they return normally exactly when the
    stream delivers (takes) the whole extent, in which case exactly that
    many bytes were copied; a stream that falls short makes them throw. *)
Theorem FillFrom_DrainTo_scoped_mapping (b : Gpu.GbmBuffer)
        (id : option string) (env : Native.Env) (w : Native.world) :
  0 <= Gpu.width_ b -> 0 <= Gpu.height_ b ->
  Gpu.width_ b * Gpu.height_ b * 4 < 2 ^ 63 ->
  let size := Gpu.width_ b * Gpu.height_ b * 4 in
  (* FillFrom *)
  (let request := Native.mmap size Native.PROT_WRITE (Gpu.fd_ b) in
   match Native.answer env _ (Native.trace w) request with
   | None =>
       Gpu.FillFrom b id env w
       = (Native.Exn (system_error "Failed to mmap gbm buffer object fd"),
          Native.log (Native.Ev request None) w)
   | Some data =>
       let got := fst (Native.istream_read (Native.fin w id) size) in
       Native.trace (snd (Gpu.FillFrom b id env w))
       = (Native.trace w
          ++ [Native.Ev request (Some data); Native.Ev (Native.poke data got) tt;
              Native.Ev (Native.munmap data size) tt])%list
       /\ (if Vocabulary.delivers (Native.fin w id) size
           then fst (Gpu.FillFrom b id env w) = Native.Ok tt
                /\ Z.of_nat (List.length got) = size
           else fst (Gpu.FillFrom b id env w)
                = Native.Exn (runtime_error "Failed to read source")
                /\ (0 < size -> Z.of_nat (List.length got) < size))
   end)
  /\
  (* DrainTo *)
  (let request := Native.mmap size Native.PROT_READ (Gpu.fd_ b) in
   match Native.answer env _ (Native.trace w) request with
   | None =>
       Gpu.DrainTo b id env w
       = (Native.Exn (system_error "Failed to mmap gbm buffer object fd"),
          Native.log (Native.Ev request None) w)
   | Some data =>
       let w1 := Native.log (Native.Ev request (Some data)) w in
       let bytes := map (Native.mapped env (Native.trace w1) data)
                        (seq 0 (Z.to_nat size)) in
       Native.trace (snd (Gpu.DrainTo b id env w))
       = (Native.trace w
          ++ [Native.Ev request (Some data);
              Native.Ev (Native.munmap data size) tt])%list
       /\ Z.of_nat (List.length bytes) = size
       /\ (if Vocabulary.takes (Native.fout w id) size
           then fst (Gpu.DrainTo b id env w) = Native.Ok tt
                /\ Native.written (Native.fout (snd (Gpu.DrainTo b id env w)) id)
                   = (Native.written (Native.fout w id) ++ bytes)%list
           else fst (Gpu.DrainTo b id env w)
                = Native.Exn (runtime_error "Failed to write target")
                /\ exists kept,
                     Native.written (Native.fout (snd (Gpu.DrainTo b id env w)) id)
                     = (Native.written (Native.fout w id) ++ kept)%list
                     /\ (0 < size -> Z.of_nat (List.length kept) < size))
   end).
Proof.
  intros Hw Hh Hs size.
  destruct (extent_exact b Hw Hh Hs) as [He Hss]. fold size in He, Hss.
  rewrite He in Hss.
  assert (Hsize : 0 <= size) by (unfold size; nia).
  split.
  - unfold Gpu.FillFrom. rewrite He, Hss. run_monad.
    destruct (Native.answer env (option Z) (Native.trace w)
                (Native.mmap size Native.PROT_WRITE (Gpu.fd_ b)))
      as [data|] eqn:Hm; [|reflexivity].
    cbv beta iota zeta. cbn [Native.trace Native.log Native.fin].
    destruct (Native.istream_read (Native.fin w id) size) as [got s'] eqn:Hr.
    cbn [fst snd Native.trace Native.log Native.fin].
    rewrite same_stream_refl.
    name_answers env.
    destruct (Vocabulary.delivers (Native.fin w id) size) eqn:Hd.
    + destruct (read_delivered _ _ Hsize Hd) as (_ & Hlen & Hgood).
      rewrite Hr in Hlen, Hgood. cbn [fst snd] in Hlen, Hgood.
      rewrite Hgood. cbn [fst snd Native.trace Native.log].
      unit_answers env. rewrite <- !app_assoc. cbn [app]. auto.
    + destruct (read_short _ _ Hsize Hd) as (Hbad & Hlen).
      rewrite Hr in Hlen, Hbad. cbn [fst snd] in Hlen, Hbad.
      rewrite Hbad. cbn [fst snd Native.trace Native.log].
      unit_answers env. rewrite <- !app_assoc. cbn [app]. auto.
  - unfold Gpu.DrainTo. rewrite He, Hss. run_monad.
    destruct (Native.answer env (option Z) (Native.trace w)
                (Native.mmap size Native.PROT_READ (Gpu.fd_ b)))
      as [data|] eqn:Hm; [|reflexivity].
    cbv beta iota zeta.
    cbn [fst snd Native.trace Native.log Native.fout].
    rewrite same_stream_refl.
    set (bytes := map _ (seq 0 (Z.to_nat size))).
    assert (Hlen : Z.of_nat (List.length bytes) = size).
    { unfold bytes. rewrite length_map, length_seq. lia. }
    name_answers env.
    destruct (Vocabulary.takes (Native.fout w id) size) eqn:Ht.
    + destruct (write_taken _ _ bytes Hsize Hlen Ht) as (Hwr & Hgood).
      rewrite Hgood. cbn [fst snd Native.trace Native.log Native.fout].
      rewrite same_stream_refl.
      unit_answers env. rewrite <- !app_assoc. cbn [app]. auto.
    + destruct (write_short _ _ bytes Hsize Hlen Ht) as (Hbad & kept & Hk & Hkl).
      rewrite Hbad. cbn [fst snd Native.trace Native.log Native.fout].
      rewrite same_stream_refl.
      unit_answers env. rewrite <- !app_assoc. cbn [app].
      split; [reflexivity|]. split; [assumption|].
      split; [reflexivity|]. now exists kept.
Qed.

Lemma FillFrom_DrainTo_scoped_mapping_witness :
  fst (Gpu.FillFrom Demo.buffer None Demo.env Demo.start) = Native.Ok tt
  /\ fst (Gpu.DrainTo Demo.buffer None Demo.env Demo.start) = Native.Ok tt.
Proof.
  assert (Hw : 0 <= Gpu.width_ Demo.buffer) by (cbn; lia).
  assert (Hh : 0 <= Gpu.height_ Demo.buffer) by (cbn; lia).
  assert (Hs : Gpu.width_ Demo.buffer * Gpu.height_ Demo.buffer * 4 < 2 ^ 63)
    by reflexivity.
  destruct (FillFrom_DrainTo_scoped_mapping
              Demo.buffer None Demo.env Demo.start Hw Hh Hs) as [Hfill Hdrain].
  cbn in Hfill, Hdrain.
  split; [apply Hfill | apply Hdrain].
Defined.

(** ** The compute dispatch *)

Section ComputeFacts.

Lemma int_small (z : Z) : 0 <= z < 2 ^ 31 -> int z = z.
Proof.
  unfold int. change (2 ^ 31) with 2147483648. change (2 ^ 32) with 4294967296.
  intros H. rewrite Z.mod_small by lia. lia.
Qed.

Lemma uint_small (z : Z) : 0 <= z < 2 ^ 32 -> uint z = z.
Proof. unfold uint. intros H. now apply Z.mod_small. Qed.

Lemma footprint_block (gx gy : Z) :
  0 <= gx -> 4 * gx + 3 < 2 ^ 31 -> 0 <= gy -> 2 * gy + 1 < 2 ^ 31 ->
  footprint (Vec2 gx gy)
  = [Vec2 (4 * gx) (2 * gy); Vec2 (4 * gx + 1) (2 * gy);
     Vec2 (4 * gx + 2) (2 * gy); Vec2 (4 * gx + 3) (2 * gy);
     Vec2 (4 * gx) (2 * gy + 1); Vec2 (4 * gx + 1) (2 * gy + 1);
     Vec2 (4 * gx + 2) (2 * gy + 1); Vec2 (4 * gx + 3) (2 * gy + 1)].
Proof.
  change (2 ^ 31) with 2147483648. intros Hx Hx' Hy Hy'.
  unfold footprint, src_upper_left, ivec2_add.
  cbn [map seq src_offset nth x y].
  rewrite (uint_small (gx * 4)), (uint_small (gy * 2))
    by (change (2 ^ 32) with 4294967296; lia).
  rewrite (int_small (gx * 4)), (int_small (gy * 2))
    by (change (2 ^ 31) with 2147483648; lia).
  rewrite !int_small by (change (2 ^ 31) with 2147483648; lia).
  repeat (apply f_equal2; [apply f_equal2; lia|]). reflexivity.
Qed.

(** What an invocation stores is a function of the texels of its
    footprint alone. *)
Lemma compute_main_reads_footprint
      (F : Type) (fadd fsub fmul fdiv : F -> F -> F) (lit : Q -> F)
      (img img' : ivec2 -> vec4 F) (size : ivec2) (gid : vec2 Z) :
  (forall p, In p (footprint gid) -> img p = img' p) ->
  compute_main F fadd fsub fmul fdiv lit img size gid
  = compute_main F fadd fsub fmul fdiv lit img' size gid.
Proof.
  intros H.
  assert (Hrgb : forall i, (i < 8)%nat -> rgb F img gid i = rgb F img' gid i).
  { intros i Hi. unfold rgb. apply H. unfold footprint.
    apply (in_map (fun i => ivec2_add (src_upper_left gid) (src_offset i))).
    apply in_seq. lia. }
  unfold compute_main, yuv.
  rewrite (Hrgb 0%nat), (Hrgb 1%nat), (Hrgb 2%nat), (Hrgb 3%nat),
    (Hrgb 4%nat), (Hrgb 5%nat), (Hrgb 6%nat), (Hrgb 7%nat) by lia.
  reflexivity.
Qed.

(** What an invocation stores, texel by texel of its block: the luma of
    the upper row, the luma of the lower row, and the chroma of the left
    and of the right 2x2 square, each averaged over its four texels. *)
Lemma compute_main_stores_block
      (F : Type) (fadd fsub fmul fdiv : F -> F -> F) (lit : Q -> F)
      (img : ivec2 -> vec4 F) (size : ivec2) (gx gy : Z) :
  0 <= gx -> 4 * gx + 3 < 2 ^ 31 -> 0 <= gy -> 2 * gy + 1 < 2 ^ 31 ->
  let yuv i j :=
    rgb2yuv F fadd fsub fmul fdiv lit (img (Vec2 (4 * gx + i) (2 * gy + j))) in
  map snd (compute_main F fadd fsub fmul fdiv lit img size (Vec2 gx gy))
  = [Vec4 (r3 (yuv 0 0)) (r3 (yuv 1 0)) (r3 (yuv 2 0)) (r3 (yuv 3 0));
     Vec4 (r3 (yuv 0 1)) (r3 (yuv 1 1)) (r3 (yuv 2 1)) (r3 (yuv 3 1));
     vec4_of F
       (vec2_div F fdiv
          (sum4 F fadd (gb (yuv 0 0)) (gb (yuv 1 0)) (gb (yuv 0 1)) (gb (yuv 1 1)))
          (lit 4%Q))
       (vec2_div F fdiv
          (sum4 F fadd (gb (yuv 2 0)) (gb (yuv 3 0)) (gb (yuv 2 1)) (gb (yuv 3 1)))
          (lit 4%Q))].
Proof.
  intros Hx Hx' Hy Hy' yuv0.
  pose proof (footprint_block gx gy Hx Hx' Hy Hy') as Hfp.
  unfold footprint in Hfp. cbn [map seq] in Hfp.
  assert (Hat : forall i,
             ivec2_add (src_upper_left (Vec2 gx gy)) (src_offset i)
             = nth i [Vec2 (4 * gx) (2 * gy); Vec2 (4 * gx + 1) (2 * gy);
                      Vec2 (4 * gx + 2) (2 * gy); Vec2 (4 * gx + 3) (2 * gy);
                      Vec2 (4 * gx) (2 * gy + 1); Vec2 (4 * gx + 1) (2 * gy + 1);
                      Vec2 (4 * gx + 2) (2 * gy + 1);
                      Vec2 (4 * gx + 3) (2 * gy + 1)]
                   (ivec2_add (src_upper_left (Vec2 gx gy)) (Vec2 0 0))).
  { intros i. rewrite <- Hfp.
    do 8 (destruct i as [|i]; [reflexivity|]).
    unfold src_offset. cbn [nth]. now destruct i. }
  unfold compute_main, yuv, rgb. cbn [map snd].
  rewrite !Hat. cbn [nth].
  subst yuv0. cbv beta. rewrite !Z.add_0_r. reflexivity.
Qed.

End ComputeFacts.

(** C5.  For a width that is a positive [int] multiple of 8 and a height
    that is a positive [int] multiple of 4, [Convert] of the compute
    variant issues one dispatch, of [(width / 8, height / 4, 1)] work
    groups.  Every invocation of that grid loads the 4x2 block of texels
    whose upper left corner is [(4 x, 2 y)], all of them inside the source
    image.  What it stores is made of each of these eight texels: the
    luma of the four texels of the upper row, the luma of the four texels
    of the lower row, and the chroma of the left and of the right 2x2
    square of the block, each averaged over its four texels; it depends
    on no other texel.  Every texel of the image lies in the block of an
    invocation of the grid. *)
Theorem compute_dispatch_covers_4x2_blocks
        (self : ES31.FramesconvES31) (texture_rgbx width height texture_nv12 : Z)
        (env : Native.Env) (w : Native.world) :
  0 < width <= Int.INT_MAX -> width mod 8 = 0 ->
  0 < height <= Int.INT_MAX -> height mod 4 = 0 ->
  (exists error,
     Native.trace (snd (ES31.Convert self texture_rgbx width height texture_nv12
                                     env w))
     = (Native.trace w
        ++ [Native.Ev (Native.glUseProgram (ES31.program_ self)) tt;
            Native.Ev (Native.glBindImageTexture 0 texture_rgbx false) tt;
            Native.Ev (Native.glBindImageTexture 1 texture_nv12 true) tt;
            Native.Ev (Native.glDispatchCompute (width / 8) (height / 4) 1) tt;
            Native.Ev Native.glMemoryBarrier tt;
            Native.Ev Native.glGetError error])%list)
  /\ (forall gx gy,
        0 <= gx < width / 8 * local_size_x ->
        0 <= gy < height / 4 * local_size_y ->
        footprint (Vec2 gx gy)
        = [Vec2 (4 * gx) (2 * gy); Vec2 (4 * gx + 1) (2 * gy);
           Vec2 (4 * gx + 2) (2 * gy); Vec2 (4 * gx + 3) (2 * gy);
           Vec2 (4 * gx) (2 * gy + 1); Vec2 (4 * gx + 1) (2 * gy + 1);
           Vec2 (4 * gx + 2) (2 * gy + 1); Vec2 (4 * gx + 3) (2 * gy + 1)]
        /\ (forall p, In p (footprint (Vec2 gx gy)) ->
                      0 <= x p < width /\ 0 <= y p < height)
        /\ (forall F fadd fsub fmul fdiv lit img img' size,
              (forall p, In p (footprint (Vec2 gx gy)) -> img p = img' p) ->
              compute_main F fadd fsub fmul fdiv lit img size (Vec2 gx gy)
              = compute_main F fadd fsub fmul fdiv lit img' size (Vec2 gx gy))
        /\ (forall F fadd fsub fmul fdiv lit img size,
              let yuv i j :=
                rgb2yuv F fadd fsub fmul fdiv lit
                        (img (Vec2 (4 * gx + i) (2 * gy + j))) in
              map snd (compute_main F fadd fsub fmul fdiv lit img size
                                    (Vec2 gx gy))
              = [Vec4 (r3 (yuv 0 0)) (r3 (yuv 1 0)) (r3 (yuv 2 0)) (r3 (yuv 3 0));
                 Vec4 (r3 (yuv 0 1)) (r3 (yuv 1 1)) (r3 (yuv 2 1)) (r3 (yuv 3 1));
                 vec4_of F
                   (vec2_div F fdiv
                      (sum4 F fadd (gb (yuv 0 0)) (gb (yuv 1 0))
                            (gb (yuv 0 1)) (gb (yuv 1 1)))
                      (lit 4%Q))
                   (vec2_div F fdiv
                      (sum4 F fadd (gb (yuv 2 0)) (gb (yuv 3 0))
                            (gb (yuv 2 1)) (gb (yuv 3 1)))
                      (lit 4%Q))]))
  /\ (forall px py,
        0 <= px < width -> 0 <= py < height ->
        0 <= px / 4 < width / 8 * local_size_x
        /\ 0 <= py / 2 < height / 4 * local_size_y
        /\ In (Vec2 px py) (footprint (Vec2 (px / 4) (py / 2)))).
Proof.
  unfold Int.INT_MAX, local_size_x, local_size_y.
  intros Hw Hw8 Hh Hh4.
  assert (Hblock : forall gx gy,
             0 <= gx < width / 8 * 2 -> 0 <= gy < height / 4 * 2 ->
             footprint (Vec2 gx gy)
             = [Vec2 (4 * gx) (2 * gy); Vec2 (4 * gx + 1) (2 * gy);
                Vec2 (4 * gx + 2) (2 * gy); Vec2 (4 * gx + 3) (2 * gy);
                Vec2 (4 * gx) (2 * gy + 1); Vec2 (4 * gx + 1) (2 * gy + 1);
                Vec2 (4 * gx + 2) (2 * gy + 1); Vec2 (4 * gx + 3) (2 * gy + 1)]).
  { intros gx gy Hx Hy.
    apply footprint_block; change (2 ^ 31) with 2147483648; lia. }
  split; [|split].
  - unfold ES31.Convert. run_monad. unfold Int.uint32_t.
    rewrite (Z.mod_small (width / 8)), (Z.mod_small (height / 4))
      by (change (2 ^ 32) with 4294967296; lia).
    name_answers env. exists ans4.
    destruct (negb (ans4 =? Gpu.GL_NO_ERROR));
      cbn [fst snd Native.trace Native.log];
      unit_answers env; rewrite <- !app_assoc; reflexivity.
  - intros gx gy Hx Hy. split; [now apply Hblock|]. split.
    + intros p Hp. rewrite (Hblock gx gy Hx Hy) in Hp. cbn [In] in Hp.
      repeat (destruct Hp as [<-|Hp]; [cbn [x y]; lia|]). contradiction.
    + split; [intros; now apply compute_main_reads_footprint|].
      intros F fadd fsub fmul fdiv lit img size.
      apply compute_main_stores_block; change (2 ^ 31) with 2147483648; lia.
  - intros px py Hx Hy.
    assert (Hgx : 0 <= px / 4 < width / 8 * 2) by lia.
    assert (Hgy : 0 <= py / 2 < height / 4 * 2) by lia.
    split; [exact Hgx|]. split; [exact Hgy|].
    rewrite (Hblock _ _ Hgx Hgy). cbn [In].
    assert (Hpx : px = 4 * (px / 4) \/ px = 4 * (px / 4) + 1
                  \/ px = 4 * (px / 4) + 2 \/ px = 4 * (px / 4) + 3) by lia.
    assert (Hpy : py = 2 * (py / 2) \/ py = 2 * (py / 2) + 1) by lia.
    clear Hgx Hgy Hx Hy.
    generalize dependent (py / 2). generalize dependent (px / 4).
    intros gx Hpx gy Hpy.
    destruct Hpy as [ -> | -> ]; destruct Hpx as [ -> | [ -> | [ -> | -> ]]];
      tauto.
Qed.

Lemma compute_dispatch_covers_4x2_blocks_witness :
  footprint (Vec2 1 1)
  = [Vec2 4 2; Vec2 5 2; Vec2 6 2; Vec2 7 2;
     Vec2 4 3; Vec2 5 3; Vec2 6 3; Vec2 7 3]
  /\ In (Vec2 7 3) (footprint (Vec2 (7 / 4) (3 / 2))).
Proof.
  assert (Hw : 0 < 8 <= Int.INT_MAX) by (unfold Int.INT_MAX; lia).
  assert (Hh : 0 < 4 <= Int.INT_MAX) by (unfold Int.INT_MAX; lia).
  destruct (compute_dispatch_covers_4x2_blocks
              {| ES31.program_ := 2 |} 1 8 4 2 Demo.env Demo.start
              Hw eq_refl Hh eq_refl) as (_ & Hblock & Hcover).
  split.
  - apply (Hblock 1 1); cbn; lia.
  - apply (Hcover 7 3); lia.
Defined.

(** ** Validation of the sizes *)

Section ValidationFacts.
Import Cmdline Vocabulary.

Lemma land_7 (v : Z) : Z.land v 7 = v mod 8.
Proof. change 7 with (Z.ones 3). now rewrite Z.land_ones. Qed.

Lemma land_3 (v : Z) : Z.land v 3 = v mod 4.
Proof. change 3 with (Z.ones 2). now rewrite Z.land_ones. Qed.


Lemma check_size_accepts (inp : option string) (mask v : Z) :
  check_size inp mask = Parsed v ->
  exists s, inp = Some s /\ 0 < atoi s /\ Z.land (atoi s) mask = 0
            /\ v = Int.size_t (atoi s).
Proof.
  unfold check_size. destruct inp as [s|]; [|discriminate].
  destruct (Z.leb_spec (atoi s) 0); [discriminate|].
  destruct (Z.eqb_spec (Z.land (atoi s) mask) 0); cbn; [|discriminate].
  intros [= <-]. eauto.
Qed.

(** Whatever [handle] rejects, it rejects as an invalid argument, and it
    is never undefined on an argument that is there. *)
Lemma handle_outcomes (it arg : string) (result : Options) :
  (exists r, handle it (Some arg) result = Parsed r)
  \/ (exists msg, handle it (Some arg) result = Rejected (invalid_argument msg)).
Proof.
  unfold handle, check_size, check_fname, check_implementation.
  repeat match goal with
         | |- context [if ?c then _ else _] => destruct c; cbn [and_then]
         end; eauto.
Qed.




End ValidationFacts.



(** ** The colour transform *)

Section TransformFacts.

Variable F : Type.
Variables fadd fsub fmul fdiv : F -> F -> F.
Variable lit : Q -> F.
Hypothesis fmul_comm : forall p q : F, fmul p q = fmul q p.

Lemma luma_of_texel (r g b : F) :
  fadd (fadd (fmul r (lit 0.2126)) (fmul g (lit 0.7152))) (fmul b (lit 0.0722))
  = bt709_y F fadd fmul lit r g b.
Proof.
  unfold bt709_y.
  now rewrite (fmul_comm r), (fmul_comm g), (fmul_comm b).
Qed.

End TransformFacts.

(** C3.  In any arithmetic whose multiplication commutes, both kernels
    compute, for a source pixel [(r, g, b)], the luma
    [0.2126 r + 0.7152 g + 0.0722 b] and the chroma
    [(b - y) / (2 (1 - 0.0722)) + 0.5], [(r - y) / (2 (1 - 0.2126)) + 0.5]:
    the compute kernel from the texel it loads, the raster kernel from
    the texel it fetches, in which R and B arrive exchanged. *)
Theorem both_kernels_compute_bt709
        (F : Type) (fadd fsub fmul fdiv : F -> F -> F) (lit : Q -> F) :
  (forall p q : F, fmul p q = fmul q p) ->
  forall p : pixel F,
    rgb2yuv F fadd fsub fmul fdiv lit (imageLoad_texel p)
    = Vec3 (bt709_y F fadd fmul lit (red p) (green p) (blue p))
           (bt709_u F fadd fsub fmul fdiv lit (red p) (green p) (blue p))
           (bt709_v F fadd fsub fmul fdiv lit (red p) (green p) (blue p))
    /\ rgb2luma F fadd fmul lit (texture2D_texel p)
       = bt709_y F fadd fmul lit (red p) (green p) (blue p)
    /\ rgb2chroma F fadd fsub fmul fdiv lit (texture2D_texel p)
       = Vec2 (bt709_u F fadd fsub fmul fdiv lit (red p) (green p) (blue p))
              (bt709_v F fadd fsub fmul fdiv lit (red p) (green p) (blue p)).
Proof.
  intros Hcomm p.
  unfold rgb2yuv, rgb2luma, rgb2chroma, bt709_u, bt709_v,
    imageLoad_texel, texture2D_texel.
  cbn [r g b a].
  rewrite !(luma_of_texel F fadd fmul lit Hcomm).
  repeat split.
Qed.

Lemma Qmult_comm_eq (p q : Q) : Qmult p q = Qmult q p.
Proof. unfold Qmult. now rewrite Z.mul_comm, Pos.mul_comm. Qed.

Lemma both_kernels_compute_bt709_witness :
  Exact.rgb2luma (texture2D_texel Exact.red_pixel)
  = bt709_y Q Qplus Qmult (fun q => q) 1%Q 0%Q 0%Q
  /\ Qeq (Exact.rgb2luma (texture2D_texel Exact.red_pixel)) 0.2126
  /\ Qeq (r3 (Exact.rgb2yuv (imageLoad_texel Exact.red_pixel))) 0.2126.
Proof.
  destruct (both_kernels_compute_bt709 Q Qplus Qminus Qmult Qdiv (fun q => q)
              Qmult_comm_eq Exact.red_pixel) as (Hyuv & Hluma & Hchroma).
  split; [exact Hluma|]. split; reflexivity.
Defined.

(** Pure red has luma 0.2126, a [u] below one half and [v] at 1: the
    scenario of the all-red frame. *)
Example red_pixel_yuv :
  let yuv := Exact.rgb2yuv (imageLoad_texel Exact.red_pixel) in
  Qeq (r3 yuv) 0.2126 /\ Qlt (g3 yuv) 0.5 /\ Qeq (b3 yuv) 1
  /\ Qeq (y (Exact.rgb2chroma (texture2D_texel Exact.red_pixel))) 1.
Proof. vm_compute. repeat split; intros; discriminate. Qed.

(** ** The two converters on the same frame *)

Section PipelineFacts.
Import Pipeline.
Local Open Scope Q_scope.

(** At the four vertices the varying is the window position divided by
    the viewport. *)
Lemma varying_is_window_position (viewport : ivec2) (v : vec2 Q) :
  In v kVertices ->
  x (window viewport (snd (vertex_main v)))
  == x (fst (vertex_main v)) * inject_Z (x viewport)
  /\ y (window viewport (snd (vertex_main v)))
     == y (fst (vertex_main v)) * inject_Z (y viewport).
Proof.
  unfold kVertices. cbn [In].
  intros [<-|[<-|[<-|[<-|[]]]]];
    unfold window, vertex_main, mat4_mul; cbn [fst snd x y r g b a];
    split; field.
Qed.

Lemma Qfloor_half (n : Z) : Qfloor (inject_Z n + (1 # 2)) = n.
Proof.
  unfold Qfloor, Qplus, inject_Z. cbn [Qnum Qden].
  change (Z.pos (1 * 2)) with 2%Z. lia.
Qed.

Lemma nearest_at (size : ivec2) (coord : vec2 Q) (n m : Z) :
  x coord * inject_Z (x size) == inject_Z n ->
  y coord * inject_Z (y size) == inject_Z m + (1 # 2) ->
  nearest size coord
  = Vec2 (clamp_to_edge (x size) n) (clamp_to_edge (y size) m).
Proof.
  intros Hx Hy. unfold nearest.
  now rewrite Hx, Hy, Qfloor_Z, Qfloor_half.
Qed.

Lemma GLsizei_small (z : Z) : (0 <= z <= Int.INT_MAX)%Z -> Int.GLsizei z = z.
Proof.
  unfold Int.GLsizei, Int.INT_MAX.
  change (2 ^ 31)%Z with 2147483648%Z. change (2 ^ 32)%Z with 4294967296%Z.
  intros H. rewrite Z.mod_small by lia. lia.
Qed.

(** The luma pass reads two texels to the right of the block it stores
    for: the fragment of pixel [(i, j)] is shaded at the centre of the
    pixel, so its four samples are the texels [4 i + 2 .. 4 i + 5] of row
    [j], the last ones clamped to the edge of the frame. *)
Lemma raster_luma_reads_from_centre
      (frame : ivec2 -> pixel Q) (width height i j : Z) :
  (0 < width <= Int.INT_MAX)%Z -> (0 < height)%Z -> (height mod 2 = 0)%Z ->
  (height * 3 / 2 <= Int.INT_MAX)%Z -> (0 <= i)%Z -> (0 <= j < height)%Z ->
  let sample k :=
    Exact.rgb2luma
      (texture2D_texel (frame (Vec2 (Z.min (width - 1) (4 * i + 2 + k)) j))) in
  Exact.raster_main
    (fun coord => texture2D_texel (frame (nearest (Vec2 width height) coord)))
    (Vec2 (inject_Z width) (inject_Z height))
    (fragment_varying
       (Vec2 (Int.GLsizei width) (Int.GLsizei (Int.size_t (height * 3) / 2)%Z))
       i j)
  = bgra (Vec4 (sample 0%Z) (sample 1%Z) (sample 2%Z) (sample 3%Z)).
Proof.
  intros Hw Hh Heven Hmax Hi Hj sample.
  assert (Hst : Int.size_t (height * 3) = (height * 3)%Z).
  { unfold Int.size_t, Int.size_max. apply Z.mod_small.
    unfold Int.INT_MAX in Hmax. lia. }
  rewrite Hst, (GLsizei_small width), (GLsizei_small (height * 3 / 2)) by lia.
  unfold Exact.raster_main, raster_main, fragment_varying. cbn [x y].
  remember (inject_Z width) as wq eqn:Ewq.
  remember (inject_Z height) as hq eqn:Ehq.
  remember (inject_Z (height * 3 / 2)) as vq eqn:Evq.
  remember (inject_Z i) as iq eqn:Eiq.
  remember (inject_Z j) as jq eqn:Ejq.
  assert (Hwq : 0 < wq).
  { subst wq. change 0 with (inject_Z 0). rewrite <- Zlt_Qlt. lia. }
  assert (Hv : vq * 2 == hq * 3).
  { subst vq hq. change 2 with (inject_Z 2). change 3 with (inject_Z 3).
    rewrite <- !inject_Z_mult. apply inject_Z_injective. lia. }
  assert (Hjh : jq + 1 <= hq).
  { subst jq hq. change 1 with (inject_Z 1). rewrite <- inject_Z_plus.
    rewrite <- Zle_Qle. lia. }
  assert (Hhq : 0 < hq).
  { subst hq. change 0 with (inject_Z 0). rewrite <- Zlt_Qlt. lia. }
  assert (Hvq : ~ vq == 0) by (intros H; rewrite H in Hv; lra).
  assert (Hhq' : ~ hq == 0) by (intros H; rewrite H in Hhq; lra).
  assert (Hwq' : ~ wq == 0) by (intros H; rewrite H in Hwq; lra).
  assert (Hluma : Exact.Qlt_bool ((jq + (1 # 2)) / vq) (2 / 3) = true).
  { unfold Exact.Qlt_bool.
    destruct (Qle_bool (2 / 3) ((jq + (1 # 2)) / vq)) eqn:E; [|reflexivity].
    exfalso. apply Qle_bool_iff in E. change (2 / 3) with (2 # 3) in E.
    assert (Ht : (jq + (1 # 2)) / vq * vq == jq + (1 # 2)) by (now field).
    assert (Hpos : 0 < vq) by lra.
    apply (Qmult_le_r _ _ vq Hpos) in E. rewrite Ht in E. lra. }
  rewrite Hluma.
  assert (Hat : forall k off,
             (0 <= k)%Z -> off * wq == inject_Z k ->
             nearest (Vec2 width height)
                     (Vec2 ((iq + (1 # 2)) / wq * 4 + off)
                           ((jq + (1 # 2)) / vq / 2 * 3 + 0))
             = Vec2 (Z.min (width - 1) (4 * i + 2 + k)) j).
  { intros k off Hk Hoff.
    rewrite (nearest_at _ _ (4 * i + 2 + k) j); cbn [x y].
    - unfold clamp_to_edge. f_equal; lia.
    - rewrite <- Ewq, !inject_Z_plus, !inject_Z_mult, <- Eiq, <- Hoff.
      change (inject_Z 4) with 4. change (inject_Z 2) with 2. now field.
    - rewrite <- Ehq, <- Ejq.
      assert (Hvh : vq == hq * 3 * (1 # 2)) by lra.
      rewrite Hvh. now field. }
  unfold handle_luma, luma, luma_upper_left, luma_offset, pix_width, vec2_add.
  cbn [x y nth].
  rewrite (Hat 0%Z 0), (Hat 1%Z (1 / wq)), (Hat 2%Z (1 / wq * 2)),
    (Hat 3%Z (1 / wq * 3));
    try lia; try (now field).
  reflexivity.
Qed.

End PipelineFacts.

(** C2.  The two converters do not agree within one unit.  On a frame of
    8 by 4 pixels whose column [x] is the grey [32 x], the compute
    converter stores the bytes 0, 32, 64, 96 in the first texel of the
    destination, the luma of the pixels 0 to 3 of the first row; the
    raster converter leaves 64, 96, 128, 160 there, the luma of the pixels
    2 to 5: its fragment is shaded at the centre of the destination
    pixel, two source pixels to the right of the corner its kernel takes
    the varying for.  The byte 160 is 64 units away from the nearest byte
    of the compute converter's texel, whatever the order of the bytes.
    The chroma differs too: on a frame whose row [y] is the blue [60 y],
    the first chroma texel holds 143, 126, 143, 126 after the compute
    converter, which averages the rows 0 and 1, and 173, 123, 173, 123
    after the raster converter, which averages the rows 1 and 2. *)
Theorem converters_differ_on_a_ramp :
  Pipeline.raster_texel Pipeline.ramp 8 4 0 0 = [64; 96; 128; 160]
  /\ In (Vec2 0 0, [0; 32; 64; 96])
        (Pipeline.compute_texels Pipeline.ramp 8 4 0 0)
  /\ (forall byte, In byte [0; 32; 64; 96] -> 64 <= Z.abs (160 - byte))
  /\ Pipeline.raster_texel Pipeline.blue_rows 8 4 0 4 = [173; 123; 173; 123]
  /\ In (Vec2 0 4, [143; 126; 143; 126])
        (Pipeline.compute_texels Pipeline.blue_rows 8 4 0 0).
Proof.
  split; [vm_compute; reflexivity|].
  split; [vm_compute; left; reflexivity|].
  split.
  { intros byte Hin. cbn [In] in Hin.
    repeat (destruct Hin as [<-|Hin]; [vm_compute; discriminate|]).
    contradiction. }
  split; [vm_compute; reflexivity|].
  vm_compute. right. right. left. reflexivity.
Qed.

(** ** The channel order of the raster kernel *)

(** In the upper two thirds of the output the raster kernel stores luma. *)
Example raster_main_luma_pass :
  Exact.raster_main Exact.ramp Exact.size_4x2 Exact.origin
  = Exact.handle_luma Exact.ramp Exact.size_4x2 Exact.origin.
Proof. reflexivity. Qed.

(** C8, as amended.  The luma store of the raster kernel goes through the
    swizzle [.bgra]: output channels r, g, b, a hold the logical samples
    2, 1, 0, 3.  The first and the third sample are exchanged, the second
    and the last stay in place; the earlier luma-only kernel stores in
    the same order. *)
Theorem luma_store_is_bgra_swizzle
        (F : Type) (fadd fmul fdiv fsub : F -> F -> F) (lit : Q -> F)
        (texture2D : vec2 F -> vec4 F) (img_input_size dst_upper_left : vec2 F) :
  let out := handle_luma F fadd fmul fdiv lit texture2D img_input_size
                         dst_upper_left in
  let sample := luma F fadd fmul fdiv lit texture2D img_input_size
                     dst_upper_left in
  channel out 0 = sample 2%nat /\ channel out 1 = sample 1%nat
  /\ channel out 2 = sample 0%nat /\ channel out 3 = sample 3%nat
  /\ (let out' := luma_only_main F fadd fsub fmul fdiv lit texture2D
                                 img_input_size dst_upper_left in
      let sample' := luma_only_sample F fadd fsub fmul fdiv lit texture2D
                                      img_input_size dst_upper_left in
      channel out' 0 = sample' 2%nat /\ channel out' 1 = sample' 1%nat
      /\ channel out' 2 = sample' 0%nat /\ channel out' 3 = sample' 3%nat).
Proof. cbv zeta. repeat split. Qed.

(** C8, as stated, fails: on a grey ramp the four samples of the first
    store are 0, 1/4, 1/2, 3/4, and the last output channel holds 3/4,
    the last sample, not the first. *)
Lemma luma_store_not_reversed :
  ~ (forall i, (i < 4)%nat ->
       Qeq (channel (Exact.handle_luma Exact.ramp Exact.size_4x2 Exact.origin) i)
           (Exact.luma Exact.ramp Exact.size_4x2 Exact.origin (3 - i))).
Proof.
  intros H. specialize (H 3%nat (Nat.lt_succ_diag_r 3)).
  vm_compute in H. discriminate H.
Qed.

(** ** The whole run *)

Section TameFacts.
Import Native Vocabulary.

Lemma tame_ret {A} (v : A) : tame (ret v).
Proof. intros env w. split; [reflexivity|]. exists []. cbn. now rewrite app_nil_r. Qed.

Lemma tame_throw {A} (e : exn) : tame (@throw A e).
Proof. intros env w. split; [reflexivity|]. exists []. cbn. now rewrite app_nil_r. Qed.

Lemma tame_native {R} (c : call R) : tame (native c).
Proof. intros env w. split; [reflexivity|]. eexists. reflexivity. Qed.

Lemma tame_peek (addr n : Z) : tame (peek addr n).
Proof. intros env w. split; [reflexivity|]. exists []. cbn. now rewrite app_nil_r. Qed.

Lemma tame_read_stream (id : option string) (n : Z) : tame (read_stream id n).
Proof.
  intros env w. unfold read_stream.
  destruct (istream_read (fin w id) n) as [data s'].
  split; [reflexivity|]. exists []. cbn. now rewrite app_nil_r.
Qed.

Lemma tame_istream_failed (id : option string) : tame (istream_failed id).
Proof. intros env w. split; [reflexivity|]. exists []. cbn. now rewrite app_nil_r. Qed.

Lemma tame_get_resolved : tame get_resolved.
Proof. intros env w. split; [reflexivity|]. exists []. cbn. now rewrite app_nil_r. Qed.

Lemma tame_set_resolved : tame set_resolved.
Proof. intros env w. split; [reflexivity|]. exists []. cbn. now rewrite app_nil_r. Qed.

Lemma tame_bind {A B} (m : M A) (k : A -> M B) :
  tame m -> (forall v, tame (k v)) -> tame (bind m k).
Proof.
  intros Hm Hk env w. rewrite run_bind.
  destruct (Hm env w) as (Hf & tr & Ht).
  destruct (m env w) as [[v|e|] w1]; cbn [snd] in *.
  - destruct (Hk v env w1) as (Hf' & tr' & Ht').
    split; [congruence|]. exists (tr ++ tr')%list.
    rewrite Ht', Ht. now rewrite app_assoc.
  - split; [assumption|]. now exists tr.
  - split; [assumption|]. now exists tr.
Qed.

Lemma tame_Defer {A} (impl : M unit) (scope : M A) :
  tame impl -> tame scope -> tame (Defer impl scope).
Proof.
  intros Hi Hs env w. unfold Defer.
  destruct (Hs env w) as (Hf & tr & Ht).
  destruct (scope env w) as [[v|e|] w1]; cbn [snd] in *.
  - destruct (Hi env w1) as (Hf' & tr' & Ht').
    destruct (impl env w1) as [[u|e|] w2]; cbn [snd] in *;
      (split; [congruence|]); exists (tr ++ tr')%list;
      rewrite Ht', Ht; now rewrite app_assoc.
  - destruct (Hi env w1) as (Hf' & tr' & Ht').
    destruct (impl env w1) as [[u|e'|] w2]; cbn [snd] in *;
      (split; [congruence|]); exists (tr ++ tr')%list;
      rewrite Ht', Ht; now rewrite app_assoc.
  - split; [assumption|]. now exists tr.
Qed.

Lemma tame_Defer_ref {A S} (local : S) (impl : S -> M unit) (scope : M (A * S)) :
  (forall s, tame (impl s)) -> tame scope -> tame (Defer_ref local impl scope).
Proof.
  intros Hi Hs env w. unfold Defer_ref.
  destruct (Hs env w) as (Hf & tr & Ht).
  destruct (scope env w) as [[[v s]|e|] w1]; cbn [snd] in *.
  - destruct (Hi s env w1) as (Hf' & tr' & Ht').
    destruct (impl s env w1) as [[u|e|] w2]; cbn [snd] in *;
      (split; [congruence|]); exists (tr ++ tr')%list;
      rewrite Ht', Ht; now rewrite app_assoc.
  - destruct (Hi local env w1) as (Hf' & tr' & Ht').
    destruct (impl local env w1) as [[u|e'|] w2]; cbn [snd] in *;
      (split; [congruence|]); exists (tr ++ tr')%list;
      rewrite Ht', Ht; now rewrite app_assoc.
  - split; [assumption|]. now exists tr.
Qed.

Lemma tame_when (c : bool) (m : M unit) : tame m -> tame (when c m).
Proof. intros H. destruct c; [exact H|apply tame_ret]. Qed.

End TameFacts.

(** Proves a computation tame from the way it is built. *)
Ltac tame_step :=
  lazymatch goal with
  | |- Vocabulary.tame (Native.ret _) => apply tame_ret
  | |- Vocabulary.tame (Native.throw _) => apply tame_throw
  | |- Vocabulary.tame (Native.native _) => apply tame_native
  | |- Vocabulary.tame (Native.peek _ _) => apply tame_peek
  | |- Vocabulary.tame (Native.read_stream _ _) => apply tame_read_stream
  | |- Vocabulary.tame (Native.istream_failed _) => apply tame_istream_failed
  | |- Vocabulary.tame Native.get_resolved => apply tame_get_resolved
  | |- Vocabulary.tame Native.set_resolved => apply tame_set_resolved
  | |- Vocabulary.tame (Native.bind _ _) => apply tame_bind; [|intros ?]
  | |- Vocabulary.tame (Native.Defer _ _) => apply tame_Defer
  | |- Vocabulary.tame (Native.Defer_ref _ _ _) =>
      apply tame_Defer_ref; [intros ?|]
  | |- Vocabulary.tame (Native.when _ _) => apply tame_when
  | |- Vocabulary.tame (if ?c then _ else _) => destruct c
  | |- Vocabulary.tame (match ?v with _ => _ end) => destruct v
  | |- Vocabulary.tame (let _ := _ in _) => cbv zeta
  end.

Ltac tame_unfold :=
  progress
    unfold Gpu.GbmDevice_new, Gpu.GbmDevice_delete, Gpu.CreateGbmBuffer,
      Gpu.GbmBuffer_new, Gpu.GbmBuffer_delete, Gpu.FillFrom, Gpu.CreateEglImage,
      Gpu.EglContext_new, Gpu.EglContext_delete, Gpu.MakeCurrent,
      Gpu.ResetCurrent, Gpu.Sync, Gpu.CreateGlTexture, Gpu.CreateGlProgram,
      Gpu.CheckBuildable, Gpu.VerifyExtension, Gpu.throwEgl, Gpu.throwGl,
      ES31.FramesconvES31_new, ES31.FramesconvES31_delete, ES31.Convert,
      ES20.FramesconvES20_new, ES20.FramesconvES20_delete, ES20.Convert,
      ES20.delete_unless_zero, ES20.CreateFramesconvES20,
      ES31.CreateFramesconvES31.

Ltac tame_tac := repeat first [tame_step | tame_unfold].

Section RunFacts.
Import Native Gpu Cmdline Vocabulary.

Lemma tame_GbmDevice_new p : tame (GbmDevice_new p).
Proof. tame_tac. Qed.
Lemma tame_GbmDevice_delete d : tame (GbmDevice_delete d).
Proof. tame_tac. Qed.
Lemma tame_CreateGbmBuffer d w h : tame (CreateGbmBuffer d w h).
Proof. tame_tac. Qed.
Lemma tame_GbmBuffer_delete b : tame (GbmBuffer_delete b).
Proof. tame_tac. Qed.
Lemma tame_FillFrom b id : tame (FillFrom b id).
Proof. tame_tac. Qed.
Lemma tame_CreateEglImage b d : tame (CreateEglImage b d).
Proof. tame_tac. Qed.
Lemma tame_EglContext_new major minor : tame (EglContext_new major minor).
Proof. tame_tac. Qed.
Lemma tame_EglContext_delete c : tame (EglContext_delete c).
Proof. tame_tac. Qed.
Lemma tame_MakeCurrent c : tame (MakeCurrent c).
Proof. tame_tac. Qed.
Lemma tame_ResetCurrent c : tame (ResetCurrent c).
Proof. tame_tac. Qed.
Lemma tame_Sync c : tame (Sync c).
Proof. tame_tac. Qed.
Lemma tame_CreateGlTexture image : tame (CreateGlTexture image).
Proof. tame_tac. Qed.
Lemma tame_ES31_new : tame ES31.FramesconvES31_new.
Proof. tame_tac. Qed.
Lemma tame_ES20_new : tame ES20.FramesconvES20_new.
Proof. tame_tac. Qed.
Lemma tame_ES31_Convert self t w h t' : tame (ES31.Convert self t w h t').
Proof. tame_tac. Qed.
Lemma tame_ES31_delete self : tame (ES31.FramesconvES31_delete self).
Proof. tame_tac. Qed.
Lemma tame_ES20_delete self : tame (ES20.FramesconvES20_delete self).
Proof. tame_tac. Qed.
Lemma tame_ES20_Convert self t w h t' : tame (ES20.Convert self t w h t').
Proof. tame_tac. Qed.

End RunFacts.

Section MainFacts.
Import Native Gpu Cmdline Vocabulary.

Lemma write_ok (s : ostream) (n : Z) (data : list Byte.byte) :
  out_fail (ostream_write s n data) = false ->
  written (ostream_write s n data) = (written s ++ data)%list.
Proof.
  unfold ostream_write.
  destruct (out_fail s) eqn:Hf; [congruence|].
  destruct (n <? 0); [discriminate|].
  destruct (room s) as [k|]; [|reflexivity].
  destruct (List.length data <=? k)%nat; [reflexivity|discriminate].
Qed.

Lemma DrainTo_Ok (b : GbmBuffer) (id : option string) (n : Z) env w w' :
  extent b = n -> Int.streamsize n = n -> 0 <= n ->
  DrainTo b id env w = (Ok tt, w') ->
  exists addr history bytes,
    bytes = map (mapped env history addr) (seq 0 (Z.to_nat n))
    /\ written (fout w' id) = (written (fout w id) ++ bytes)%list
    /\ (forall id', same_stream id' id = false -> fout w' id' = fout w id')
    /\ trace w'
       = (trace w ++ [Ev (mmap n PROT_READ (fd_ b)) (Some addr);
                      Ev (munmap addr n) tt])%list.
Proof.
  intros He Hss Hn. unfold DrainTo. rewrite He, Hss. run_monad.
  destruct (answer env (option Z) (trace w) (mmap n PROT_READ (fd_ b)))
    as [addr|]; [|discriminate].
  cbv beta iota zeta. cbn [trace log fout]. rewrite same_stream_refl.
  match goal with
  | |- context [map (mapped env ?h addr) _] =>
      set (bytes := map (mapped env h addr) (seq 0 (Z.to_nat n)));
      assert (Hb : exists history,
                 bytes = map (mapped env history addr) (seq 0 (Z.to_nat n)))
        by (now exists h)
  end.
  clearbody bytes. destruct Hb as [history Hb].
  destruct (out_fail (ostream_write (fout w id) n bytes)) eqn:Hf;
    cbv beta iota zeta; [discriminate|].
  intros [= <-]. exists addr, history, bytes. cbn [fout trace log].
  rewrite same_stream_refl. unit_answers env.
  split; [exact Hb|].
  split; [now apply write_ok|].
  split; [now intros id' ->|].
  now rewrite <- !app_assoc.
Qed.

Lemma GbmBuffer_new_Ok (device width height : Z) env w b w' :
  GbmBuffer_new device width height env w = (Ok b, w') ->
  width_ b = width /\ height_ b = height
  /\ trace w'
     = (trace w
        ++ [Ev (gbm_bo_create device (Int.uint32_t width) (Int.uint32_t height))
               (bo_ b);
            Ev (gbm_bo_get_fd (bo_ b)) (fd_ b);
            Ev (close (-1)) tt])%list.
Proof.
  unfold GbmBuffer_new. run_monad.
  repeat (name_answers env; branch); try discriminate.
  intros [= <- <-]. cbn [width_ height_ bo_ fd_ trace log].
  unit_answers env. rewrite <- !app_assoc. auto.
Qed.

Lemma factory_tame (es20 : bool) env w fc w' :
  (if es20 then ES20.CreateFramesconvES20 else ES31.CreateFramesconvES31) env w
  = (Ok fc, w') ->
  tame_converter fc.
Proof.
  destruct es20; intros H.
  - unfold ES20.CreateFramesconvES20 in H.
    apply bind_Ok in H as (self & w1 & _ & H). injection H as <- _.
    split; cbn [Convert Framesconv_delete]; intros;
      [apply tame_ES20_Convert|apply tame_ES20_delete].
  - unfold ES31.CreateFramesconvES31 in H.
    apply bind_Ok in H as (self & w1 & _ & H). injection H as <- _.
    split; cbn [Convert Framesconv_delete]; intros;
      [apply tame_ES31_Convert|apply tame_ES31_delete].
Qed.

Lemma tame_factory (es20 : bool) :
  tame (if es20 then ES20.CreateFramesconvES20 else ES31.CreateFramesconvES31).
Proof.
  destruct es20; [unfold ES20.CreateFramesconvES20|unfold ES31.CreateFramesconvES31];
    tame_tac.
Qed.

Lemma handle_aligned (it : string) (arg : option string) (result r : Options) :
  aligned result -> handle it arg result = Parsed r -> aligned r.
Proof.
  unfold handle, aligned. intros (Hw & Hw8 & Hh & Hh4).
  destruct (String.eqb it "-w").
  { destruct (check_size arg 7) as [v| |] eqn:Hc; cbn; try discriminate.
    intros [= <-]. cbn.
    apply check_size_accepts in Hc as (s & _ & Hpos & Hmask & ->).
    rewrite land_7 in Hmask. unfold Int.size_t, Int.size_max.
    change (2 ^ 64) with 18446744073709551616. repeat split; lia. }
  destruct (String.eqb it "-h").
  { destruct (check_size arg 3) as [v| |] eqn:Hc; cbn; try discriminate.
    intros [= <-]. cbn.
    apply check_size_accepts in Hc as (s & _ & Hpos & Hmask & ->).
    rewrite land_3 in Hmask. unfold Int.size_t, Int.size_max.
    change (2 ^ 64) with 18446744073709551616. repeat split; lia. }
  destruct (String.eqb it "-i").
  { destruct (check_fname arg); cbn; try discriminate. now intros [= <-]. }
  destruct (String.eqb it "-o").
  { destruct (check_fname arg); cbn; try discriminate. now intros [= <-]. }
  destruct (String.eqb it "-r").
  { now intros [= <-]. }
  destruct (String.eqb it "-es").
  { destruct (check_implementation arg); cbn; try discriminate.
    now intros [= <-]. }
  now intros [= <-].
Qed.

Lemma parse_loop_aligned (n : nat) :
  forall (argv : list string) (result r : Options),
    (List.length argv <= n)%nat -> aligned result ->
    parse_loop argv result = Parsed r -> aligned r.
Proof.
  induction n as [|n IH]; intros argv result r Hn Ha.
  - destruct argv; [now intros [= <-]|cbn in Hn; lia].
  - destruct argv as [|it rest]; [now intros [= <-]|].
    cbn [parse_loop]. destruct (is_flag it).
    + destruct rest as [|arg rest'].
      * now apply handle_aligned.
      * destruct (handle it (Some arg) result) as [r'| |] eqn:Hh;
          cbn [and_then]; try discriminate.
        apply IH; [cbn in Hn; lia|]. now apply (handle_aligned it (Some arg) result).
    + apply IH; [cbn in Hn; lia|assumption].
Qed.

(** What [ParseCommandline] returns has a positive width that is a
    multiple of 8 and a positive height that is a multiple of 4. *)
Lemma ParseCommandline_aligned (argv : list string) (options : Options) :
  ParseCommandline argv = Parsed options ->
  0 < width options /\ width options mod 8 = 0
  /\ 0 < height options /\ height options mod 4 = 0.
Proof.
  unfold ParseCommandline.
  destruct (parse_loop argv initial) as [r| |] eqn:Hp; cbn [and_then];
    try discriminate.
  assert (Ha : aligned r).
  { apply (parse_loop_aligned (List.length argv) argv initial r);
      [lia| |assumption].
    unfold aligned, initial. cbn. repeat split; lia. }
  destruct (Z.eqb_spec (width r) 0); cbn [orb]; [discriminate|].
  destruct (Z.eqb_spec (height r) 0); cbn [orb]; [discriminate|].
  intros [= <-]. unfold aligned in Ha. lia.
Qed.

Lemma nv12_extent (w h : Z) :
  0 < w <= Int.INT_MAX -> w mod 8 = 0 -> 0 < h <= Int.INT_MAX -> h mod 4 = 0 ->
  let n := Int.size_t (Int.size_t (w / 4 * (Int.size_t (h * 3) / 2)) * 4) in
  n = w * h * 3 / 2 /\ Int.streamsize n = n /\ 0 <= n
  /\ w * h * 3 / 2 = w * h + w * h / 2.
Proof.
  unfold Int.INT_MAX, Int.size_t, Int.size_max, Int.streamsize.
  change (2 ^ 64) with 18446744073709551616.
  change (2 ^ 63) with 9223372036854775808.
  intros Hw Hw8 Hh Hh4.
  assert (Ew : w = 8 * (w / 8)) by lia.
  assert (Eh : h = 4 * (h / 4)) by lia.
  set (p := w / 8) in *. set (q := h / 4) in *.
  assert (Hp : 0 < p <= 268435455) by lia.
  assert (Hq : 0 < q <= 536870911) by lia.
  clearbody p q. subst w h.
  rewrite (Z.mod_small (4 * q * 3)) by lia.
  replace (8 * p / 4) with (2 * p) by lia.
  replace (4 * q * 3 / 2) with (6 * q) by lia.
  assert (Hpq : 0 < p * q <= 268435455 * 536870911) by nia.
  replace (2 * p * (6 * q)) with (12 * (p * q)) by ring.
  replace (8 * p * (4 * q) * 3) with (2 * (48 * (p * q))) by ring.
  replace (8 * p * (4 * q)) with (2 * (16 * (p * q))) by ring.
  set (m := p * q) in *. clearbody m.
  rewrite (Z.mod_small (12 * m)) by lia.
  rewrite (Z.mod_small (12 * m * 4)) by lia.
  cbv zeta. rewrite (Z.mod_small (12 * m * 4 + 9223372036854775808)) by lia.
  lia.
Qed.

End MainFacts.

(** Takes a successful run of a sequence apart, scope by scope. *)
Ltac invert_run H :=
  repeat (cbv zeta in H;
          lazymatch type of H with
          | Native.bind _ _ _ _ = _ =>
              let v := fresh "v" in
              let w1 := fresh "w" in
              let Hm := fresh "Hstep" in
              apply bind_Ok in H as (v & w1 & Hm & H)
          | Native.Defer _ _ _ _ = _ =>
              let w1 := fresh "w" in
              let Hc := fresh "Hleave" in
              apply Defer_Ok in H as (w1 & H & Hc)
          end).

(** What each tame step of an inverted run leaves of the sinks and of the
    trace. *)
Ltac tame_facts :=
  repeat match goal with
         | H : ?m ?env ?w = (Native.Ok _, ?w') |- _ =>
             lazymatch goal with
             | _ : Native.fout w' = Native.fout w |- _ => fail
             | _ => idtac
             end;
             let T := fresh "Htame" in
             assert (T : Vocabulary.tame m) by (first [solve [auto] | tame_tac]);
             let Hf := fresh "Hsink" in
             let tr := fresh "tr" in
             let Ht := fresh "Htrace" in
             destruct (T env w) as (Hf & tr & Ht);
             rewrite H in Hf, Ht; cbn [snd] in Hf, Ht; clear T
         end.

(** Carries what is known to be in a trace over to the traces that
    extend it. *)
Ltac forward_in :=
  repeat match goal with
         | Ht : Native.trace ?wj = (Native.trace ?wi ++ _)%list,
           Hin : In ?e (Native.trace ?wi) |- _ =>
             lazymatch goal with
             | _ : In e (Native.trace wj) |- _ => fail
             | _ => assert (In e (Native.trace wj))
                      by (rewrite Ht; apply in_or_app; now left)
             end
         end.

(** C1.  When [main] ends with [EXIT_SUCCESS] on options whose sizes are
    [int]s, the sink named by the options has received exactly
    [width * height * 3 / 2] bytes, the [width * height] bytes of a luma
    plane plus the [width * height / 2] bytes of a chroma plane.  They
    are the content of a mapping, of that extent, of the destination
    buffer, the one allocated [width / 4] wide and [height * 3 / 2] high;
    no other sink has been written to. *)
Theorem main_drains_nv12_extent
        (argv : list string) (options : Cmdline.Options)
        (env : Native.Env) (w w' : Native.world) :
  Cmdline.ParseCommandline argv = Cmdline.Parsed options ->
  Cmdline.width options <= Int.INT_MAX ->
  Cmdline.height options <= Int.INT_MAX ->
  Main.main argv env w = (Main.EXIT_SUCCESS, w') ->
  let n := Cmdline.width options * Cmdline.height options * 3 / 2 in
  n = Cmdline.width options * Cmdline.height options
      + Cmdline.width options * Cmdline.height options / 2
  /\ exists buffer_nv12 bytes,
       Gpu.width_ buffer_nv12 = Cmdline.width options / 4
       /\ Gpu.height_ buffer_nv12 = Cmdline.height options * 3 / 2
       /\ Vocabulary.drained_from env (Native.trace w') buffer_nv12 n bytes
       /\ Z.of_nat (List.length bytes) = n
       /\ Native.written (Native.fout w' (Cmdline.output options))
          = (Native.written (Native.fout w (Cmdline.output options)) ++ bytes)%list
       /\ (forall id, Native.same_stream id (Cmdline.output options) = false ->
                      Native.fout w' id = Native.fout w id).
Proof.
  intros Hparse Hwmax Hhmax Hmain n.
  destruct (ParseCommandline_aligned argv options Hparse)
    as (Hw & Hw8 & Hh & Hh4).
  destruct (nv12_extent (Cmdline.width options) (Cmdline.height options))
    as (He & Hss & Hn & Hplanes); try lia.
  cbv zeta in He, Hss, Hn. fold n in He, Hplanes. rewrite He in Hss, Hn.
  split; [exact Hplanes|].
  assert (Hh3 : Int.size_t (Cmdline.height options * 3)
                = Cmdline.height options * 3).
  { unfold Int.size_t, Int.size_max, Int.INT_MAX in *.
    change (2 ^ 64) with 18446744073709551616. apply Z.mod_small. lia. }
  rewrite Hh3 in He.
  unfold Main.main in Hmain. rewrite Hparse in Hmain.
  destruct (Main.try_block options env w) as [[u|e|] w1] eqn:Hrun;
    try discriminate.
  injection Hmain as <-. destruct u.
  unfold Main.try_block in Hrun. rewrite Hh3 in Hrun. invert_run Hrun.
  rename v2 into buffer_nv12.
  destruct (GbmBuffer_new_Ok _ _ _ _ _ _ _ Hstep2) as (Hbw & Hbh & Hnew).
  unfold Int.uint32_t in Hnew.
  rewrite !Z.mod_small in Hnew
    by (unfold Int.INT_MAX in *; change (2 ^ 32) with 4294967296; lia).
  rewrite <- Hbw, <- Hbh in Hnew.
  assert (Hext : Gpu.extent buffer_nv12 = n).
  { unfold Gpu.extent. rewrite Hbw, Hbh. exact He. }
  destruct (DrainTo_Ok buffer_nv12 (Cmdline.output options) n env _ _
              Hext Hss Hn Hrun) as (addr & history & bytes & Hb & Hwr & Hoth & Htr).
  pose proof (factory_tame _ _ _ _ _ Hstep9) as (Hconv & Hdel).
  tame_facts.
  assert (Hbefore : Native.fout w23 = Native.fout w) by congruence.
  assert (Hafter : Native.fout w1 = Native.fout w21) by congruence.
  assert (Hcreate : In (Native.Ev (Native.gbm_bo_create
                                     (Gpu.device_ v) (Gpu.width_ buffer_nv12)
                                     (Gpu.height_ buffer_nv12))
                                  (Gpu.bo_ buffer_nv12)) (Native.trace w6)).
  { rewrite Hnew, in_app_iff. right. now left. }
  assert (Hexport : In (Native.Ev (Native.gbm_bo_get_fd (Gpu.bo_ buffer_nv12))
                                  (Gpu.fd_ buffer_nv12)) (Native.trace w6)).
  { rewrite Hnew, in_app_iff. right. right. now left. }
  assert (Hmap : In (Native.Ev (Native.mmap n Native.PROT_READ
                                            (Gpu.fd_ buffer_nv12)) (Some addr))
                    (Native.trace w21)).
  { rewrite Htr, in_app_iff. right. now left. }
  forward_in.
  exists buffer_nv12, bytes.
  split; [exact Hbw|]. split; [exact Hbh|]. split; [|split; [|split]].
  - exists (Gpu.device_ v), addr, history. auto.
  - rewrite Hb, length_map, length_seq. lia.
  - now rewrite Hafter, Hwr, Hbefore.
  - intros id Hid. rewrite Hafter, (Hoth id Hid). now rewrite Hbefore.
Qed.

Lemma main_drains_nv12_extent_witness :
  fst (Main.main Demo.argv Demo.env Demo.start) = Main.EXIT_SUCCESS
  /\ exists bytes,
       Z.of_nat (List.length bytes) = 8 * 4 * 3 / 2
       /\ Native.written
            (Native.fout (snd (Main.main Demo.argv Demo.env Demo.start)) None)
          = bytes.
Proof.
  assert (Hrun : Main.main Demo.argv Demo.env Demo.start
                 = (Main.EXIT_SUCCESS,
                    snd (Main.main Demo.argv Demo.env Demo.start))).
  { rewrite (surjective_pairing (Main.main Demo.argv Demo.env Demo.start)) at 1.
    f_equal. }
  assert (Hparse : Cmdline.ParseCommandline Demo.argv
                   = Cmdline.Parsed
                       {| Cmdline.width := 8; Cmdline.height := 4;
                          Cmdline.input := None; Cmdline.output := None;
                          Cmdline.render_node := Some "/dev/dri/renderD128";
                          Cmdline.es20 := false |}) by reflexivity.
  split; [now rewrite Hrun|].
  destruct (main_drains_nv12_extent
              Demo.argv _ Demo.env Demo.start
              (snd (Main.main Demo.argv Demo.env Demo.start)) Hparse)
    as (_ & nv12 & bytes & _ & _ & _ & Hlen & Hwritten & _).
  - unfold Int.INT_MAX. cbn. lia.
  - unfold Int.INT_MAX. cbn. lia.
  - exact Hrun.
  - exists bytes. split; [exact Hlen|]. exact Hwritten.
Defined.

(** The raster path of the cooperative run also succeeds and writes the
    same number of bytes. *)
Example raster_run_writes_48_bytes :
  let run := Main.main (Demo.argv ++ ["-es"; "20"]) Demo.env Demo.start in
  fst run = Main.EXIT_SUCCESS
  /\ List.length (Native.written (Native.fout (snd run) None)) = 48%nat.
Proof. vm_compute. split; reflexivity. Qed.

(** A source that is one byte short makes the run fail before any context
    is created, with the buffer unmapped and destroyed. *)
Example short_source_fails :
  let short :=
    {| Native.trace := []; Native.fin := fun _ => Demo.idle_in;
       Native.fout := fun _ => Demo.empty_out; Native.resolved := false;
       Native.cerr := [] |} in
  let run := Main.main Demo.argv Demo.env short in
  fst run = Main.EXIT_FAILURE
  /\ Native.cerr (snd run) = ["Failed to read source"].
Proof. vm_compute. split; reflexivity. Qed.

(** ** The first state of the orchestrator *)

(** The first state of [main] is not a conversion: its destination is as
    large as its source, and a successful run copies the whole of it,
    [width * height * 4] bytes, to the sink, after a dispatch of
    [(width / 16, height / 16, 1)] work groups. *)
Lemma first_state_copies_whole_frame
      (argv : list string) (options : FirstState.Options)
      (env : Native.Env) (w w' : Native.world) :
  FirstState.ParseCommandline argv = Cmdline.Parsed options ->
  0 < FirstState.width options <= Int.INT_MAX ->
  0 < FirstState.height options <= Int.INT_MAX ->
  FirstState.width options * FirstState.height options * 4 < 2 ^ 63 ->
  FirstState.main argv env w = (Main.EXIT_SUCCESS, w') ->
  let n := FirstState.width options * FirstState.height options * 4 in
  exists bytes,
    Z.of_nat (List.length bytes) = n
    /\ Native.written (Native.fout w' (FirstState.output options))
       = (Native.written (Native.fout w (FirstState.output options)) ++ bytes)%list
    /\ In (Native.Ev (Native.glDispatchCompute
                        (FirstState.width options / 16)
                        (FirstState.height options / 16) 1) tt)
          (Native.trace w').
Proof.
  intros Hparse Hw Hh Hfit Hmain n.
  unfold FirstState.main in Hmain. rewrite Hparse in Hmain.
  destruct (FirstState.try_block options env w) as [[u|e|] w1] eqn:Hrun;
    try discriminate.
  injection Hmain as <-. destruct u.
  unfold FirstState.try_block in Hrun. invert_run Hrun.
  match goal with
  | H : Gpu.DrainTo ?b _ _ _ = _ |- _ => rename b into buffer_nv12
  end.
  match goal with
  | H : Gpu.CreateGbmBuffer _ _ _ _ _ = (Native.Ok buffer_nv12, _) |- _ =>
      destruct (GbmBuffer_new_Ok _ _ _ _ _ _ _ H) as (Hbw & Hbh & _)
  end.
  destruct (extent_exact buffer_nv12) as (Hext & Hss);
    rewrite ?Hbw, ?Hbh; try lia.
  rewrite Hbw, Hbh in Hext, Hss. fold n in Hext, Hss. rewrite Hext in Hss.
  assert (Hn : 0 <= n) by (unfold n; nia).
  destruct (DrainTo_Ok buffer_nv12 (FirstState.output options) n env _ _
              Hext Hss Hn Hrun) as (addr & history & bytes & Hb & Hwr & _ & Htr).
  match type of Hrun with
  | _ _ _ _ ?wa = (_, ?wb) =>
      tame_facts;
      assert (Hbefore : Native.fout wa = Native.fout w) by congruence;
      assert (Hafter : Native.fout w1 = Native.fout wb) by congruence
  end.
  match goal with
  | H : Native.native (Native.glDispatchCompute ?gx ?gy 1) env ?wa
        = (Native.Ok ?u, ?wb) |- _ =>
      assert (Hdispatch : In (Native.Ev (Native.glDispatchCompute gx gy 1) tt)
                             (Native.trace wb))
        by (injection H as _ <-; cbn [Native.trace Native.log];
            rewrite in_app_iff; right; left;
            now destruct (Native.answer env unit _ _))
  end.
  unfold Int.uint32_t, Int.INT_MAX in *.
  rewrite !Z.mod_small in Hdispatch by (change (2 ^ 32) with 4294967296; lia).
  forward_in.
  exists bytes. split; [|split].
  - rewrite Hb, length_map, length_seq. lia.
  - now rewrite Hafter, Hwr, Hbefore.
  - assumption.
Qed.

(** ** Resources: a ledger of what a run holds *)

Section LedgerRules.
Import Native Ledger.

Lemma settle_app (tr1 tr2 : list event) (held : list resource) :
  settle (tr1 ++ tr2) held
  = match settle tr1 held with
    | Some mid => settle tr2 mid
    | None => None
    end.
Proof.
  revert held. induction tr1 as [|[R c ans] tr1 IH]; intros held.
  - reflexivity.
  - cbn [app settle]. destruct (take_all (loss c) held); [apply IH|reflexivity].
Qed.

Lemma resource_eqb_refl (res : resource) : resource_eqb res res = true.
Proof. destruct res; cbn; rewrite ?Z.eqb_refl; reflexivity. Qed.

Lemma take_top (res : resource) (held : list resource) :
  take res (res :: held) = Some held.
Proof. cbn. now rewrite resource_eqb_refl. Qed.

Lemma take_under (res : resource) (front held : list resource) :
  forallb (fun other => negb (resource_eqb res other)) front = true ->
  take res (front ++ res :: held) = Some (front ++ held)%list.
Proof.
  induction front as [|top front IH]; intros H.
  - apply take_top.
  - cbn in H. apply andb_true_iff in H as [Htop H].
    apply negb_true_iff in Htop. cbn. rewrite Htop, (IH H). reflexivity.
Qed.

Lemma accounts_ret {A} (a : A) pre ok ex ab :
  ok a = pre -> accounts (ret a) pre ok ex ab.
Proof.
  intros H env w. exists []. cbn. rewrite app_nil_r. split; [reflexivity|].
  intros base. now rewrite H.
Qed.

Lemma accounts_throw {A} (e : exn) pre (ok : A -> list resource) ex ab :
  ex = Some pre -> accounts (@throw A e) pre ok ex ab.
Proof.
  intros -> env w. exists []. cbn. rewrite app_nil_r. split; reflexivity.
Qed.

(** A call that gives nothing back. *)
Lemma accounts_native {R} (c : call R) pre ex ab :
  loss c = [] ->
  accounts (native c) pre (fun ans => gain c ans ++ pre)%list ex ab.
Proof.
  intros H env w. eexists. split; [reflexivity|].
  cbn [fst native]. intros base. cbn [settle]. rewrite H. cbn [take_all].
  now rewrite app_assoc.
Qed.

(** A call that gives back what is held under [front]. *)
Lemma accounts_release {R} (c : call R) res front rest pre ex ab :
  loss c = [res] -> pre = (front ++ res :: rest)%list ->
  forallb (fun other => negb (resource_eqb res other)) front = true ->
  accounts (native c) pre (fun ans => gain c ans ++ front ++ rest)%list ex ab.
Proof.
  intros H -> Hfront env w. eexists. split; [reflexivity|].
  cbn [fst native]. intros base. cbn [settle]. rewrite H. cbn [take_all].
  rewrite <- app_assoc. cbn [app]. rewrite (take_under _ _ _ Hfront).
  now rewrite <- !app_assoc.
Qed.

Lemma reset_failed_last_app (tr1 tr2 : list event) :
  reset_failed_last tr2 -> reset_failed_last (tr1 ++ tr2).
Proof.
  intros (front & dpy & error & ->).
  exists (tr1 ++ front)%list, dpy, error. now rewrite app_assoc.
Qed.

Lemma accounts_bind {A B} (m : M A) (k : A -> M B) pre mid ok ex ab :
  accounts m pre mid ex ab ->
  (forall a, accounts (k a) (mid a) ok ex ab) ->
  accounts (bind m k) pre ok ex ab.
Proof.
  intros Hm Hk env w. rewrite run_bind.
  destruct (Hm env w) as (tr & Ht & Hs).
  destruct (m env w) as [[a|e|] w1]; cbn [fst snd] in *.
  - destruct (Hk a env w1) as (tr' & Ht' & Hs').
    exists (tr ++ tr')%list. split; [rewrite Ht', Ht; now rewrite app_assoc|].
    destruct (fst (k a env w1)).
    + intros base. now rewrite settle_app, Hs.
    + destruct ex; [|contradiction]. intros base. now rewrite settle_app, Hs.
    + destruct Hs' as [Hab Hlast]. split; [exact Hab|].
      now apply reset_failed_last_app.
  - now exists tr.
  - now exists tr.
Qed.

(** A guard whose closure does not throw. *)
Lemma accounts_Defer {A} (impl : M unit) (scope : M A)
      pre held_ok held_ex ok ex ab :
  accounts scope pre held_ok (Some held_ex) ab ->
  (forall a, accounts impl (held_ok a) (fun _ => ok a) None ab) ->
  accounts impl held_ex (fun _ => ex) None ab ->
  accounts (Defer impl scope) pre ok (Some ex) ab.
Proof.
  intros Hs Hok Hex env w. unfold Defer.
  destruct (Hs env w) as (tr & Ht & Hh).
  destruct (scope env w) as [[a|e|] w1]; cbn [fst snd] in *.
  - destruct (Hok a env w1) as (tr' & Ht' & Hh').
    exists (tr ++ tr')%list.
    destruct (impl env w1) as [[u|e|] w2]; cbn [fst snd] in *.
    + split; [rewrite Ht', Ht; now rewrite app_assoc|].
      intros base. now rewrite settle_app, Hh.
    + contradiction.
    + split; [rewrite Ht', Ht; now rewrite app_assoc|].
      destruct Hh' as [Hab Hlast]. split; [exact Hab|].
      now apply reset_failed_last_app.
  - destruct (Hex env w1) as (tr' & Ht' & Hh').
    exists (tr ++ tr')%list.
    destruct (impl env w1) as [[u|e'|] w2]; cbn [fst snd] in *.
    + split; [rewrite Ht', Ht; now rewrite app_assoc|].
      intros base. now rewrite settle_app, Hh.
    + contradiction.
    + split; [rewrite Ht', Ht; now rewrite app_assoc|].
      destruct Hh' as [Hab Hlast]. split; [exact Hab|].
      now apply reset_failed_last_app.
  - now exists tr.
Qed.

(** A guard whose closure, when it throws, has just failed to reset the
    current context: the process ends there. *)
Lemma accounts_Defer_abort {A} (impl : M unit) (scope : M A)
      pre held_ok held_ex ok ex ex' :
  (forall env w, match fst (impl env w) with
                 | Exn _ => exists tr dpy error,
                     trace (snd (impl env w))
                     = (trace w ++ tr ++ [Ev (eglMakeCurrent dpy 0) false;
                                          Ev eglGetError error])%list
                 | _ => True
                 end) ->
  accounts scope pre held_ok (Some held_ex) true ->
  (forall a, accounts impl (held_ok a) (fun _ => ok a) ex' true) ->
  accounts impl held_ex (fun _ => ex) ex' true ->
  accounts (Defer impl scope) pre ok (Some ex) true.
Proof.
  intros Hthrow Hs Hok Hex env w. unfold Defer.
  destruct (Hs env w) as (tr & Ht & Hh).
  destruct (scope env w) as [[a|e|] w1]; cbn [fst snd] in *.
  - destruct (Hok a env w1) as (tr' & Ht' & Hh').
    specialize (Hthrow env w1).
    destruct (impl env w1) as [[u|e|] w2]; cbn [fst snd] in *.
    + exists (tr ++ tr')%list.
      split; [rewrite Ht', Ht; now rewrite app_assoc|].
      intros base. now rewrite settle_app, Hh.
    + destruct Hthrow as (tr2 & dpy & error & Ht2).
      exists (tr ++ tr2 ++ [Ev (eglMakeCurrent dpy 0) false;
                            Ev eglGetError error])%list.
      split; [rewrite Ht2, Ht; now rewrite !app_assoc|].
      split; [reflexivity|]. exists (tr ++ tr2)%list, dpy, error.
      now rewrite app_assoc.
    + exists (tr ++ tr')%list.
      split; [rewrite Ht', Ht; now rewrite app_assoc|].
      destruct Hh' as [Hab Hlast]. split; [exact Hab|].
      now apply reset_failed_last_app.
  - destruct (Hex env w1) as (tr' & Ht' & Hh').
    specialize (Hthrow env w1).
    destruct (impl env w1) as [[u|e'|] w2]; cbn [fst snd] in *.
    + exists (tr ++ tr')%list.
      split; [rewrite Ht', Ht; now rewrite app_assoc|].
      intros base. now rewrite settle_app, Hh.
    + destruct Hthrow as (tr2 & dpy & error & Ht2).
      exists (tr ++ tr2 ++ [Ev (eglMakeCurrent dpy 0) false;
                            Ev eglGetError error])%list.
      split; [rewrite Ht2, Ht; now rewrite !app_assoc|].
      split; [reflexivity|]. exists (tr ++ tr2)%list, dpy, error.
      now rewrite app_assoc.
    + exists (tr ++ tr')%list.
      split; [rewrite Ht', Ht; now rewrite app_assoc|].
      destruct Hh' as [Hab Hlast]. split; [exact Hab|].
      now apply reset_failed_last_app.
  - now exists tr.
Qed.

Lemma accounts_Defer_ref {A S} (local : S) (impl : S -> M unit)
      (scope : M (A * S)) pre held_ok held_ex ok ex ab :
  accounts scope pre held_ok (Some held_ex) ab ->
  (forall a s, accounts (impl s) (held_ok (a, s)) (fun _ => ok a) None ab) ->
  accounts (impl local) held_ex (fun _ => ex) None ab ->
  accounts (Defer_ref local impl scope) pre ok (Some ex) ab.
Proof.
  intros Hs Hok Hex env w. unfold Defer_ref.
  destruct (Hs env w) as (tr & Ht & Hh).
  destruct (scope env w) as [[[a s]|e|] w1]; cbn [fst snd] in *.
  - destruct (Hok a s env w1) as (tr' & Ht' & Hh').
    exists (tr ++ tr')%list.
    destruct (impl s env w1) as [[u|e|] w2]; cbn [fst snd] in *.
    + split; [rewrite Ht', Ht; now rewrite app_assoc|].
      intros base. now rewrite settle_app, Hh.
    + contradiction.
    + split; [rewrite Ht', Ht; now rewrite app_assoc|].
      destruct Hh' as [Hab Hlast]. split; [exact Hab|].
      now apply reset_failed_last_app.
  - destruct (Hex env w1) as (tr' & Ht' & Hh').
    exists (tr ++ tr')%list.
    destruct (impl local env w1) as [[u|e'|] w2]; cbn [fst snd] in *.
    + split; [rewrite Ht', Ht; now rewrite app_assoc|].
      intros base. now rewrite settle_app, Hh.
    + contradiction.
    + split; [rewrite Ht', Ht; now rewrite app_assoc|].
      destruct Hh' as [Hab Hlast]. split; [exact Hab|].
      now apply reset_failed_last_app.
  - now exists tr.
Qed.

(** Computations that leave the trace alone and return. *)
Lemma accounts_silent {A} (m : M A) pre ex ab :
  (forall env w, trace (snd (m env w)) = trace w
                 /\ exists a, fst (m env w) = Ok a) ->
  accounts m pre (fun _ => pre) ex ab.
Proof.
  intros H env w. destruct (H env w) as (Ht & a & Ha).
  exists []. rewrite app_nil_r. split; [exact Ht|]. rewrite Ha. reflexivity.
Qed.

Lemma accounts_peek addr n pre ex ab :
  accounts (peek addr n) pre (fun _ => pre) ex ab.
Proof. apply accounts_silent. intros env w. cbn. eauto. Qed.

Lemma accounts_read_stream id n pre ex ab :
  accounts (read_stream id n) pre (fun _ => pre) ex ab.
Proof.
  apply accounts_silent. intros env w. unfold read_stream.
  destruct (istream_read (fin w id) n). cbn. eauto.
Qed.

Lemma accounts_write_stream id n data pre ex ab :
  accounts (write_stream id n data) pre (fun _ => pre) ex ab.
Proof. apply accounts_silent. intros env w. cbn. eauto. Qed.

Lemma accounts_istream_failed id pre ex ab :
  accounts (istream_failed id) pre (fun _ => pre) ex ab.
Proof. apply accounts_silent. intros env w. cbn. eauto. Qed.

Lemma accounts_ostream_failed id pre ex ab :
  accounts (ostream_failed id) pre (fun _ => pre) ex ab.
Proof. apply accounts_silent. intros env w. cbn. eauto. Qed.

Lemma accounts_get_resolved pre ex ab :
  accounts get_resolved pre (fun _ => pre) ex ab.
Proof. apply accounts_silent. intros env w. cbn. eauto. Qed.

Lemma accounts_set_resolved pre ex ab :
  accounts set_resolved pre (fun _ => pre) ex ab.
Proof. apply accounts_silent. intros env w. cbn. eauto. Qed.

End LedgerRules.

Section LedgerFrames.
Import Native Ledger.

Lemma take_all_top (given_back held : list resource) :
  take_all given_back (given_back ++ held) = Some held.
Proof.
  induction given_back as [|res more IH]; [reflexivity|].
  cbn [app take_all]. now rewrite take_top.
Qed.

(** A call gives back what is held on top. *)
Lemma accounts_top {R} (c : call R) pre rest ex ab :
  pre = (loss c ++ rest)%list ->
  accounts (native c) pre (fun ans => gain c ans ++ rest)%list ex ab.
Proof.
  intros -> env w. eexists. split; [reflexivity|].
  cbn [fst native]. intros base. cbn [settle].
  rewrite <- app_assoc, take_all_top. now rewrite app_assoc.
Qed.

Lemma accounts_post {A} (m : M A) pre ok ok' ex ab :
  accounts m pre ok' ex ab -> (forall a, ok' a = ok a) ->
  accounts m pre ok ex ab.
Proof.
  intros H Hok env w. destruct (H env w) as (tr & Ht & Hs).
  exists tr. split; [exact Ht|].
  destruct (fst (m env w)); [|exact Hs|exact Hs].
  intros base. rewrite <- Hok. apply Hs.
Qed.

Lemma accounts_assoc {A B C} (m : M A) (f : A -> M B) (k : B -> M C)
      pre ok ex ab :
  accounts (bind m (fun a => bind (f a) k)) pre ok ex ab ->
  accounts (bind (bind m f) k) pre ok ex ab.
Proof.
  intros H env w.
  replace (bind (bind m f) k env w) with (bind m (fun a => bind (f a) k) env w).
  - apply H.
  - rewrite !run_bind. destruct (m env w) as [[a|e|] w1]; reflexivity.
Qed.

Lemma accounts_ret_bind {A B} (a : A) (k : A -> M B) pre ok ex ab :
  accounts (k a) pre ok ex ab -> accounts (bind (ret a) k) pre ok ex ab.
Proof. intros H env w. apply H. Qed.

End LedgerFrames.

Ltac ledger_eqs :=
  repeat match goal with
         | H : (?p =? ?q) = _ |- context [?p =? ?q] => rewrite H
         end.

Ltac ledger_simpl :=
  cbv beta iota zeta;
  unfold Gpu.EGL_NO_DISPLAY, Gpu.EGL_NO_CONTEXT, Gpu.EGL_NO_SYNC,
    Gpu.GL_NO_ERROR, Ledger.GbmDevice_owns, Ledger.GbmBuffer_owns,
    Ledger.EglContext_owns, Ledger.FramesconvES20_owns;
  cbn [Ledger.gain Ledger.loss app fst snd negb
       Gpu.device_ Gpu.dev_fd_ Gpu.bo_ Gpu.fd_ Gpu.width_ Gpu.height_
       Gpu.display_ Gpu.context_
       ES20.framebuffer_ ES20.buffer_object_ ES20.program_ ES31.program_];
  unfold Ledger.unless;
  ledger_eqs;
  cbn [app negb];
  rewrite <- ?app_assoc.

Ltac ledger_done :=
  ledger_simpl;
  first [ reflexivity
        | change (0 =? 0) with true; cbv beta iota;
          repeat match goal with
                 | |- context [if ?p =? ?q then _ else _] =>
                     destruct (p =? q) eqn:?
                 end;
          cbn [app]; reflexivity ].

Ltac ledger_native :=
  eapply accounts_top; ledger_simpl; reflexivity.

Ltac ledger_step :=
  lazymatch goal with
  | |- Ledger.accounts (Native.ret _) _ _ _ _ =>
      apply accounts_ret; ledger_done
  | |- Ledger.accounts (Native.throw _) _ _ _ _ =>
      apply accounts_throw; ledger_done
  | |- Ledger.accounts (Native.bind (Native.bind _ _) _) _ _ _ _ =>
      apply accounts_assoc
  | |- Ledger.accounts (Native.bind (Native.ret _) _) _ _ _ _ =>
      apply accounts_ret_bind; ledger_simpl
  | |- Ledger.accounts (Native.bind (Native.native _) _) _ _ _ _ =>
      eapply accounts_bind; [ledger_native | intros ?; ledger_simpl]
  | |- Ledger.accounts (Native.bind (if negb ?c then _ else _) _) _ _ _ _ =>
      destruct c eqn:?; ledger_simpl
  | |- Ledger.accounts (Native.bind (if ?c then _ else _) _) _ _ _ _ =>
      destruct c eqn:?; ledger_simpl
  | |- Ledger.accounts (Native.bind (match ?v with _ => _ end) _) _ _ _ _ =>
      destruct v eqn:?; ledger_simpl
  | |- Ledger.accounts (Native.bind (Native.when ?c _) _) _ _ _ _ =>
      unfold Native.when at 1
  | |- Ledger.accounts (Native.bind (Native.peek _ _) _) _ _ _ _ =>
      eapply accounts_bind; [apply accounts_peek | intros ?; ledger_simpl]
  | |- Ledger.accounts (Native.bind (Native.read_stream _ _) _) _ _ _ _ =>
      eapply accounts_bind; [apply accounts_read_stream | intros ?; ledger_simpl]
  | |- Ledger.accounts (Native.bind (Native.write_stream _ _ _) _) _ _ _ _ =>
      eapply accounts_bind; [apply accounts_write_stream | intros ?; ledger_simpl]
  | |- Ledger.accounts (Native.bind (Native.istream_failed _) _) _ _ _ _ =>
      eapply accounts_bind; [apply accounts_istream_failed | intros ?; ledger_simpl]
  | |- Ledger.accounts (Native.bind (Native.ostream_failed _) _) _ _ _ _ =>
      eapply accounts_bind; [apply accounts_ostream_failed | intros ?; ledger_simpl]
  | |- Ledger.accounts (Native.bind Native.get_resolved _) _ _ _ _ =>
      eapply accounts_bind; [apply accounts_get_resolved | intros ?; ledger_simpl]
  | |- Ledger.accounts (Native.bind Native.set_resolved _) _ _ _ _ =>
      eapply accounts_bind; [apply accounts_set_resolved | intros ?; ledger_simpl]
  | |- Ledger.accounts (Native.native _) _ _ _ _ =>
      eapply accounts_post; [ledger_native | intros ?; ledger_simpl; reflexivity]
  | |- Ledger.accounts Native.set_resolved _ _ _ _ =>
      eapply accounts_post;
      [apply accounts_set_resolved | intros ?; ledger_simpl; reflexivity]
  | |- Ledger.accounts (Native.when ?c _) _ _ _ _ => unfold Native.when
  | |- Ledger.accounts (if negb ?c then _ else _) _ _ _ _ =>
      destruct c eqn:?; ledger_simpl
  | |- Ledger.accounts (if ?c then _ else _) _ _ _ _ =>
      destruct c eqn:?; ledger_simpl
  | |- Ledger.accounts (match ?v with _ => _ end) _ _ _ _ =>
      destruct v eqn:?; ledger_simpl
  end.

Ltac ledger_unfold :=
  progress unfold Gpu.throwEgl, Gpu.throwGl, Gpu.VerifyExtension,
    ES20.delete_unless_zero.

Ltac ledger := ledger_simpl; repeat first [ledger_step | ledger_unfold].

Section DeviceLedger.
Import Native Gpu Ledger.

Lemma GbmDevice_new_accounts render_node pre ab :
  accounts (GbmDevice_new render_node) pre
           (fun d => GbmDevice_owns d ++ pre)%list (Some pre) ab.
Proof. unfold GbmDevice_new. ledger. Qed.

Lemma GbmDevice_delete_accounts d pre ex ab :
  accounts (GbmDevice_delete d)
           (unless 0 (device_ d) (Device (device_ d))
            ++ unless (-1) (dev_fd_ d) (Descriptor (dev_fd_ d)) ++ pre)%list
           (fun _ => pre) ex ab.
Proof. unfold GbmDevice_delete. ledger. Qed.

End DeviceLedger.

Section BufferLedger.
Import Native Gpu Ledger.

Lemma GbmBuffer_new_accounts device width height pre ab :
  accounts (GbmBuffer_new device width height) pre
           (fun b => GbmBuffer_owns b ++ pre)%list (Some pre) ab.
Proof. unfold GbmBuffer_new. ledger. Qed.

Lemma CreateGbmBuffer_accounts d width height pre ab :
  accounts (CreateGbmBuffer d width height) pre
           (fun b => GbmBuffer_owns b ++ pre)%list (Some pre) ab.
Proof. apply GbmBuffer_new_accounts. Qed.

Lemma GbmBuffer_delete_accounts b pre ex ab :
  accounts (GbmBuffer_delete b)
           (unless (-1) (fd_ b) (Descriptor (fd_ b))
            ++ unless 0 (bo_ b) (BufferObject (bo_ b)) ++ pre)%list
           (fun _ => pre) ex ab.
Proof. unfold GbmBuffer_delete. ledger. Qed.

End BufferLedger.

Section LedgerGuards.
Import Native Ledger.

Lemma accounts_throw_bind {A B} (e : exn) (k : A -> M B) pre ok ex ab :
  ex = Some pre -> accounts (bind (throw e) k) pre ok ex ab.
Proof.
  intros -> env w. exists []. cbn. rewrite app_nil_r. split; reflexivity.
Qed.

(** A guard that gives back the name it holds unless the scope has set
    it to zero. *)
Lemma accounts_Defer_ref_guard {A} (local : Z) (del : Z -> call unit)
      (impl : Z -> M unit) (scope : M (A * Z)) pre ok ex ab :
  (forall name, impl name = when (negb (name =? 0)) (native (del name))) ->
  (forall name u, gain (del name) u = []) ->
  accounts scope pre
           (fun v => (if snd v =? 0 then [] else loss (del (snd v)))
                     ++ ok (fst v))%list
           (Some ((if local =? 0 then [] else loss (del local)) ++ ex)%list) ab ->
  accounts (Defer_ref local impl scope) pre ok (Some ex) ab.
Proof.
  intros Himpl Hgain Hscope.
  assert (Hdel : forall name held,
             accounts (impl name)
                      ((if name =? 0 then [] else loss (del name)) ++ held)%list
                      (fun _ => held) None ab).
  { intros name held. rewrite Himpl. unfold when.
    destruct (name =? 0); cbn [negb app].
    - now apply accounts_ret.
    - eapply accounts_post; [now apply accounts_top|].
      intros u. cbv beta. now rewrite Hgain. }
  eapply accounts_Defer_ref; [exact Hscope| |].
  - intros a s. apply Hdel.
  - apply Hdel.
Qed.

End LedgerGuards.

Ltac ledger_scope :=
  lazymatch goal with
  | |- Ledger.accounts (Native.Defer ?impl ?scope) ?pre ?ok (Some ?ex) ?ab =>
      apply (accounts_Defer impl scope pre (fun _ => pre) pre ok ex ab);
      [ledger_simpl | intros ?; ledger_simpl | ledger_simpl]
  | |- Ledger.accounts (Native.Defer_ref ?local ?impl ?scope) ?pre ?ok (Some ?ex) ?ab =>
      eapply (accounts_Defer_ref_guard local _ impl scope pre ok ex ab);
      [intros ?; reflexivity | intros ? ?; reflexivity | ledger_simpl]
  | |- Ledger.accounts (Native.bind (Native.throw _) _) _ _ _ _ =>
      apply accounts_throw_bind; ledger_simpl; reflexivity
  end.

Ltac ledger_unfold ::=
  progress unfold Gpu.throwEgl, Gpu.throwGl, Gpu.VerifyExtension,
    ES20.delete_unless_zero, Gpu.GlShaderTraits, Gpu.GlProgramTraits.

Ltac ledger ::=
  ledger_simpl;
  repeat first [ledger_step | ledger_scope | ledger_unfold
               | progress cbn [Gpu.status Gpu.log_length Gpu.logger Gpu.message]].

Section GpuLedger.
Import Native Gpu Ledger.

Lemma FillFrom_accounts b id pre ab :
  accounts (FillFrom b id) pre (fun _ => pre) (Some pre) ab.
Proof. unfold FillFrom. ledger. Qed.

Lemma DrainTo_accounts b id pre ab :
  accounts (DrainTo b id) pre (fun _ => pre) (Some pre) ab.
Proof. unfold DrainTo. ledger. Qed.

Lemma CreateEglImage_accounts b display pre ab :
  accounts (CreateEglImage b display) pre
           (fun image => Image display image :: pre) (Some pre) ab.
Proof. unfold CreateEglImage. ledger. Qed.

Lemma EglContext_new_accounts major minor pre ab :
  accounts (EglContext_new major minor) pre
           (fun c => EglContext_owns c ++ pre)%list (Some pre) ab.
Proof. unfold EglContext_new. ledger. Qed.

Lemma EglContext_delete_accounts c pre ex ab :
  accounts (EglContext_delete c) (EglContext_owns c ++ pre)%list
           (fun _ => pre) ex ab.
Proof. unfold EglContext_delete. ledger. Qed.

Lemma MakeCurrent_accounts c pre ab :
  accounts (MakeCurrent c) pre (fun _ => pre) (Some pre) ab.
Proof. unfold MakeCurrent. ledger. Qed.

Lemma ResetCurrent_accounts c pre ab :
  accounts (ResetCurrent c) pre (fun _ => pre) (Some pre) ab.
Proof. unfold ResetCurrent. ledger. Qed.

Lemma ResetCurrent_throws c env w :
  match fst (ResetCurrent c env w) with
  | Exn _ => exists tr dpy error,
      trace (snd (ResetCurrent c env w))
      = (trace w ++ tr ++ [Ev (eglMakeCurrent dpy 0) false;
                           Ev eglGetError error])%list
  | _ => True
  end.
Proof.
  unfold ResetCurrent. run_monad. unfold EGL_NO_CONTEXT.
  name_answers env. destruct ans; cbn [negb fst snd trace log]; [exact I|].
  name_answers env. exists [], (display_ c), ans.
  now rewrite <- app_assoc.
Qed.

Lemma Sync_accounts c pre ab :
  accounts (Sync c) pre (fun _ => pre) (Some pre) ab.
Proof. unfold Sync. ledger. Qed.

Lemma CreateGlTexture_accounts image pre ab :
  accounts (CreateGlTexture image) pre
           (fun name => unless 0 name (Texture name) ++ pre)%list (Some pre) ab.
Proof. unfold CreateGlTexture. ledger. Qed.

Lemma CheckBuildable_shader_accounts shader pre ab :
  accounts (CheckBuildable GlShaderTraits shader) pre (fun _ => pre) (Some pre) ab.
Proof. unfold CheckBuildable. ledger. Qed.

Lemma CheckBuildable_program_accounts program pre ab :
  accounts (CheckBuildable GlProgramTraits program) pre (fun _ => pre) (Some pre) ab.
Proof. unfold CheckBuildable. ledger. Qed.

End GpuLedger.

Section ConverterLedger.
Import Native Gpu Ledger.

(** The shader is given back while the program it was linked into is
    still held. *)
Lemma glDeleteShader_accounts shader program pre ex ab :
  (shader =? 0) = false ->
  accounts (native (glDeleteShader shader))
           (unless 0 program (Program program) ++ Shader shader :: pre)%list
           (fun _ => unless 0 program (Program program) ++ pre)%list ex ab.
Proof.
  intros Hs. eapply accounts_post.
  - eapply (accounts_release (glDeleteShader shader) (Shader shader)
                             (unless 0 program (Program program)) pre).
    + cbn [loss]. unfold unless. now rewrite Hs.
    + reflexivity.
    + unfold unless. now destruct (program =? 0).
  - reflexivity.
Qed.

Lemma CreateGlProgram_accounts pre ab :
  accounts CreateGlProgram pre
           (fun program => unless 0 program (Program program) ++ pre)%list
           (Some pre) ab.
Proof.
  unfold CreateGlProgram.
  eapply accounts_bind; [ledger_native|intros shader; ledger_simpl].
  destruct (shader =? 0) eqn:Hshader; ledger_simpl; [ledger|].
  match goal with
  | |- accounts (Defer ?impl ?scope) ?pre ?ok (Some ?ex) ?ab =>
      apply (accounts_Defer impl scope pre
               (fun program => unless 0 program (Program program) ++ pre)%list
               pre ok ex ab)
  end.
  - eapply accounts_bind; [ledger_native|intros ?; ledger_simpl].
    eapply accounts_bind; [ledger_native|intros ?; ledger_simpl].
    eapply accounts_bind; [apply CheckBuildable_shader_accounts|intros ?].
    eapply accounts_bind; [ledger_native|intros program; ledger_simpl].
    destruct (program =? 0) eqn:Hprogram; ledger_simpl; [ledger|].
    ledger_scope.
    eapply accounts_bind; [ledger_native|intros ?; ledger_simpl].
    eapply accounts_bind; [ledger_native|intros ?; ledger_simpl].
    eapply accounts_bind; [apply CheckBuildable_program_accounts|intros ?].
    ledger.
  - intros program. now apply (glDeleteShader_accounts shader program).
  - ledger.
Qed.

Lemma FramesconvES31_new_accounts pre ab :
  accounts ES31.FramesconvES31_new pre
           (fun self => unless 0 (ES31.program_ self)
                               (Program (ES31.program_ self)) ++ pre)%list
           (Some pre) ab.
Proof.
  unfold ES31.FramesconvES31_new.
  eapply accounts_bind; [apply CreateGlProgram_accounts|intros program].
  ledger.
Qed.

Lemma FramesconvES31_delete_accounts self pre ex ab :
  accounts (ES31.FramesconvES31_delete self)
           (unless 0 (ES31.program_ self) (Program (ES31.program_ self)) ++ pre)%list
           (fun _ => pre) ex ab.
Proof. unfold ES31.FramesconvES31_delete. ledger. Qed.

Lemma ES31_Convert_accounts self t width height t' pre ab :
  accounts (ES31.Convert self t width height t') pre (fun _ => pre) (Some pre) ab.
Proof. unfold ES31.Convert. ledger. Qed.

Lemma FramesconvES20_new_accounts pre ab :
  accounts ES20.FramesconvES20_new pre
           (fun self => FramesconvES20_owns self ++ pre)%list (Some pre) ab.
Proof. unfold ES20.FramesconvES20_new. ledger. Qed.

Lemma FramesconvES20_delete_accounts self pre ex ab :
  accounts (ES20.FramesconvES20_delete self)
           (unless 0 (ES20.program_ self) (Program (ES20.program_ self))
            ++ unless 0 (ES20.buffer_object_ self)
                      (VertexBuffer (ES20.buffer_object_ self))
            ++ unless 0 (ES20.framebuffer_ self)
                      (Framebuffer (ES20.framebuffer_ self)) ++ pre)%list
           (fun _ => pre) ex ab.
Proof. unfold ES20.FramesconvES20_delete. ledger. Qed.

Lemma ES20_Convert_accounts self t width height t' pre ab :
  accounts (ES20.Convert self t width height t') pre (fun _ => pre) (Some pre) ab.
Proof. unfold ES20.Convert. ledger. Qed.

End ConverterLedger.

Ltac ledger_call :=
  lazymatch goal with
  | |- Ledger.accounts (Native.bind ?m _) _ _ _ _ =>
      eapply accounts_bind;
      [ first [ apply GbmDevice_new_accounts
              | apply CreateGbmBuffer_accounts
              | apply FillFrom_accounts
              | apply DrainTo_accounts
              | apply CreateEglImage_accounts
              | apply EglContext_new_accounts
              | apply MakeCurrent_accounts
              | apply Sync_accounts
              | apply CreateGlTexture_accounts
              | apply CreateGlProgram_accounts
              | apply ES31_Convert_accounts
              | apply ES20_Convert_accounts
              | apply FramesconvES20_new_accounts
              | apply FramesconvES31_new_accounts ]
      | intros ?; ledger_simpl ]
  | |- Ledger.accounts (Gpu.GbmDevice_delete _) _ _ _ _ =>
      apply GbmDevice_delete_accounts
  | |- Ledger.accounts (Gpu.GbmBuffer_delete _) _ _ _ _ =>
      apply GbmBuffer_delete_accounts
  | |- Ledger.accounts (Gpu.EglContext_delete _) _ _ _ _ =>
      apply EglContext_delete_accounts
  | |- Ledger.accounts (Gpu.DrainTo _ _) _ _ _ _ =>
      apply DrainTo_accounts
  | |- Ledger.accounts (ES20.FramesconvES20_delete _) _ _ _ _ =>
      apply FramesconvES20_delete_accounts
  | |- Ledger.accounts (ES31.FramesconvES31_delete _) _ _ _ _ =>
      apply FramesconvES31_delete_accounts
  end.

Ltac ledger_reset :=
  lazymatch goal with
  | |- Ledger.accounts (Native.Defer (Gpu.ResetCurrent ?c) ?scope)
                       ?pre ?ok (Some ?ex) true =>
      apply (accounts_Defer_abort (Gpu.ResetCurrent c) scope pre
                                  (fun _ => pre) pre ok ex (Some pre));
      [ apply ResetCurrent_throws
      | ledger_simpl
      | intros ?; apply ResetCurrent_accounts
      | apply ResetCurrent_accounts ]
  end.

Ltac ledger_run :=
  ledger_simpl;
  repeat first [ ledger_call | ledger_reset | ledger_step | ledger_scope
               | progress unfold ES20.CreateFramesconvES20,
                   ES31.CreateFramesconvES31
               | progress cbn [Convert Framesconv_delete] ].

Section MainLedger.
Import Native Gpu Ledger.

Lemma try_block_accounts options :
  accounts (Main.try_block options) [] (fun _ => []) (Some []) true.
Proof. unfold Main.try_block. ledger_run. Qed.

Lemma first_try_block_accounts options :
  accounts (FirstState.try_block options) [] (fun _ => []) (Some []) true.
Proof. unfold FirstState.try_block. ledger_run. Qed.

End MainLedger.

Section OwnedObjects.
Import Native Gpu Ledger.

(** What a run that keeps the books tells of the events it adds, started
    with nothing held. *)
Lemma accounts_run {A} (m : M A) pre ok ex ab env w :
  accounts m pre ok ex ab ->
  exists tr,
    trace (snd (m env w)) = (trace w ++ tr)%list
    /\ match fst (m env w) with
       | Ok a => settle tr pre = Some (ok a)
       | Exn _ => match ex with
                  | Some held => settle tr pre = Some held
                  | None => False
                  end
       | Terminated => ab = true /\ reset_failed_last tr
       end.
Proof.
  intros H. destruct (H env w) as (tr & Ht & Hs). exists tr.
  split; [exact Ht|].
  destruct (fst (m env w)).
  - specialize (Hs []). now rewrite !app_nil_r in Hs.
  - destruct ex; [|exact Hs]. specialize (Hs []). now rewrite !app_nil_r in Hs.
  - exact Hs.
Qed.

(** A destructor that keeps the books, run after the events [tr] that
    left [owned] held, leaves nothing. *)
Lemma accounts_destroys (m : M unit) owned tr env w :
  accounts m owned (fun _ => []) None false ->
  settle tr [] = Some owned ->
  exists tr2,
    trace (snd (m env w)) = (trace w ++ tr2)%list
    /\ fst (m env w) = Ok tt
    /\ settle (tr ++ tr2) [] = Some [].
Proof.
  intros H Htr. destruct (accounts_run m owned _ None false env w H)
    as (tr2 & Ht & Hs).
  exists tr2. split; [exact Ht|].
  destruct (fst (m env w)) as [[]| |]; try contradiction;
    try (destruct Hs; discriminate).
  split; [reflexivity|]. now rewrite settle_app, Htr.
Qed.

Lemma GbmDevice_new_Ok render_node env w d w' :
  GbmDevice_new render_node env w = (Ok d, w') ->
  (device_ d =? 0) = false /\ (dev_fd_ d =? -1) = false.
Proof.
  unfold GbmDevice_new. run_monad.
  repeat (name_answers env; branch); try discriminate.
  intros [= <- _]. cbn. auto.
Qed.

(** Both constructors close the descriptor -1 that [fd_] starts with. *)
Lemma GbmDevice_new_starts render_node env w :
  exists fd rest,
    trace (snd (GbmDevice_new render_node env w))
    = (trace w ++ Ev (open render_node) fd :: Ev (close (-1)) tt :: rest)%list.
Proof.
  unfold GbmDevice_new. run_monad.
  repeat (name_answers env; branch); cbn [snd trace log]; unit_answers env;
    rewrite <- ?app_assoc; cbn [app]; eauto.
Qed.

Lemma GbmBuffer_new_starts device width height env w :
  exists bo rest,
    trace (snd (GbmBuffer_new device width height env w))
    = (trace w
       ++ Ev (gbm_bo_create device (Int.uint32_t width) (Int.uint32_t height))
             bo :: rest)%list
    /\ (bo <> 0 ->
        exists fd rest',
          rest = Ev (gbm_bo_get_fd bo) fd :: Ev (close (-1)) tt :: rest').
Proof.
  unfold GbmBuffer_new. run_monad.
  repeat (name_answers env; branch); cbn [snd trace log]; unit_answers env;
    rewrite <- ?app_assoc; cbn [app];
    (do 2 eexists; split; [reflexivity|]);
    try solve [intros _; eauto];
    try (intros Hne; exfalso; apply Hne;
         match goal with H : (_ =? 0) = true |- _ => apply Z.eqb_eq in H end;
         assumption).
Qed.

Lemma GbmBuffer_new_held device width height env w b w' :
  GbmBuffer_new device width height env w = (Ok b, w') ->
  (fd_ b =? -1) = false /\ (bo_ b =? 0) = false.
Proof.
  unfold GbmBuffer_new. run_monad.
  repeat (name_answers env; branch); try discriminate.
  intros [= <- _]. cbn. auto.
Qed.

End OwnedObjects.

(** X1.  The constructor of [GbmDevice] never ends the process.  Right
    after [open] it calls [close(-1)], on the descriptor its member
    started with; that call closes nothing.  When the constructor throws
    it holds nothing: the descriptor it opened is closed again if the
    device cannot be created.  When it returns, the object owns the
    device and the descriptor, and the destructor, which does not throw,
    gives both back. *)
Theorem GbmDevice_new_is_atomic (render_node : option string)
        (env : Native.Env) (w : Native.world) :
  exists tr,
    Native.trace (snd (Gpu.GbmDevice_new render_node env w))
    = (Native.trace w ++ tr)%list
    /\ (exists fd rest,
           tr = Native.Ev (Native.open render_node) fd
                :: Native.Ev (Native.close (-1)) tt :: rest)
    /\ match fst (Gpu.GbmDevice_new render_node env w) with
       | Native.Ok d =>
           Ledger.settle tr []
           = Some [Ledger.Device (Gpu.device_ d);
                   Ledger.Descriptor (Gpu.dev_fd_ d)]
           /\ (forall w2, exists tr2,
                  Native.trace (snd (Gpu.GbmDevice_delete d env w2))
                  = (Native.trace w2 ++ tr2)%list
                  /\ fst (Gpu.GbmDevice_delete d env w2) = Native.Ok tt
                  /\ Ledger.settle (tr ++ tr2) [] = Some [])
       | Native.Exn _ => Ledger.settle tr [] = Some []
       | Native.Terminated => False
       end.
Proof.
  destruct (accounts_run _ _ _ _ _ env w
              (GbmDevice_new_accounts render_node [] false))
    as (tr & Ht & Hs).
  exists tr. split; [exact Ht|].
  split.
  { destruct (GbmDevice_new_starts render_node env w) as (fd & rest & Hsh).
    rewrite Ht in Hsh. apply app_inv_head in Hsh. eauto. }
  destruct (Gpu.GbmDevice_new render_node env w) as [[d|e|] w1] eqn:Hrun;
    cbn [fst] in *; [|exact Hs|destruct Hs; discriminate].
  destruct (GbmDevice_new_Ok _ _ _ _ _ Hrun) as [Hdev Hfd].
  unfold Ledger.GbmDevice_owns, Ledger.unless in Hs.
  rewrite Hdev, Hfd in Hs. cbn [app] in Hs.
  split; [exact Hs|].
  intros w2. apply accounts_destroys with (owned := [Ledger.Device (Gpu.device_ d);
                                                   Ledger.Descriptor (Gpu.dev_fd_ d)]);
    [|exact Hs].
  eapply accounts_post with (ok' := fun _ => []); [|reflexivity].
  pose proof (GbmDevice_delete_accounts d [] None false) as H.
  unfold Ledger.unless in H. rewrite Hdev, Hfd in H. exact H.
Qed.

(** X2.  The constructor of [GbmBuffer] never ends the process.  Once
    the buffer object is created it asks for its descriptor and then
    calls [close(-1)], on the descriptor its member started with; that
    call closes nothing.  When the constructor throws it holds nothing:
    the buffer object it created is destroyed again if it cannot be
    exported as a descriptor.  When it returns, the object owns the
    descriptor and the buffer object, and the destructor, which does not
    throw, closes the one and destroys the other. *)
Theorem GbmBuffer_new_is_atomic (device width height : Z)
        (env : Native.Env) (w : Native.world) :
  exists tr,
    Native.trace (snd (Gpu.GbmBuffer_new device width height env w))
    = (Native.trace w ++ tr)%list
    /\ (exists bo rest,
           tr = Native.Ev (Native.gbm_bo_create device (Int.uint32_t width)
                                                (Int.uint32_t height)) bo
                :: rest
           /\ (bo <> 0 ->
               exists fd rest',
                 rest = Native.Ev (Native.gbm_bo_get_fd bo) fd
                        :: Native.Ev (Native.close (-1)) tt :: rest'))
    /\ match fst (Gpu.GbmBuffer_new device width height env w) with
       | Native.Ok b =>
           Ledger.settle tr []
           = Some [Ledger.Descriptor (Gpu.fd_ b);
                   Ledger.BufferObject (Gpu.bo_ b)]
           /\ (forall w2, exists tr2,
                  Native.trace (snd (Gpu.GbmBuffer_delete b env w2))
                  = (Native.trace w2 ++ tr2)%list
                  /\ fst (Gpu.GbmBuffer_delete b env w2) = Native.Ok tt
                  /\ Ledger.settle (tr ++ tr2) [] = Some [])
       | Native.Exn _ => Ledger.settle tr [] = Some []
       | Native.Terminated => False
       end.
Proof.
  destruct (accounts_run _ _ _ _ _ env w
              (GbmBuffer_new_accounts device width height [] false))
    as (tr & Ht & Hs).
  exists tr. split; [exact Ht|].
  split.
  { destruct (GbmBuffer_new_starts device width height env w)
      as (bo & rest & Hsh & Hrest).
    rewrite Ht in Hsh. apply app_inv_head in Hsh. eauto. }
  destruct (Gpu.GbmBuffer_new device width height env w) as [[b|e|] w1] eqn:Hrun;
    cbn [fst] in *; [|exact Hs|destruct Hs; discriminate].
  destruct (GbmBuffer_new_held _ _ _ _ _ _ _ Hrun) as [Hfd Hbo].
  unfold Ledger.GbmBuffer_owns, Ledger.unless in Hs.
  rewrite Hfd, Hbo in Hs. cbn [app] in Hs.
  split; [exact Hs|].
  intros w2. apply accounts_destroys with (owned := [Ledger.Descriptor (Gpu.fd_ b);
                                                   Ledger.BufferObject (Gpu.bo_ b)]);
    [|exact Hs].
  eapply accounts_post with (ok' := fun _ => []); [|reflexivity].
  pose proof (GbmBuffer_delete_accounts b [] None false) as H.
  unfold Ledger.unless in H. rewrite Hfd, Hbo in H. exact H.
Qed.

(** X3.  [main] gives back what it takes.  Whatever the command line and
    whatever the native layer answers, when [main] returns, every
    descriptor, device, buffer object, mapping, display, context, fence,
    image and GL name that the run was handed has been given back, once,
    and nothing was given back that was not held; the calls [close(-1)]
    that the constructors of the device and of the buffers make close
    nothing and are not counted.  The process is ended by
    [std::terminate] only when the guard that resets the current context
    fails, and that is then the last thing the run did. *)
Theorem main_gives_back_what_it_takes
        (argv : list string) (env : Native.Env) (w : Native.world) :
  exists tr,
    Native.trace (snd (Main.main argv env w)) = (Native.trace w ++ tr)%list
    /\ (fst (Main.main argv env w) <> Main.Aborted ->
        Ledger.settle tr [] = Some [])
    /\ (fst (Main.main argv env w) = Main.Aborted ->
        Ledger.reset_failed_last tr).
Proof.
  unfold Main.main.
  destruct (Cmdline.ParseCommandline argv) as [options|e|].
  - destruct (accounts_run _ _ _ _ _ env w (try_block_accounts options))
      as (tr & Ht & Hs).
    exists tr.
    destruct (Main.try_block options env w) as [[u|e|] w1];
      cbn [fst snd Native.trace Native.print_cerr] in *;
      (split; [exact Ht|]); (split; [intros Hend|intros Hend]);
      try discriminate; try congruence; try exact Hs.
    apply Hs.
  - exists []. cbn. rewrite app_nil_r. repeat split; auto. discriminate.
  - exists []. cbn. rewrite app_nil_r. repeat split; auto. discriminate.
Qed.

(** X4.  The first state of [main] gives back what it takes, too.  When it
    returns, every descriptor, device, buffer object, mapping, display,
    context, fence, image and GL name that the run was handed has been
    given back, once, and nothing was given back that was not held, the
    calls [close(-1)] of the constructors apart, which close nothing; the
    process is ended by [std::terminate] only when the guard that resets
    the current context fails, as the last thing the run did. *)
Theorem first_state_gives_back_what_it_takes
        (argv : list string) (env : Native.Env) (w : Native.world) :
  exists tr,
    Native.trace (snd (FirstState.main argv env w)) = (Native.trace w ++ tr)%list
    /\ (fst (FirstState.main argv env w) <> Main.Aborted ->
        Ledger.settle tr [] = Some [])
    /\ (fst (FirstState.main argv env w) = Main.Aborted ->
        Ledger.reset_failed_last tr).
Proof.
  unfold FirstState.main.
  destruct (FirstState.ParseCommandline argv) as [options|e|].
  - destruct (accounts_run _ _ _ _ _ env w (first_try_block_accounts options))
      as (tr & Ht & Hs).
    exists tr.
    destruct (FirstState.try_block options env w) as [[u|e|] w1];
      cbn [fst snd Native.trace Native.print_cerr] in *;
      (split; [exact Ht|]); (split; [intros Hend|intros Hend]);
      try discriminate; try congruence; try exact Hs.
    apply Hs.
  - exists []. cbn. rewrite app_nil_r. repeat split; auto. discriminate.
  - exists []. cbn. rewrite app_nil_r. repeat split; auto. discriminate.
Qed.

Section OwnedConverters.
Import Native Gpu Ledger.

Lemma CreateGlProgram_Ok env w program w' :
  CreateGlProgram env w = (Ok program, w') -> (program =? 0) = false.
Proof.
  unfold CreateGlProgram, CheckBuildable. run_monad.
  repeat (name_answers env; branch); try discriminate.
  now intros [= <- _].
Qed.

Lemma FramesconvES20_new_Ok env w self w' :
  ES20.FramesconvES20_new env w = (Ok self, w') ->
  (ES20.framebuffer_ self =? 0) = false
  /\ (ES20.buffer_object_ self =? 0) = false.
Proof.
  unfold ES20.FramesconvES20_new, ES20.delete_unless_zero. run_monad.
  repeat (name_answers env; branch); try discriminate.
  all: intros [= <- _]; cbn; auto.
Qed.

End OwnedConverters.

(** X5.  [CreateGlProgram], through the constructor of the compute converter:
    the shader object is deleted on every path, the program object is
    deleted when linking fails; a converter that is returned owns its
    program, a name other than 0, and its destructor deletes it. *)
Theorem FramesconvES31_new_is_atomic (env : Native.Env) (w : Native.world) :
  exists tr,
    Native.trace (snd (ES31.FramesconvES31_new env w))
    = (Native.trace w ++ tr)%list
    /\ match fst (ES31.FramesconvES31_new env w) with
       | Native.Ok self =>
           ES31.program_ self <> 0
           /\ Ledger.settle tr [] = Some [Ledger.Program (ES31.program_ self)]
           /\ (forall w2, exists tr2,
                  Native.trace (snd (ES31.FramesconvES31_delete self env w2))
                  = (Native.trace w2 ++ tr2)%list
                  /\ fst (ES31.FramesconvES31_delete self env w2) = Native.Ok tt
                  /\ Ledger.settle (tr ++ tr2) [] = Some [])
       | Native.Exn _ => Ledger.settle tr [] = Some []
       | Native.Terminated => False
       end.
Proof.
  destruct (accounts_run _ _ _ _ _ env w (FramesconvES31_new_accounts [] false))
    as (tr & Ht & Hs).
  exists tr. split; [exact Ht|].
  destruct (ES31.FramesconvES31_new env w) as [[self|e|] w1] eqn:Hrun;
    cbn [fst] in *; [|exact Hs|destruct Hs; discriminate].
  assert (Hp : (ES31.program_ self =? 0) = false).
  { unfold ES31.FramesconvES31_new in Hrun.
    apply bind_Ok in Hrun as (program & w0 & Hnew & Hret).
    injection Hret as <- _. cbn. exact (CreateGlProgram_Ok _ _ _ _ Hnew). }
  unfold Ledger.unless in Hs. rewrite Hp in Hs. cbn [app] in Hs.
  split; [now apply Z.eqb_neq|]. split; [exact Hs|].
  intros w2.
  apply accounts_destroys with (owned := [Ledger.Program (ES31.program_ self)]);
    [|exact Hs].
  pose proof (FramesconvES31_delete_accounts self [] None false) as H.
  unfold Ledger.unless in H. rewrite Hp in H. exact H.
Qed.

(** X6.  The constructor of the raster converter: whatever fails, the
    framebuffer, the vertex buffer and the program it was handed so far
    are given back before it throws; a converter that is returned owns
    the three of them, and its destructor gives them back. *)
Theorem FramesconvES20_new_is_atomic (env : Native.Env) (w : Native.world) :
  exists tr,
    Native.trace (snd (ES20.FramesconvES20_new env w))
    = (Native.trace w ++ tr)%list
    /\ match fst (ES20.FramesconvES20_new env w) with
       | Native.Ok self =>
           ES20.framebuffer_ self <> 0 /\ ES20.buffer_object_ self <> 0
           /\ Ledger.settle tr []
              = Some (Ledger.unless 0 (ES20.program_ self)
                                    (Ledger.Program (ES20.program_ self))
                      ++ [Ledger.VertexBuffer (ES20.buffer_object_ self);
                          Ledger.Framebuffer (ES20.framebuffer_ self)])%list
           /\ (forall w2, exists tr2,
                  Native.trace (snd (ES20.FramesconvES20_delete self env w2))
                  = (Native.trace w2 ++ tr2)%list
                  /\ fst (ES20.FramesconvES20_delete self env w2) = Native.Ok tt
                  /\ Ledger.settle (tr ++ tr2) [] = Some [])
       | Native.Exn _ => Ledger.settle tr [] = Some []
       | Native.Terminated => False
       end.
Proof.
  destruct (accounts_run _ _ _ _ _ env w (FramesconvES20_new_accounts [] false))
    as (tr & Ht & Hs).
  exists tr. split; [exact Ht|].
  destruct (ES20.FramesconvES20_new env w) as [[self|e|] w1] eqn:Hrun;
    cbn [fst] in *; [|exact Hs|destruct Hs; discriminate].
  destruct (FramesconvES20_new_Ok _ _ _ _ Hrun) as [Hfb Hbo].
  unfold Ledger.FramesconvES20_owns in Hs. rewrite app_nil_r in Hs.
  unfold Ledger.unless at 2 3 in Hs. rewrite Hfb, Hbo in Hs. cbn [app] in Hs.
  split; [now apply Z.eqb_neq|]. split; [now apply Z.eqb_neq|].
  split; [exact Hs|].
  intros w2. eapply accounts_destroys; [|exact Hs].
  pose proof (FramesconvES20_delete_accounts self [] None false) as H.
  unfold Ledger.unless at 2 3 in H. rewrite Hfb, Hbo in H.
  cbn [app] in H. exact H.
Qed.

(** ** Running a computation one call at a time *)

Section ExecFacts.
Import Native.

Lemma run_bind_native {R B} (c : call R) (k : R -> M B) env w :
  bind (native c) k env w
  = k (answer env R (trace w) c) env (log (Ev c (answer env R (trace w) c)) w).
Proof. reflexivity. Qed.

End ExecFacts.

(** Runs a computation one call at a time, naming each answer of the
    environment as it comes. *)
Ltac exec_name env :=
  match goal with
  | |- context [Native.answer env ?R ?h ?c] =>
      let v := fresh "ans" in
      set (v := Native.answer env R h c) in *; clearbody v
  end.

Ltac exec_known :=
  repeat match goal with
         | H : ?t = true |- context [if ?t then _ else _] => rewrite H
         | H : ?t = false |- context [if ?t then _ else _] => rewrite H
         | H : ?t = true |- context [if negb ?t then _ else _] => rewrite H
         | H : ?t = false |- context [if negb ?t then _ else _] => rewrite H
         end.

Ltac exec_step env :=
  cbv beta iota zeta;
  cbn [negb Gpu.device_ Gpu.dev_fd_ Gpu.bo_ Gpu.fd_ Gpu.width_ Gpu.height_
       Gpu.display_ Gpu.context_];
  exec_known;
  cbn [negb]; cbv beta iota zeta;
  lazymatch goal with
  | |- context [Native.bind (Native.native ?c) ?k env ?w] =>
      rewrite (run_bind_native c k env w); exec_name env
  | |- context [Native.native ?c env ?w] =>
      rewrite (run_native c env w); exec_name env
  | |- context [Native.bind (if negb ?t then _ else _) _ env _] =>
      destruct t eqn:?; cbn [negb]
  | |- context [Native.bind (if ?t then _ else _) _ env _] => destruct t eqn:?
  | |- context [Native.bind (match ?t with _ => _ end) _ env _] =>
      destruct t eqn:?
  | |- context [Native.bind ?m ?k env ?w] =>
      rewrite (run_bind m k env w);
      cbv beta iota delta [Native.ret Native.throw Native.get_resolved
                           Native.set_resolved Native.peek
                           Native.istream_failed Native.ostream_failed
                           Native.write_stream]
  | |- context [(if negb ?t then _ else _) env _] =>
      destruct t eqn:?; cbn [negb]
  | |- context [(if ?t then _ else _) env _] => destruct t eqn:?
  | |- context [(match ?t with _ => _ end) env _] => destruct t eqn:?
  | |- context [Native.ret ?v env ?w] =>
      change (Native.ret v env w) with (Native.Ok v, w)
  | |- context [@Native.throw ?A ?e env ?w] =>
      change (@Native.throw A e env w) with (@Native.Exn A e, w)
  end.

Ltac exec_unfold :=
  progress unfold Native.Defer, Native.Defer_ref, Native.when,
    Gpu.throwEgl, Gpu.throwGl, Gpu.VerifyExtension, ES20.delete_unless_zero.

(** Sets the statement about a run apart from the run, so that the run
    occurs once. *)
Ltac exec_start m env w :=
  pattern (m env w);
  match goal with
  | |- ?Q _ => let post := fresh "post" in set (post := Q)
  end.

Ltac exec env := repeat first [exec_step env | exec_unfold].

Ltac settle_tac :=
  cbn [Ledger.settle Ledger.loss Ledger.gain Ledger.take_all Ledger.take app];
  unfold Ledger.unless;
  repeat match goal with
         | |- context [if ?p =? ?q then _ else _] => destruct (p =? q) eqn:?
         end;
  cbn [Ledger.settle Ledger.loss Ledger.gain Ledger.take_all Ledger.take app
       Ledger.resource_eqb andb];
  rewrite ?Z.eqb_refl; reflexivity.

(** X7.  [CreateGlTexture] looks its entry point up once per process.  Once
    it is resolved, a call queries no extension string and looks no
    address up, and it stays resolved.  A call that returns leaves it
    resolved and owns the texture it names (nothing, if the name is 0);
    a call that throws deleted the texture it had generated; when it had
    to resolve the entry point, it returns only if the GL extension
    string names [GL_OES_EGL_image] and the address was found. *)
Theorem CreateGlTexture_resolves_once
        (image : Z) (env : Native.Env) (w : Native.world) :
  exists tr,
    Native.trace (snd (Gpu.CreateGlTexture image env w))
    = (Native.trace w ++ tr)%list
    /\ (Native.resolved w = true ->
        forallb (fun e => negb (Lookup.looks_up e)) tr = true
        /\ Native.resolved (snd (Gpu.CreateGlTexture image env w)) = true)
    /\ match fst (Gpu.CreateGlTexture image env w) with
       | Native.Ok name =>
           Native.resolved (snd (Gpu.CreateGlTexture image env w)) = true
           /\ Ledger.settle tr [] = Some (Ledger.unless 0 name (Ledger.Texture name))
           /\ (Native.resolved w = false ->
               exists gl_ext,
                 In (Native.Ev Native.glGetString (Some gl_ext)) tr
                 /\ Gpu.contains gl_ext "GL_OES_EGL_image" = true
                 /\ In (Native.Ev (Native.eglGetProcAddress
                                     "glEGLImageTargetTexture2DOES") true) tr)
       | Native.Exn _ => Ledger.settle tr [] = Some []
       | Native.Terminated => False
       end.
Proof.
  exec_start (Gpu.CreateGlTexture image) env w.
  unfold Gpu.CreateGlTexture, Gpu.GL_NO_ERROR.
  exec env.
  all: subst post; cbv beta;
    cbn [fst snd Native.trace Native.log Native.resolved].
  all: eexists; (split; [rewrite <- ?app_assoc; cbn [app]; reflexivity|]).
  all: split;
    [first [intros H; discriminate H | intros _; split; [reflexivity|assumption]]|].
  all: try settle_tac.
  - split; [assumption|]. split; [settle_tac|intros H; discriminate H].
  - split; [reflexivity|]. split; [settle_tac|].
    intros _. exists s. cbn [In]. auto 12.
Qed.

(** X8.  [Convert] of the raster converter.  When the framebuffer is complete
    it sets the viewport to [width] by [height * 3 / 2], draws one fan of
    four vertices, and leaves no framebuffer, program, texture or vertex
    buffer bound, whether it then returns or reports a GL error.  When the
    framebuffer is incomplete it throws before the viewport is set or
    anything is drawn, and leaves its framebuffer bound: what it unbinds
    there is a buffer, with a framebuffer target. *)
Theorem ES20_Convert_restores_bindings
        (self : ES20.FramesconvES20) (texture_rgbx width height texture_nv12 : Z)
        (env : Native.Env) (w : Native.world) (before : Binding.bindings) :
  let run := ES20.Convert self texture_rgbx width height texture_nv12 env w in
  exists tr complete,
    Native.trace (snd run) = (Native.trace w ++ tr)%list
    /\ In (Native.Ev Native.glCheckFramebufferStatus complete) tr
    /\ if complete then
         Binding.after tr before = Binding.unbound
         /\ filter Binding.renders tr
            = [Native.Ev (Native.glViewport
                            0 0 (Int.GLsizei width)
                            (Int.GLsizei (Int.size_t (height * 3) / 2))) tt;
               Native.Ev (Native.glDrawArrays 4) tt]
         /\ (exists error,
                In (Native.Ev Native.glGetError error) tr
                /\ fst run
                   = if error =? Gpu.GL_NO_ERROR then Native.Ok tt
                     else Native.Exn (runtime_error
                                        (Gpu.WrapGlError "Conversion failed" error)))
       else
         (exists what, fst run = Native.Exn (runtime_error what))
         /\ filter Binding.renders tr = []
         /\ Binding.after tr before
            = {| Binding.framebuffer := ES20.framebuffer_ self;
                 Binding.program := Binding.program before;
                 Binding.texture := Binding.texture before;
                 Binding.array_buffer := Binding.array_buffer before |}.
Proof.
  cbv zeta.
  exec_start (ES20.Convert self texture_rgbx width height texture_nv12) env w.
  unfold ES20.Convert. exec env.
  all: subst post; cbv beta; cbn [fst snd Native.trace Native.log].
  all: repeat match goal with u : unit |- _ => destruct u end.
  all: eexists; eexists;
    (split; [rewrite <- ?app_assoc; cbn [app]; reflexivity|]).
  - split; [cbn [In]; auto 20|]. cbv beta iota.
    split; [reflexivity|]. split; [reflexivity|].
    eexists. split; [cbn [In]; repeat (first [left; reflexivity|right])|].
    match goal with H : (_ =? _) = _ |- _ => now rewrite H end.
  - split; [cbn [In]; auto 20|]. cbv beta iota.
    split; [reflexivity|]. split; [reflexivity|].
    eexists. split; [cbn [In]; repeat (first [left; reflexivity|right])|].
    match goal with H : (_ =? _) = _ |- _ => now rewrite H end.
  - split; [cbn [In]; auto 20|]. cbv beta iota.
    split; [eauto|]. split; reflexivity.
Qed.

(** ** The command line *)

Section FlagFacts.
Import Cmdline Vocabulary Flags.

Lemma is_flag_cases (it : string) :
  is_flag it = true ->
  it = "-w" \/ it = "-h" \/ it = "-i" \/ it = "-o" \/ it = "-r" \/ it = "-es".
Proof.
  unfold is_flag. rewrite !orb_true_iff, !String.eqb_eq. tauto.
Qed.

Lemma decoded_nil (result : Options) : decoded [] result result.
Proof. unfold decoded. cbn. tauto. Qed.

Ltac decoded_fields :=
  match goal with
  | Hw : _ = match last_arg "-w" ?g with _ => _ end,
    Hh : _ = match last_arg "-h" ?g with _ => _ end,
    Hi : _ = match last_arg "-i" ?g with _ => _ end,
    Ho : _ = match last_arg "-o" ?g with _ => _ end,
    Hr : _ = match last_arg "-r" ?g with _ => _ end,
    He : _ = match last_arg "-es" ?g with _ => _ end |- _ =>
      split; [|split; [|split; [|split; [|split]]]];
      [ destruct (last_arg "-w" g) as [[?|]|]
      | destruct (last_arg "-h" g) as [[?|]|]
      | destruct (last_arg "-i" g) as [[?|]|]
      | destruct (last_arg "-o" g) as [[?|]|]
      | destruct (last_arg "-r" g) as [[?|]|]
      | destruct (last_arg "-es" g) as [[?|]|] ];
      first [assumption | reflexivity | congruence]
  end.

Lemma decoded_step (it : string) (arg : option string)
      (given : list (string * option string)) (result r' r : Options) :
  is_flag it = true ->
  handle it arg result = Parsed r' ->
  decoded given r' r ->
  decoded ((it, arg) :: given) result r.
Proof.
  intros Hflag Hh (Hw & Hhh & Hi & Ho & Hr & He).
  apply is_flag_cases in Hflag.
  unfold decoded. cbn [last_arg].
  destruct Hflag as [ -> | [ -> | [ -> | [ -> | [ -> | -> ]]]]];
    cbn [String.eqb Ascii.eqb Bool.eqb andb];
    unfold handle in Hh; cbn [String.eqb Ascii.eqb Bool.eqb andb] in Hh.
  - destruct (check_size arg 7) as [v| |] eqn:Hc; cbn in Hh; try discriminate.
    injection Hh as <-.
    apply check_size_accepts in Hc as (s & -> & _ & _ & ->).
    cbn [width height input output render_node es20] in *. decoded_fields.
  - destruct (check_size arg 3) as [v| |] eqn:Hc; cbn in Hh; try discriminate.
    injection Hh as <-.
    apply check_size_accepts in Hc as (s & -> & _ & _ & ->).
    cbn [width height input output render_node es20] in *. decoded_fields.
  - destruct arg as [s|]; cbn in Hh; try discriminate.
    injection Hh as <-.
    cbn [width height input output render_node es20] in *. decoded_fields.
  - destruct arg as [s|]; cbn in Hh; try discriminate.
    injection Hh as <-.
    cbn [width height input output render_node es20] in *. decoded_fields.
  - injection Hh as <-.
    cbn [width height input output render_node es20] in *. decoded_fields.
  - destruct arg as [s|]; cbn in Hh; try discriminate.
    destruct (String.eqb s "31") eqn:H31; cbn in Hh.
    + injection Hh as <-. apply String.eqb_eq in H31. subst s.
      cbn [width height input output render_node es20] in *. decoded_fields.
    + destruct (String.eqb s "20") eqn:H20; cbn in Hh; try discriminate.
      injection Hh as <-.
      cbn [width height input output render_node es20] in *. decoded_fields.
Qed.

Lemma parse_loop_decoded (n : nat) :
  forall (argv : list string) (result r : Options),
    (List.length argv <= n)%nat ->
    parse_loop argv result = Parsed r ->
    decoded (flag_args argv) result r.
Proof.
  induction n as [|n IH]; intros argv result r Hn.
  - destruct argv; [|cbn in Hn; lia]. intros [= <-]. apply decoded_nil.
  - destruct argv as [|it rest]; [intros [= <-]; apply decoded_nil|].
    cbn [parse_loop flag_args]. destruct (is_flag it) eqn:Hflag.
    + destruct rest as [|arg rest'].
      * intros Hh. apply (decoded_step it None [] result r r Hflag Hh).
        apply decoded_nil.
      * destruct (handle it (Some arg) result) as [r'| |] eqn:Hh;
          cbn [and_then]; try discriminate.
        intros Hrest.
        apply (decoded_step it (Some arg) _ result r' r Hflag Hh).
        apply IH; [cbn in Hn; lia|assumption].
    + apply IH. cbn in Hn. lia.
Qed.

(** The sizes are read through [static_cast<std::size_t>]. *)
Lemma parse_loop_fit (n : nat) :
  forall (argv : list string) (result r : Options),
    (List.length argv <= n)%nat ->
    width result < 2 ^ 64 /\ height result < 2 ^ 64 ->
    parse_loop argv result = Parsed r ->
    width r < 2 ^ 64 /\ height r < 2 ^ 64.
Proof.
  assert (Hstep : forall it arg result r,
             width result < 2 ^ 64 /\ height result < 2 ^ 64 ->
             handle it arg result = Parsed r ->
             width r < 2 ^ 64 /\ height r < 2 ^ 64).
  { intros it arg result r [Hw Hh]. unfold handle.
    repeat match goal with
           | |- context [if ?c then _ else _] => destruct c
           end;
      try (destruct (check_size arg _) as [v| |] eqn:Hc; cbn; try discriminate;
           intros [= <-]; cbn;
           apply check_size_accepts in Hc as (s & _ & _ & _ & ->);
           unfold Int.size_t, Int.size_max; split; try assumption;
           apply Z.mod_pos_bound; reflexivity);
      try (destruct (check_fname arg); cbn; try discriminate;
           intros [= <-]; cbn; auto);
      try (destruct (check_implementation arg); cbn; try discriminate;
           intros [= <-]; cbn; auto);
      intros [= <-]; cbn; auto. }
  induction n as [|n IH]; intros argv result r Hn Hfit.
  - destruct argv; [now intros [= <-]|cbn in Hn; lia].
  - destruct argv as [|it rest]; [now intros [= <-]|].
    cbn [parse_loop]. destruct (is_flag it).
    + destruct rest as [|arg rest'].
      * now apply Hstep.
      * destruct (handle it (Some arg) result) as [r'| |] eqn:Hh;
          cbn [and_then]; try discriminate.
        apply IH; [cbn in Hn; lia|]. now apply (Hstep it (Some arg) result).
    + apply IH; [cbn in Hn; lia|assumption].
Qed.

Lemma options_fit (argv : list string) (options : Options) :
  ParseCommandline argv = Parsed options ->
  width options < 2 ^ 64 /\ height options < 2 ^ 64.
Proof.
  unfold ParseCommandline.
  destruct (parse_loop argv initial) as [r| |] eqn:Hp; cbn [and_then];
    try discriminate.
  destruct ((width r =? 0) || (height r =? 0))%bool; [discriminate|].
  intros [= <-].
  apply (parse_loop_fit _ argv initial r (Nat.le_refl _)); [|assumption].
  cbn. split; reflexivity.
Qed.

Lemma last_arg_In (flag : string) (arg : option string)
      (given : list (string * option string)) :
  last_arg flag given = Some arg -> In (flag, arg) given.
Proof.
  induction given as [|[f a] rest IH]; [discriminate|].
  cbn [last_arg]. destruct (last_arg flag rest) as [later|].
  - intros [= ->]. right. now apply IH.
  - destruct (String.eqb_spec f flag) as [->|]; [|discriminate].
    intros [= ->]. now left.
Qed.

(** A flag in last position. *)
Lemma handle_trailing (flag : string) (result : Options) :
  is_flag flag = true ->
  match handle flag None result with
  | Parsed r => flag = "-r" /\ render_node r = None
  | Rejected e => e = invalid_argument "Missing argument"
                  /\ (flag = "-w" \/ flag = "-h")
  | Undefined => flag = "-i" \/ flag = "-o" \/ flag = "-es"
  end.
Proof.
  intros Hflag. apply is_flag_cases in Hflag.
  destruct Hflag as [ -> | [ -> | [ -> | [ -> | [ -> | -> ]]]]]; cbn; auto.
Qed.

Lemma parse_loop_trailing (flag : string) (n : nat) :
  forall (argv : list string) (result : Options),
    (List.length argv <= n)%nat ->
    In (flag, None) (flag_args argv) ->
    match parse_loop argv result with
    | Parsed r => flag = "-r" /\ render_node r = None
    | Rejected e => exists msg, e = invalid_argument msg
    | Undefined => flag = "-i" \/ flag = "-o" \/ flag = "-es"
    end.
Proof.
  induction n as [|n IH]; intros argv result Hn Hin.
  - destruct argv; [contradiction|cbn in Hn; lia].
  - destruct argv as [|it rest]; [contradiction|].
    cbn [flag_args parse_loop] in *.
    destruct (is_flag it) eqn:Hflag.
    + destruct rest as [|arg rest'].
      * destruct Hin as [[= ->]|[]].
        pose proof (handle_trailing flag result Hflag) as H.
        destruct (handle flag None result); [exact H| |exact H].
        destruct H as [-> _]. eauto.
      * destruct Hin as [Heq|Hin]; [discriminate|].
        destruct (handle_outcomes it arg result) as [[r Hr]|[msg Hm]].
        -- rewrite Hr. cbn [and_then]. apply IH; [cbn in Hn; lia|assumption].
        -- rewrite Hm. cbn. eauto.
    + apply IH; [cbn in Hn; lia|assumption].
Qed.

End FlagFacts.

(** X9.  Every option [ParseCommandline] returns is set by the last
    occurrence of its flag.  Both sizes were given, and are the [int]s
    that [atoi] reads of the last [-w] and [-h] (for digits that spell
    no [int], their low 32 bits); the input and the output are the
    files named last, the standard streams if none or ["-"] was named;
    the render node is the last one given, by default
    [/dev/dri/renderD128]; the raster converter is selected exactly when
    the last [-es] is ["20"]. *)
Theorem options_come_from_last_flags
        (argv : list string) (options : Cmdline.Options) :
  Cmdline.ParseCommandline argv = Cmdline.Parsed options ->
  let given flag := Flags.last_arg flag (Vocabulary.flag_args argv) in
  (exists s, given "-w" = Some (Some s)
             /\ Cmdline.width options = Int.size_t (Cmdline.atoi s))
  /\ (exists s, given "-h" = Some (Some s)
                /\ Cmdline.height options = Int.size_t (Cmdline.atoi s))
  /\ Cmdline.input options = Flags.named_file (given "-i")
  /\ Cmdline.output options = Flags.named_file (given "-o")
  /\ Cmdline.render_node options
     = match given "-r" with
       | Some arg => arg
       | None => Some "/dev/dri/renderD128"
       end
  /\ Cmdline.es20 options
     = match given "-es" with
       | Some (Some s) => String.eqb s "20"
       | _ => false
       end.
Proof.
  intros H given. unfold Cmdline.ParseCommandline in H.
  destruct (Cmdline.parse_loop argv Cmdline.initial) as [r| |] eqn:Hp;
    cbn [Cmdline.and_then] in H; try discriminate.
  destruct (parse_loop_decoded _ argv _ r (Nat.le_refl _) Hp)
    as (Hw & Hh & Hi & Ho & Hr & He).
  fold (given "-w") in Hw. fold (given "-h") in Hh. fold (given "-i") in Hi.
  fold (given "-o") in Ho. fold (given "-r") in Hr. fold (given "-es") in He.
  assert (Hlast : forall flag, given flag = Some None -> flag = "-r").
  { intros flag Hg. apply last_arg_In in Hg.
    pose proof (parse_loop_trailing flag _ argv Cmdline.initial
                                    (Nat.le_refl _) Hg) as Ht.
    rewrite Hp in Ht. apply Ht. }
  destruct (Z.eqb_spec (Cmdline.width r) 0) as [Hw0|Hw0]; cbn [orb] in H;
    [discriminate|].
  destruct (Z.eqb_spec (Cmdline.height r) 0) as [Hh0|Hh0]; cbn [orb] in H;
    [discriminate|].
  injection H as <-. cbn [Cmdline.initial Cmdline.width Cmdline.height
                          Cmdline.input Cmdline.output Cmdline.render_node
                          Cmdline.es20] in *.
  split; [|split; [|split; [|split; [|split]]]].
  - destruct (given "-w") as [[s|]|] eqn:Hg; try congruence.
    + now exists s.
    + discriminate (Hlast _ Hg).
  - destruct (given "-h") as [[s|]|] eqn:Hg; try congruence.
    + now exists s.
    + discriminate (Hlast _ Hg).
  - destruct (given "-i") as [[s|]|] eqn:Hg; try assumption.
    discriminate (Hlast _ Hg).
  - destruct (given "-o") as [[s|]|] eqn:Hg; try assumption.
    discriminate (Hlast _ Hg).
  - exact Hr.
  - destruct (given "-es") as [[s|]|] eqn:Hg; try assumption.
    discriminate (Hlast _ Hg).
Qed.

Lemma options_come_from_last_flags_witness :
  Cmdline.es20 {| Cmdline.width := 8; Cmdline.height := 4;
                  Cmdline.input := None; Cmdline.output := Some "out.nv12";
                  Cmdline.render_node := Some "/dev/dri/renderD128";
                  Cmdline.es20 := true |}
  = String.eqb "20" "20"
  /\ Cmdline.output {| Cmdline.width := 8; Cmdline.height := 4;
                       Cmdline.input := None; Cmdline.output := Some "out.nv12";
                       Cmdline.render_node := Some "/dev/dri/renderD128";
                       Cmdline.es20 := true |}
     = Some "out.nv12".
Proof.
  destruct (options_come_from_last_flags
              ["framesconv"; "-es"; "31"; "-w"; "16"; "-o"; "-"; "-w"; "8";
               "-h"; "4"; "-o"; "out.nv12"; "-es"; "20"]
              {| Cmdline.width := 8; Cmdline.height := 4;
                 Cmdline.input := None; Cmdline.output := Some "out.nv12";
                 Cmdline.render_node := Some "/dev/dri/renderD128";
                 Cmdline.es20 := true |} eq_refl)
    as (_ & _ & _ & Ho & _ & He).
  split; [exact He|exact Ho].
Defined.

(** X10.  What [ParseCommandline] returns has a positive width that is a
    multiple of 8 and a positive height that is a multiple of 4, both
    below [2 ^ 64]: the sizes the converters are dispatched with need no
    further check. *)
Theorem accepted_sizes_are_aligned
        (argv : list string) (options : Cmdline.Options) :
  Cmdline.ParseCommandline argv = Cmdline.Parsed options ->
  0 < Cmdline.width options < 2 ^ 64 /\ Cmdline.width options mod 8 = 0
  /\ 0 < Cmdline.height options < 2 ^ 64 /\ Cmdline.height options mod 4 = 0.
Proof.
  intros H.
  destruct (ParseCommandline_aligned argv options H) as (Hw & Hw8 & Hh & Hh4).
  destruct (options_fit argv options H) as [Hwf Hhf].
  repeat split; assumption.
Qed.

Lemma accepted_sizes_are_aligned_witness :
  0 < 8 < 2 ^ 64 /\ 8 mod 8 = 0 /\ 0 < 4 < 2 ^ 64 /\ 4 mod 4 = 0.
Proof.
  exact (accepted_sizes_are_aligned
           Demo.argv
           {| Cmdline.width := 8; Cmdline.height := 4;
              Cmdline.input := None; Cmdline.output := None;
              Cmdline.render_node := Some "/dev/dri/renderD128";
              Cmdline.es20 := false |} eq_refl).
Defined.

(** X11.  A flag in last position has no argument.  [-w] and [-h] then throw
    [std::invalid_argument] ("Missing argument", unless an earlier
    argument was rejected first); [-i], [-o] and [-es] build a string
    view from the null pointer, which is undefined behaviour; [-r] is
    accepted and leaves a null render node, or meets the usage error
    when a size was not given. *)
Theorem trailing_flag_has_no_argument (argv : list string) (flag : string) :
  In (flag, None) (Vocabulary.flag_args argv) ->
  match Cmdline.ParseCommandline argv with
  | Cmdline.Parsed options =>
      flag = "-r" /\ Cmdline.render_node options = None
  | Cmdline.Rejected e =>
      (exists msg, e = invalid_argument msg)
      \/ (flag = "-r" /\ e = runtime_error Cmdline.usage)
  | Cmdline.Undefined => flag = "-i" \/ flag = "-o" \/ flag = "-es"
  end.
Proof.
  intros Hin. unfold Cmdline.ParseCommandline.
  pose proof (parse_loop_trailing flag _ argv Cmdline.initial
                                  (Nat.le_refl _) Hin) as H.
  destruct (Cmdline.parse_loop argv Cmdline.initial) as [r|e|];
    cbn [Cmdline.and_then].
  - destruct H as [-> Hr].
    destruct ((Cmdline.width r =? 0) || (Cmdline.height r =? 0))%bool; auto.
  - now left.
  - exact H.
Qed.

Lemma trailing_flag_has_no_argument_witness :
  Cmdline.ParseCommandline ["framesconv"; "-h"; "4"; "-w"]
  = Cmdline.Rejected (invalid_argument "Missing argument")
  /\ Cmdline.ParseCommandline ["framesconv"; "-w"; "8"; "-h"; "4"; "-o"]
     = Cmdline.Undefined
  /\ exists options,
       Cmdline.ParseCommandline ["framesconv"; "-w"; "8"; "-h"; "4"; "-r"]
       = Cmdline.Parsed options
       /\ Cmdline.render_node options = None.
Proof.
  split; [reflexivity|]. split; [reflexivity|].
  assert (Hin : In ("-r", None)
                   (Vocabulary.flag_args
                      ["framesconv"; "-w"; "8"; "-h"; "4"; "-r"]))
    by (cbn; auto).
  pose proof (trailing_flag_has_no_argument
                ["framesconv"; "-w"; "8"; "-h"; "4"; "-r"] "-r" Hin) as H.
  eexists. split; [reflexivity|]. exact (proj2 H).
Defined.

Section ArgumentFacts.
Import Cmdline Vocabulary Flags.

(** An argument that its flag rejects whatever was parsed before makes
    the loop throw. *)
Lemma parse_loop_rejects_arg (flag s : string) (n : nat) :
  (forall result, exists msg,
      handle flag (Some s) result = Rejected (invalid_argument msg)) ->
  forall (argv : list string) (result : Options),
    (List.length argv <= n)%nat ->
    In (flag, Some s) (flag_args argv) ->
    exists msg, parse_loop argv result = Rejected (invalid_argument msg).
Proof.
  intros Hbad. induction n as [|n IH]; intros argv result Hn Hin.
  - destruct argv; [contradiction|cbn in Hn; lia].
  - destruct argv as [|it rest]; [contradiction|].
    cbn [flag_args parse_loop] in *.
    destruct (is_flag it).
    + destruct rest as [|arg rest'].
      * destruct Hin as [Heq|[]]. discriminate.
      * destruct Hin as [Heq|Hin].
        -- injection Heq as -> ->.
           destruct (Hbad result) as [msg Hm]. rewrite Hm. cbn. eauto.
        -- destruct (handle_outcomes it arg result) as [[r Hr]|[msg Hm]].
           ++ rewrite Hr. cbn [and_then]. apply IH; auto. cbn in Hn. lia.
           ++ rewrite Hm. cbn. eauto.
    + apply IH; auto. cbn in Hn. lia.
Qed.

Lemma spelled_nonneg (ds : string) : all_digits ds = true -> 0 <= spelled ds.
Proof.
  unfold spelled, all_digits. intros H.
  assert (Hrev : forallb isdigit (rev (list_ascii_of_string ds)) = true).
  { rewrite forallb_forall in *. intros c Hc. apply H. now apply in_rev. }
  induction (rev (list_ascii_of_string ds)) as [|c l IH]; cbn [positional].
  - lia.
  - cbn in Hrev. apply andb_true_iff in Hrev as [Hc Hl].
    specialize (IH Hl). unfold isdigit in Hc. unfold digit_value.
    apply andb_true_iff in Hc as [H1 _]. apply Nat.leb_le in H1. lia.
Qed.

Lemma skip_space_app (ws rest : string) :
  all_spaces ws = true ->
  match rest with
  | String c _ => isspace c = false
  | EmptyString => True
  end ->
  skip_space (ws ++ rest) = rest.
Proof.
  intros Hws Hrest. induction ws as [|c ws IH].
  - cbn. destruct rest as [|c rest]; [reflexivity|]. cbn. now rewrite Hrest.
  - unfold all_spaces in Hws. cbn in Hws.
    apply andb_true_iff in Hws as [Hc Hws].
    cbn. rewrite Hc. now apply IH.
Qed.

Lemma numeral_skips (ws rest : string) :
  all_spaces ws = true ->
  match rest with
  | String c _ => isspace c = false
  | EmptyString => True
  end ->
  numeral (ws ++ rest) = numeral rest.
Proof.
  intros Hws Hrest. unfold numeral.
  rewrite (skip_space_app ws rest Hws Hrest).
  pose proof (skip_space_app "" rest eq_refl Hrest) as H.
  cbn [append] in H. now rewrite H.
Qed.

Lemma digits_read (ds rest : string) :
  all_digits ds = true -> starts_with_digit rest = false ->
  digits 0 (ds ++ rest) = spelled ds.
Proof.
  intros Hd Hr. rewrite (digits_app ds rest 0 Hd Hr).
  rewrite (digits_spelled ds 0 Hd). lia.
Qed.

End ArgumentFacts.

(** X12.  An implementation other than ["31"] and ["20"] given to [-es] makes
    [ParseCommandline] throw [std::invalid_argument], wherever it stands
    on the command line and whatever is given after it. *)
Theorem unknown_implementation_is_rejected
        (argv : list string) (s : string) :
  In ("-es", Some s) (Vocabulary.flag_args argv) ->
  s <> "31" -> s <> "20" ->
  exists msg,
    Cmdline.ParseCommandline argv = Cmdline.Rejected (invalid_argument msg).
Proof.
  intros Hin H31 H20. unfold Cmdline.ParseCommandline.
  destruct (parse_loop_rejects_arg "-es" s (List.length argv)) with
    (argv := argv) (result := Cmdline.initial) as [msg Hm]; auto.
  - intros result. unfold Cmdline.handle. cbn.
    destruct (String.eqb_spec s "31"); [contradiction|].
    destruct (String.eqb_spec s "20"); [contradiction|]. cbn. eauto.
  - rewrite Hm. cbn. eauto.
Qed.

Lemma unknown_implementation_is_rejected_witness :
  exists msg,
    Cmdline.ParseCommandline ["framesconv"; "-es"; "es31"; "-w"; "8"; "-h"; "4"]
    = Cmdline.Rejected (invalid_argument msg).
Proof.
  apply (unknown_implementation_is_rejected
           ["framesconv"; "-es"; "es31"; "-w"; "8"; "-h"; "4"] "es31").
  - cbn. auto.
  - discriminate.
  - discriminate.
Defined.

(** X13.  Sizes are read as [atoi] reads them: white space is skipped and a
    sign is honoured.  For digits that spell an [int], a minus sign in
    front of them gives a number that is not positive, which [check_size]
    rejects whatever the mask; a plus sign, or white space alone, leaves
    the number the digits spell. *)
Theorem check_size_honours_space_and_sign (ws ds rest : string) (mask : Z) :
  Flags.all_spaces ws = true ->
  Vocabulary.all_digits ds = true -> ds <> "" ->
  Vocabulary.starts_with_digit rest = false ->
  Vocabulary.spelled ds <= Int.INT_MAX ->
  Cmdline.atoi (ws ++ "-" ++ ds ++ rest) = - Vocabulary.spelled ds
  /\ Cmdline.check_size (Some (ws ++ "-" ++ ds ++ rest)) mask
     = Cmdline.Rejected (invalid_argument "Size must be positive")
  /\ Cmdline.atoi (ws ++ "+" ++ ds ++ rest) = Vocabulary.spelled ds
  /\ Cmdline.atoi (ws ++ ds ++ rest) = Vocabulary.spelled ds
  /\ Cmdline.check_size (Some (ws ++ "+" ++ ds ++ rest)) mask
     = Cmdline.check_size (Some ds) mask
  /\ Cmdline.check_size (Some (ws ++ ds ++ rest)) mask
     = Cmdline.check_size (Some ds) mask.
Proof.
  intros Hws Hd Hne Hr Hmax.
  pose proof (spelled_nonneg ds Hd) as Hpos.
  assert (Hint : forall s v, Cmdline.numeral s = v ->
                             - Vocabulary.spelled ds <= v <= Vocabulary.spelled ds ->
                             Cmdline.atoi s = v).
  { intros s v <- Hv. apply atoi_numeral.
    unfold Int.INT_MIN, Int.INT_MAX in *. lia. }
  assert (Hminus : Cmdline.atoi (ws ++ "-" ++ ds ++ rest)
                   = - Vocabulary.spelled ds).
  { apply Hint; [|lia].
    unfold Cmdline.numeral. rewrite skip_space_app by (auto; reflexivity).
    cbn. f_equal. now apply digits_read. }
  assert (Hplus : Cmdline.atoi (ws ++ "+" ++ ds ++ rest) = Vocabulary.spelled ds).
  { apply Hint; [|lia].
    unfold Cmdline.numeral. rewrite skip_space_app by (auto; reflexivity).
    cbn. now apply digits_read. }
  assert (Hstart : Vocabulary.starts_with_digit ds = true).
  { destruct ds as [|c ds]; [congruence|].
    unfold Vocabulary.all_digits in Hd. cbn in Hd.
    now apply andb_true_iff in Hd as [Hc _]. }
  assert (Hnone : Cmdline.atoi (ws ++ ds ++ rest) = Vocabulary.spelled ds).
  { apply Hint; [|lia].
    rewrite numeral_skips; [|assumption|].
    - rewrite (numeral_trailing ds rest Hd Hne Hr). now apply numeral_spelled.
    - destruct ds as [|c ds]; [congruence|]. cbn in *.
      now apply digit_not_space. }
  assert (Hds : Cmdline.atoi ds = Vocabulary.spelled ds)
    by (apply Hint; [now apply numeral_spelled|lia]).
  split; [exact Hminus|]. split; [|split; [exact Hplus|split; [exact Hnone|]]].
  - unfold Cmdline.check_size. rewrite Hminus.
    pose proof (spelled_nonneg ds Hd).
    destruct (Z.leb_spec (- Vocabulary.spelled ds) 0); [reflexivity|lia].
  - unfold Cmdline.check_size. now rewrite Hplus, Hnone, Hds.
Qed.

Lemma check_size_honours_space_and_sign_witness :
  Cmdline.atoi (" " ++ "-" ++ "16" ++ "") = - Vocabulary.spelled "16"
  /\ Cmdline.check_size (Some (" " ++ "-" ++ "16" ++ "")) 7
     = Cmdline.Rejected (invalid_argument "Size must be positive")
  /\ Cmdline.atoi (" " ++ "+" ++ "16" ++ "") = Vocabulary.spelled "16"
  /\ Cmdline.atoi (" " ++ "16" ++ "") = Vocabulary.spelled "16"
  /\ Cmdline.check_size (Some (" " ++ "+" ++ "16" ++ "")) 7
     = Cmdline.check_size (Some "16") 7
  /\ Cmdline.check_size (Some (" " ++ "16" ++ "")) 7
     = Cmdline.check_size (Some "16") 7.
Proof.
  apply (check_size_honours_space_and_sign " " "16" "" 7).
  - reflexivity.
  - reflexivity.
  - discriminate.
  - reflexivity.
  - vm_compute. discriminate.
Defined.

(** ** Extensions and error names *)

Section ExtensionFacts.
Import Gpu.

Lemma prefix_occurs (needle haystack : string) :
  String.prefix needle haystack = true <->
  exists after, haystack = needle ++ after.
Proof.
  revert haystack. induction needle as [|c needle IH]; intros haystack.
  - split; [intros _; now exists haystack|intros _; now destruct haystack].
  - destruct haystack as [|d haystack]; cbn.
    + split; [discriminate|]. intros [after H]. discriminate.
    + destruct (Ascii.ascii_dec c d) as [->|Hne].
      * rewrite IH. split; intros [after H]; exists after; congruence.
      * split; [discriminate|]. intros [after H]. congruence.
Qed.

Lemma contains_occurs (haystack needle : string) :
  contains haystack needle = true <->
  exists before after, haystack = before ++ needle ++ after.
Proof.
  induction haystack as [|c haystack IH].
  - cbn [contains]. rewrite orb_false_r, prefix_occurs. split.
    + intros [after H]. now exists "", after.
    + intros (before & after & H). destruct before; [now exists after|].
      discriminate.
  - cbn [contains]. rewrite orb_true_iff, prefix_occurs, IH. split.
    + intros [[after H]|(before & after & H)].
      * now exists "", after.
      * exists (String c before), after. cbn. congruence.
    + intros (before & after & H). destruct before as [|d before].
      * left. now exists after.
      * right. exists before, after. cbn in H. congruence.
Qed.

Lemma LookupError_listed (list : list (Z * string)) (key : Z) (name : string) :
  NoDup (map fst list) -> In (key, name) list -> LookupError list key = name.
Proof.
  induction list as [|[k v] rest IH]; intros Hnd Hin; [contradiction|].
  cbn [LookupError fst snd]. cbn in Hnd. inversion Hnd as [|? ? Hk Hrest]; subst.
  destruct Hin as [[= -> ->]|Hin].
  - now rewrite Z.eqb_refl.
  - destruct (Z.eqb_spec k key) as [->|_].
    + exfalso. apply Hk. change key with (fst (key, name)). now apply in_map.
    + now apply IH.
Qed.

Lemma LookupError_unlisted (list : list (Z * string)) (key : Z) :
  ~ In key (map fst list) -> LookupError list key = "???".
Proof.
  induction list as [|[k v] rest IH]; intros Hout; [reflexivity|].
  cbn [LookupError fst snd]. cbn in Hout.
  destruct (Z.eqb_spec k key) as [->|_]; [tauto|]. apply IH. tauto.
Qed.

End ExtensionFacts.

(** X14.  [VerifyExtension] looks for the name anywhere in the extension
    string: it returns exactly when the name occurs in it, be it as part
    of a longer name, and otherwise throws; in both cases it calls
    nothing and changes nothing. *)
Theorem VerifyExtension_accepts_occurrences
        (haystack needle : string) (env : Native.Env) (w : Native.world) :
  (fst (Gpu.VerifyExtension haystack needle env w) = Native.Ok tt
   <-> exists before after, haystack = before ++ needle ++ after)
  /\ (fst (Gpu.VerifyExtension haystack needle env w) = Native.Ok tt
      \/ fst (Gpu.VerifyExtension haystack needle env w)
         = Native.Exn (runtime_error ("Required extenstion " ++ needle
                                      ++ " is not supported")))
  /\ snd (Gpu.VerifyExtension haystack needle env w) = w.
Proof.
  unfold Gpu.VerifyExtension. rewrite <- contains_occurs.
  destruct (Gpu.contains haystack needle); cbn.
  - split; [tauto|]. split; [now left|reflexivity].
  - split; [split; discriminate|]. split; [now right|reflexivity].
Qed.

(** The name of a listed capability followed by anything is accepted as
    that capability. *)
Example VerifyExtension_accepts_longer_name :
  fst (Gpu.VerifyExtension "GL_OES_EGL_image_external" "GL_OES_EGL_image"
                           Demo.env Demo.start)
  = Native.Ok tt.
Proof. reflexivity. Qed.

(** X15.  Error codes are named from tables whose codes are distinct: the
    message of a listed code ends with its name, that of any other code
    with ["???"], and the lookup never fails. *)
Theorem WrapError_names_listed_codes (message : string) (error : Z) :
  (forall name, In (error, name) Gpu.kEglErrors ->
                Gpu.WrapEglError message error = message ++ ": " ++ name)
  /\ (~ In error (map fst Gpu.kEglErrors) ->
      Gpu.WrapEglError message error = message ++ ": ???")
  /\ (forall name, In (error, name) Gpu.kGlErrors ->
                   Gpu.WrapGlError message error = message ++ ": " ++ name)
  /\ (~ In error (map fst Gpu.kGlErrors) ->
      Gpu.WrapGlError message error = message ++ ": ???").
Proof.
  unfold Gpu.WrapEglError, Gpu.WrapGlError.
  assert (Hegl : NoDup (map fst Gpu.kEglErrors)).
  { cbn. repeat (constructor; [cbn; intuition discriminate|]). constructor. }
  assert (Hgl : NoDup (map fst Gpu.kGlErrors)).
  { cbn. repeat (constructor; [cbn; intuition discriminate|]). constructor. }
  split; [|split; [|split]].
  - intros name Hin. now rewrite (LookupError_listed _ _ _ Hegl Hin).
  - intros Hout. now rewrite (LookupError_unlisted _ _ Hout).
  - intros name Hin. now rewrite (LookupError_listed _ _ _ Hgl Hin).
  - intros Hout. now rewrite (LookupError_unlisted _ _ Hout).
Qed.

(** ** The kernels *)

Section KernelFacts.

Lemma stores_grid (F : Type) (fadd fsub fmul fdiv : F -> F -> F)
      (lit : Q -> F) (img : ivec2 -> vec4 F) (width height gx gy : Z) :
  0 <= gx < 2 ^ 31 -> 0 <= gy -> 2 * gy + 1 < 2 ^ 31 ->
  0 <= height -> height + gy < 2 ^ 31 ->
  map fst (compute_main F fadd fsub fmul fdiv lit img (Vec2 width height)
                        (Vec2 gx gy))
  = [Vec2 gx (2 * gy); Vec2 gx (2 * gy + 1); Vec2 gx (height + gy)].
Proof.
  change (2 ^ 31) with 2147483648. intros Hx Hy Hy' Hh Hc.
  unfold compute_main, dst_upper_left_luma, dst_upper_left_chroma, ivec2_add.
  cbn [map fst x y].
  rewrite (uint_small (gy * 2)) by (change (2 ^ 32) with 4294967296; lia).
  rewrite (int_small gx), (int_small gy), (int_small (gy * 2))
    by (change (2 ^ 31) with 2147483648; lia).
  rewrite !int_small by (change (2 ^ 31) with 2147483648; lia).
  repeat (apply f_equal2; [apply f_equal2; lia|]). reflexivity.
Qed.

Lemma vec2_inj {T} (a b c d : T) : Vec2 a b = Vec2 c d -> a = c /\ b = d.
Proof. intros H. now injection H. Qed.

End KernelFacts.

(** X16.  The stores of the compute kernel tile the destination.  For a source
    of [width] by [height] texels, sizes as [ParseCommandline] returns
    them and a destination height that fits an [int], the invocation
    [(x, y)] of the dispatched grid stores the luma texels [(x, 2 y)] and
    [(x, 2 y + 1)] and the chroma texel [(x, height + y)]; every texel of
    the destination, [width / 4] wide and [height * 3 / 2] high, is
    stored by one invocation of the grid and by no other, and no
    invocation stores outside it. *)
Theorem compute_stores_tile_destination
        (F : Type) (fadd fsub fmul fdiv : F -> F -> F) (lit : Q -> F)
        (img : ivec2 -> vec4 F) (width height : Z) :
  0 < width <= Int.INT_MAX -> width mod 8 = 0 ->
  0 < height -> height mod 4 = 0 -> height * 3 / 2 <= Int.INT_MAX ->
  let grid gx gy :=
    0 <= gx < width / 8 * local_size_x /\ 0 <= gy < height / 4 * local_size_y in
  let stores gx gy :=
    map fst (compute_main F fadd fsub fmul fdiv lit img (Vec2 width height)
                          (Vec2 gx gy)) in
  (forall gx gy,
      grid gx gy ->
      stores gx gy
      = [Vec2 gx (2 * gy); Vec2 gx (2 * gy + 1); Vec2 gx (height + gy)]
      /\ (forall p, In p (stores gx gy) ->
                    0 <= x p < width / 4 /\ 0 <= y p < height * 3 / 2))
  /\ (forall px py,
         0 <= px < width / 4 -> 0 <= py < height * 3 / 2 ->
         exists gx gy,
           grid gx gy /\ In (Vec2 px py) (stores gx gy)
           /\ (forall gx' gy',
                  grid gx' gy' -> In (Vec2 px py) (stores gx' gy') ->
                  gx' = gx /\ gy' = gy)).
Proof.
  intros Hw Hw8 Hh Hh4 Hfit grid stores.
  unfold Int.INT_MAX in Hw, Hfit. unfold local_size_x, local_size_y in grid.
  assert (Hstores : forall gx gy,
             grid gx gy ->
             stores gx gy
             = [Vec2 gx (2 * gy); Vec2 gx (2 * gy + 1); Vec2 gx (height + gy)]).
  { intros gx gy [Hx Hy]. unfold stores.
    apply stores_grid; change (2 ^ 31) with 2147483648; lia. }
  split.
  - intros gx gy Hg. split; [now apply Hstores|].
    intros p Hp. rewrite (Hstores gx gy Hg) in Hp. destruct Hg as [Hx Hy].
    cbn [In] in Hp.
    destruct Hp as [<-|[<-|[<-|[]]]]; cbn [x y]; lia.
  - intros px py Hx Hy.
    destruct (Z.ltb_spec py height) as [Hluma|Hchroma].
    + exists px, (py / 2).
      assert (Hg : grid px (py / 2)) by (unfold grid; lia).
      split; [exact Hg|]. split.
      * rewrite (Hstores _ _ Hg). cbn [In].
        assert (Hpy : py = 2 * (py / 2) \/ py = 2 * (py / 2) + 1) by lia.
        destruct Hpy as [Hpy|Hpy]; [left|right; left]; now rewrite <- Hpy.
      * intros gx' gy' Hg' Hin. rewrite (Hstores _ _ Hg') in Hin.
        destruct Hg' as [Hx' Hy']. cbn [In] in Hin.
        destruct Hin as [Hin|[Hin|[Hin|[]]]];
          apply vec2_inj in Hin as [Hq Hp]; lia.
    + exists px, (py - height).
      assert (Hg : grid px (py - height)) by (unfold grid; lia).
      split; [exact Hg|]. split.
      * rewrite (Hstores _ _ Hg). cbn [In]. right. right. left.
        f_equal. lia.
      * intros gx' gy' Hg' Hin. rewrite (Hstores _ _ Hg') in Hin.
        destruct Hg' as [Hx' Hy']. cbn [In] in Hin.
        destruct Hin as [Hin|[Hin|[Hin|[]]]];
          apply vec2_inj in Hin as [Hq Hp]; lia.
Qed.

Lemma compute_stores_tile_destination_witness :
  map fst (compute_main Q Qplus Qminus Qmult Qdiv (fun q => q)
                        (fun _ => imageLoad_texel Exact.red_pixel) (Vec2 8 4) (Vec2 1 1))
  = [Vec2 1 2; Vec2 1 3; Vec2 1 5].
Proof.
  assert (Hw : 0 < 8 <= Int.INT_MAX) by (unfold Int.INT_MAX; lia).
  assert (Hfit : 4 * 3 / 2 <= Int.INT_MAX) by (unfold Int.INT_MAX; cbn; lia).
  destruct (compute_stores_tile_destination
              Q Qplus Qminus Qmult Qdiv (fun q => q) (fun _ => imageLoad_texel Exact.red_pixel) 8 4
              Hw eq_refl eq_refl eq_refl Hfit) as [Hgrid _].
  apply (Hgrid 1 1). unfold local_size_x, local_size_y. cbn. lia.
Defined.

Section RangeFacts.

Lemma over_1_8556 (q : Q) : (q / (2 * (1 - 0.0722)) == q * (10000 # 18556))%Q.
Proof. field. Qed.

Lemma over_1_5748 (q : Q) : (q / (2 * (1 - 0.2126)) == q * (10000 # 15748))%Q.
Proof. field. Qed.

End RangeFacts.

(** X17.  In exact arithmetic the transform keeps to the unit interval: for
    colour components between 0 and 1, the luma and both chroma
    components that the kernels compute lie between 0 and 1, so that
    storing them as normalized bytes clamps nothing; a grey pixel has its
    grey level as luma and both chroma components at one half. *)
Theorem bt709_keeps_unit_range (p : pixel Q) :
  Texels.unit_range (red p) -> Texels.unit_range (green p) ->
  Texels.unit_range (blue p) ->
  let yuv := Exact.rgb2yuv (imageLoad_texel p) in
  let luma := Exact.rgb2luma (texture2D_texel p) in
  let chroma := Exact.rgb2chroma (texture2D_texel p) in
  Texels.unit_range (r3 yuv) /\ Texels.unit_range (g3 yuv)
  /\ Texels.unit_range (b3 yuv)
  /\ Texels.unit_range luma /\ Texels.unit_range (x chroma)
  /\ Texels.unit_range (y chroma)
  /\ ((red p == green p)%Q -> (green p == blue p)%Q ->
      (r3 yuv == red p)%Q /\ (g3 yuv == 0.5)%Q /\ (b3 yuv == 0.5)%Q).
Proof.
  unfold Texels.unit_range, Exact.rgb2yuv, Exact.rgb2luma, Exact.rgb2chroma,
    rgb2yuv, rgb2luma, rgb2chroma, imageLoad_texel, texture2D_texel.
  intros Hr Hg Hb. cbv zeta. cbn [r g b a r3 g3 b3 x y].
  rewrite !over_1_8556, !over_1_5748.
  repeat split; try lra.
Qed.

Lemma bt709_keeps_unit_range_witness :
  Texels.unit_range (r3 (Exact.rgb2yuv (imageLoad_texel Exact.red_pixel)))
  /\ Texels.unit_range (g3 (Exact.rgb2yuv (imageLoad_texel Exact.red_pixel)))
  /\ Texels.unit_range (b3 (Exact.rgb2yuv (imageLoad_texel Exact.red_pixel))).
Proof.
  assert (H0 : Texels.unit_range 0) by (split; discriminate).
  assert (H1 : Texels.unit_range 1) by (split; discriminate).
  destruct (bt709_keeps_unit_range Exact.red_pixel H1 H0 H0)
    as (Hy & Hu & Hv & _).
  split; [exact Hy|]. split; [exact Hu|exact Hv].
Defined.

(** X18.  On a frame of one colour the two kernels store the same texels,
    whatever arithmetic executes them: the two luma stores and the chroma
    store of an invocation of the compute kernel are what the raster
    kernel gives to a fragment of its luma and of its chroma pass.  In
    exact arithmetic each luma channel holds the luma of the colour, and
    the chroma texel holds its two chroma components, twice. *)
Theorem kernels_agree_on_uniform_frames
        (F : Type) (fadd fsub fmul fdiv : F -> F -> F) (flt : F -> F -> bool)
        (lit : Q -> F) (p : pixel F)
        (img_input_size gl_GlobalInvocationID : vec2 Z)
        (size dst_upper_left : vec2 F) (q : pixel Q) :
  (map snd (compute_main F fadd fsub fmul fdiv lit
                         (fun _ => imageLoad_texel p)
                         img_input_size gl_GlobalInvocationID)
   = [handle_luma F fadd fmul fdiv lit (fun _ => texture2D_texel p)
                  size dst_upper_left;
      handle_luma F fadd fmul fdiv lit (fun _ => texture2D_texel p)
                  size dst_upper_left;
      handle_chroma F fadd fsub fmul fdiv lit (fun _ => texture2D_texel p)
                    size dst_upper_left])
  /\ (raster_main F fadd fsub fmul fdiv flt lit (fun _ => texture2D_texel p)
                  size dst_upper_left
      = if flt (y dst_upper_left) (fdiv (lit 2%Q) (lit 3%Q))
        then handle_luma F fadd fmul fdiv lit (fun _ => texture2D_texel p)
                         size dst_upper_left
        else handle_chroma F fadd fsub fmul fdiv lit
                           (fun _ => texture2D_texel p) size dst_upper_left)
  /\ (let yuv := Exact.rgb2yuv (imageLoad_texel q) in
      forall size dst,
        Texels.same_texel
          (handle_luma Q Qplus Qmult Qdiv (fun c => c)
                       (fun _ => texture2D_texel q) size dst)
          (Vec4 (r3 yuv) (r3 yuv) (r3 yuv) (r3 yuv))
        /\ Texels.same_texel
             (handle_chroma Q Qplus Qminus Qmult Qdiv (fun c => c)
                            (fun _ => texture2D_texel q) size dst)
             (Vec4 (g3 yuv) (b3 yuv) (g3 yuv) (b3 yuv))).
Proof.
  split; [reflexivity|]. split; [reflexivity|].
  intros yuv size' dst. subst yuv.
  unfold Texels.same_texel, handle_luma, handle_chroma, luma, chroma, bgra,
    vec4_of, vec2_div, add4, vec2_add, Exact.rgb2yuv, rgb2yuv, rgb2luma,
    rgb2chroma, imageLoad_texel, texture2D_texel.
  cbn [r g b a r3 g3 b3 x y].
  rewrite !over_1_8556, !over_1_5748.
  repeat split; try reflexivity; field.
Qed.

(** X19.  The luma pass of the raster kernel is the earlier luma-only kernel
    with three changes and no other: it samples the row
    [dst_upper_left.y / 2 * 3] of the source in place of the row
    [dst_upper_left.y], it weighs the red and the blue component the
    other way round, and it writes the order of its store as a swizzle.
    In any arithmetic, its store is the store of the luma-only kernel on
    that row of the source with red and blue exchanged. *)
Theorem luma_pass_extends_luma_only
        (F : Type) (fadd fsub fmul fdiv : F -> F -> F) (lit : Q -> F)
        (texture2D : vec2 F -> vec4 F) (img_input_size dst_upper_left : vec2 F) :
  handle_luma F fadd fmul fdiv lit texture2D img_input_size dst_upper_left
  = luma_only_main F fadd fsub fmul fdiv lit
                   (fun p => bgra (texture2D p)) img_input_size
                   (Vec2 (x dst_upper_left)
                         (fmul (fdiv (y dst_upper_left) (lit 2%Q)) (lit 3%Q))).
Proof.
  unfold handle_luma, luma_only_main, luma_only_sample, luma, luma_upper_left,
    rgb2luma, rgb2yuv, bgra.
  cbn [r g b a x y r3]. reflexivity.
Qed.

(** ** The first state of main *)

Section FirstStateFacts.
Import Cmdline.

Lemma land_15 (v : Z) : Z.land v 15 = v mod 16.
Proof. change 15 with (Z.ones 4). now rewrite Z.land_ones. Qed.

Lemma first_handle_aligned (it : string) (arg : option string)
      (result r : FirstState.Options) :
  FirstDemo.aligned result -> FirstState.handle it arg result = Parsed r ->
  FirstDemo.aligned r.
Proof.
  unfold FirstState.handle, FirstDemo.aligned. intros (Hw & Hw8 & Hh & Hh4).
  destruct (String.eqb it "-w").
  { destruct (check_size arg 15) as [v| |] eqn:Hc; cbn; try discriminate.
    intros [= <-]. cbn.
    apply check_size_accepts in Hc as (s & _ & Hpos & Hmask & ->).
    rewrite land_15 in Hmask. unfold Int.size_t, Int.size_max.
    change (2 ^ 64) with 18446744073709551616. repeat split; lia. }
  destruct (String.eqb it "-h").
  { destruct (check_size arg 15) as [v| |] eqn:Hc; cbn; try discriminate.
    intros [= <-]. cbn.
    apply check_size_accepts in Hc as (s & _ & Hpos & Hmask & ->).
    rewrite land_15 in Hmask. unfold Int.size_t, Int.size_max.
    change (2 ^ 64) with 18446744073709551616. repeat split; lia. }
  destruct (String.eqb it "-i").
  { destruct (check_fname arg); cbn; try discriminate. now intros [= <-]. }
  destruct (String.eqb it "-o").
  { destruct (check_fname arg); cbn; try discriminate. now intros [= <-]. }
  destruct (String.eqb it "-r").
  { now intros [= <-]. }
  now intros [= <-].
Qed.

Lemma first_parse_loop_aligned (n : nat) :
  forall (argv : list string) (result r : FirstState.Options),
    (List.length argv <= n)%nat -> FirstDemo.aligned result ->
    FirstState.parse_loop argv result = Parsed r -> FirstDemo.aligned r.
Proof.
  induction n as [|n IH]; intros argv result r Hn Ha.
  - destruct argv; [now intros [= <-]|cbn in Hn; lia].
  - destruct argv as [|it rest]; [now intros [= <-]|].
    cbn [FirstState.parse_loop]. destruct (FirstState.is_flag it).
    + destruct rest as [|arg rest'].
      * now apply first_handle_aligned.
      * destruct (FirstState.handle it (Some arg) result) as [r'| |] eqn:Hh;
          cbn [and_then]; try discriminate.
        apply IH; [cbn in Hn; lia|].
        now apply (first_handle_aligned it (Some arg) result).
    + apply IH; [cbn in Hn; lia|assumption].
Qed.

Lemma first_ParseCommandline_aligned
      (argv : list string) (options : FirstState.Options) :
  FirstState.ParseCommandline argv = Parsed options ->
  0 < FirstState.width options /\ FirstState.width options mod 16 = 0
  /\ 0 < FirstState.height options /\ FirstState.height options mod 16 = 0.
Proof.
  unfold FirstState.ParseCommandline.
  destruct (FirstState.parse_loop argv FirstState.initial) as [r| |] eqn:Hp;
    cbn [and_then]; try discriminate.
  assert (Ha : FirstDemo.aligned r).
  { apply (first_parse_loop_aligned (List.length argv) argv FirstState.initial r);
      [lia| |assumption].
    unfold FirstDemo.aligned, FirstState.initial. cbn. repeat split; lia. }
  destruct (Z.eqb_spec (FirstState.width r) 0); cbn [orb]; [discriminate|].
  destruct (Z.eqb_spec (FirstState.height r) 0); cbn [orb]; [discriminate|].
  intros [= <-]. unfold FirstDemo.aligned in Ha. lia.
Qed.

End FirstStateFacts.

(** X20.  The first state of [ParseCommandline] asks for more: what it returns
    has a positive width and a positive height that are both multiples
    of 16, the side of the work groups its kernel runs in. *)
Theorem first_state_sizes_are_aligned_to_16
        (argv : list string) (options : FirstState.Options) :
  FirstState.ParseCommandline argv = Cmdline.Parsed options ->
  0 < FirstState.width options /\ FirstState.width options mod 16 = 0
  /\ 0 < FirstState.height options /\ FirstState.height options mod 16 = 0.
Proof. apply first_ParseCommandline_aligned. Qed.

Lemma first_state_sizes_are_aligned_to_16_witness :
  0 < 16 /\ 16 mod 16 = 0 /\ 0 < 16 /\ 16 mod 16 = 0.
Proof.
  exact (first_state_sizes_are_aligned_to_16
           FirstDemo.argv FirstDemo.options eq_refl).
Defined.

(** X21.  The first state of [main] is not a conversion: its destination is as
    large as its source, and a successful run copies the whole of it,
    [width * height * 4] bytes, to the sink, after a dispatch of
    [(width / 16, height / 16, 1)] work groups. *)
Theorem first_state_drains_whole_frame
        (argv : list string) (options : FirstState.Options)
        (env : Native.Env) (w w' : Native.world) :
  FirstState.ParseCommandline argv = Cmdline.Parsed options ->
  FirstState.width options <= Int.INT_MAX ->
  FirstState.height options <= Int.INT_MAX ->
  FirstState.width options * FirstState.height options * 4 < 2 ^ 63 ->
  FirstState.main argv env w = (Main.EXIT_SUCCESS, w') ->
  let n := FirstState.width options * FirstState.height options * 4 in
  exists bytes,
    Z.of_nat (List.length bytes) = n
    /\ Native.written (Native.fout w' (FirstState.output options))
       = (Native.written (Native.fout w (FirstState.output options)) ++ bytes)%list
    /\ In (Native.Ev (Native.glDispatchCompute
                        (FirstState.width options / 16)
                        (FirstState.height options / 16) 1) tt)
          (Native.trace w').
Proof.
  intros Hparse Hw Hh Hfit Hmain.
  destruct (first_ParseCommandline_aligned argv options Hparse)
    as (Hw0 & _ & Hh0 & _).
  apply (first_state_copies_whole_frame argv options env w w'); auto;
    unfold Int.INT_MAX in *; lia.
Qed.

Lemma first_state_drains_whole_frame_witness :
  fst (FirstState.main FirstDemo.argv Demo.env FirstDemo.start)
  = Main.EXIT_SUCCESS
  /\ exists bytes,
       Z.of_nat (List.length bytes) = 16 * 16 * 4
       /\ Native.written
            (Native.fout (snd (FirstState.main FirstDemo.argv Demo.env
                                               FirstDemo.start)) None)
          = bytes.
Proof.
  assert (Hrun : FirstState.main FirstDemo.argv Demo.env FirstDemo.start
                 = (Main.EXIT_SUCCESS,
                    snd (FirstState.main FirstDemo.argv Demo.env FirstDemo.start))).
  { rewrite (surjective_pairing
               (FirstState.main FirstDemo.argv Demo.env FirstDemo.start)) at 1.
    f_equal. }
  split; [now rewrite Hrun|].
  destruct (first_state_drains_whole_frame
              FirstDemo.argv FirstDemo.options Demo.env FirstDemo.start
              (snd (FirstState.main FirstDemo.argv Demo.env FirstDemo.start))
              eq_refl)
    as (bytes & Hlen & Hwritten & _).
  - unfold Int.INT_MAX. cbn. lia.
  - unfold Int.INT_MAX. cbn. lia.
  - reflexivity.
  - exact Hrun.
  - exists bytes. split; [exact Hlen|exact Hwritten].
Defined.

(** ** What main does first *)

Section EarlyFacts.
Import Native Gpu Vocabulary.

(** A source that cannot deliver the frame makes [FillFrom] throw after
    calls into the C library only. *)
Lemma FillFrom_short (b : GbmBuffer) (id : option string) env w :
  0 <= width_ b -> 0 <= height_ b -> width_ b * height_ b * 4 < 2 ^ 63 ->
  delivers (fin w id) (width_ b * height_ b * 4) = false ->
  exists e w1 tr,
    FillFrom b id env w = (Exn e, w1)
    /\ trace w1 = (trace w ++ tr)%list
    /\ forallb (fun e => negb (Graphics.graphics e)) tr = true
    /\ fout w1 = fout w.
Proof.
  intros Hw Hh Hs Hd.
  destruct (extent_exact b Hw Hh Hs) as [He Hss]. rewrite He in Hss.
  assert (Hsize : 0 <= width_ b * height_ b * 4) by nia.
  unfold FillFrom. rewrite He, Hss. run_monad.
  destruct (answer env (option Z) (trace w)
                   (mmap (width_ b * height_ b * 4) PROT_WRITE (fd_ b)))
    as [data|] eqn:Hm.
  - cbv beta iota zeta. cbn [trace log fin].
    destruct (istream_read (fin w id) (width_ b * height_ b * 4))
      as [got s'] eqn:Hr.
    cbn [fst snd trace log fin]. rewrite same_stream_refl.
    destruct (read_short _ _ Hsize Hd) as (Hbad & _).
    rewrite Hr in Hbad. cbn [snd] in Hbad. rewrite Hbad.
    name_answers env. unit_answers env.
    eexists _, _, _. split; [reflexivity|].
    cbn [trace log fout]. rewrite <- !app_assoc. cbn [app].
    split; [reflexivity|]. split; reflexivity.
  - eexists _, _, _. split; [reflexivity|].
    cbn [trace log fout]. split; [reflexivity|]. split; reflexivity.
Qed.

End EarlyFacts.

(** X22.  [main] reads its source before it touches the GPU.  When the source
    cannot deliver the [width * height * 4] bytes of a frame, [main]
    fails, having called the C library and GBM only: no EGL display is
    asked for, no context is created, nothing is rendered, and no sink is
    written to. *)
Theorem main_reads_before_it_renders
        (argv : list string) (options : Cmdline.Options)
        (env : Native.Env) (w : Native.world) :
  Cmdline.ParseCommandline argv = Cmdline.Parsed options ->
  Cmdline.width options * Cmdline.height options * 4 < 2 ^ 63 ->
  Vocabulary.delivers (Native.fin w (Cmdline.input options))
                      (Cmdline.width options * Cmdline.height options * 4)
  = false ->
  fst (Main.main argv env w) = Main.EXIT_FAILURE
  /\ exists tr,
       Native.trace (snd (Main.main argv env w)) = (Native.trace w ++ tr)%list
       /\ forallb (fun e => negb (Graphics.graphics e)) tr = true
       /\ Native.fout (snd (Main.main argv env w)) = Native.fout w.
Proof.
  intros Hparse Hfit Hshort.
  destruct (ParseCommandline_aligned argv options Hparse)
    as (Hw & _ & Hh & _).
  unfold Main.main. rewrite Hparse.
  exec_start (Main.try_block options) env w.
  unfold Main.try_block, Gpu.GbmDevice_new, Gpu.CreateGbmBuffer,
    Gpu.GbmBuffer_new, Gpu.GbmDevice_delete, Gpu.GbmBuffer_delete.
  exec env.
  all: try match goal with
       | |- context [Gpu.FillFrom ?b ?id ?env0 ?w0] =>
           destruct (FillFrom_short b id env0 w0) as (e & w1 & tr & Hrun & Ht & Hg & Hf);
           [cbn [Gpu.width_ Gpu.height_]; lia ..
           | cbn [Gpu.width_ Gpu.height_ Native.fin Native.log]; exact Hshort
           | rewrite Hrun; cbv beta iota; exec env ]
       end.
  all: subst post; cbv beta iota;
    cbn [fst snd Native.trace Native.log Native.fout Native.print_cerr].
  all: (split; [reflexivity|]).
  all: repeat match goal with
         | H : Native.trace ?w1 = _ |- context [Native.trace ?w1] => rewrite H
         | H : Native.fout ?w1 = _ |- context [Native.fout ?w1] => rewrite H
         end.
  all: cbn [Native.trace Native.log Native.fout].
  all: eexists; (split; [rewrite <- ?app_assoc; cbn [app]; reflexivity|]).
  all: split; [|reflexivity].
  all: cbn [forallb Graphics.graphics negb andb];
    rewrite ?forallb_app; cbn [forallb Graphics.graphics negb andb];
    rewrite ?Hg; reflexivity.
Qed.

Lemma main_reads_before_it_renders_witness :
  fst (Main.main Demo.argv Demo.env Starved.start) = Main.EXIT_FAILURE
  /\ exists tr,
       Native.trace (snd (Main.main Demo.argv Demo.env Starved.start))
       = (Native.trace Starved.start ++ tr)%list
       /\ forallb (fun e => negb (Graphics.graphics e)) tr = true
       /\ Native.fout (snd (Main.main Demo.argv Demo.env Starved.start))
          = Native.fout Starved.start.
Proof.
  apply (main_reads_before_it_renders
           Demo.argv
           {| Cmdline.width := 8; Cmdline.height := 4;
              Cmdline.input := None; Cmdline.output := None;
              Cmdline.render_node := Some "/dev/dri/renderD128";
              Cmdline.es20 := false |} Demo.env Starved.start eq_refl).
  - reflexivity.
  - reflexivity.
Defined.

(** ** The streams of main *)

Section ConfinedFacts.
Import Native Streams.

Variables input output : option string.

Lemma confined_still {A} (m : M A) :
  (forall env w, fin (snd (m env w)) = fin w /\ fout (snd (m env w)) = fout w) ->
  confined input output m.
Proof.
  intros H env w. destruct (H env w) as [Hi Ho]. rewrite Hi, Ho. auto.
Qed.

Lemma confined_ret {A} (v : A) : confined input output (ret v).
Proof. apply confined_still. intros; split; reflexivity. Qed.

Lemma confined_throw {A} (e : exn) : confined input output (@throw A e).
Proof. apply confined_still. intros; split; reflexivity. Qed.

Lemma confined_native {R} (c : call R) : confined input output (native c).
Proof. apply confined_still. intros; split; reflexivity. Qed.

Lemma confined_peek (addr n : Z) : confined input output (peek addr n).
Proof. apply confined_still. intros; split; reflexivity. Qed.

Lemma confined_istream_failed id : confined input output (istream_failed id).
Proof. apply confined_still. intros; split; reflexivity. Qed.

Lemma confined_ostream_failed id : confined input output (ostream_failed id).
Proof. apply confined_still. intros; split; reflexivity. Qed.

Lemma confined_get_resolved : confined input output get_resolved.
Proof. apply confined_still. intros; split; reflexivity. Qed.

Lemma confined_set_resolved : confined input output set_resolved.
Proof. apply confined_still. intros; split; reflexivity. Qed.

Lemma confined_read_stream (n : Z) : confined input output (read_stream input n).
Proof.
  intros env w. unfold read_stream.
  destruct (istream_read (fin w input) n) as [data s']. cbn [snd fin fout].
  split; [|reflexivity]. now intros id ->.
Qed.

Lemma confined_write_stream (n : Z) (data : list Byte.byte) :
  confined input output (write_stream output n data).
Proof.
  intros env w. cbn [write_stream snd fin fout].
  split; [reflexivity|]. now intros id ->.
Qed.

Lemma confined_bind {A B} (m : M A) (k : A -> M B) :
  confined input output m -> (forall v, confined input output (k v)) ->
  confined input output (bind m k).
Proof.
  intros Hm Hk env w. rewrite run_bind.
  destruct (Hm env w) as (Hi & Ho).
  destruct (m env w) as [[v|e|] w1]; cbn [snd] in *.
  - destruct (Hk v env w1) as (Hi' & Ho').
    split; intros id Hid; [rewrite Hi'|rewrite Ho']; auto.
  - auto.
  - auto.
Qed.

Lemma confined_Defer {A} (impl : M unit) (scope : M A) :
  confined input output impl -> confined input output scope ->
  confined input output (Defer impl scope).
Proof.
  intros Himpl Hs env w. unfold Defer.
  destruct (Hs env w) as (Hi & Ho).
  destruct (scope env w) as [[v|e|] w1]; cbn [snd] in *.
  - destruct (Himpl env w1) as (Hi' & Ho').
    destruct (impl env w1) as [[u|e|] w2]; cbn [snd] in *;
      (split; intros id Hid; [rewrite Hi'|rewrite Ho']; auto).
  - destruct (Himpl env w1) as (Hi' & Ho').
    destruct (impl env w1) as [[u|e'|] w2]; cbn [snd] in *;
      (split; intros id Hid; [rewrite Hi'|rewrite Ho']; auto).
  - auto.
Qed.

Lemma confined_Defer_ref {A S} (local : S) (impl : S -> M unit)
      (scope : M (A * S)) :
  (forall s, confined input output (impl s)) -> confined input output scope ->
  confined input output (Defer_ref local impl scope).
Proof.
  intros Himpl Hs env w. unfold Defer_ref.
  destruct (Hs env w) as (Hi & Ho).
  destruct (scope env w) as [[[v s]|e|] w1]; cbn [snd] in *.
  - destruct (Himpl s env w1) as (Hi' & Ho').
    destruct (impl s env w1) as [[u|e|] w2]; cbn [snd] in *;
      (split; intros id Hid; [rewrite Hi'|rewrite Ho']; auto).
  - destruct (Himpl local env w1) as (Hi' & Ho').
    destruct (impl local env w1) as [[u|e'|] w2]; cbn [snd] in *;
      (split; intros id Hid; [rewrite Hi'|rewrite Ho']; auto).
  - auto.
Qed.

Lemma confined_assoc {A B C} (m : M A) (f : A -> M B) (k : B -> M C) :
  confined input output (bind m (fun a => bind (f a) k)) ->
  confined input output (bind (bind m f) k).
Proof.
  intros H env w.
  replace (bind (bind m f) k env w) with (bind m (fun a => bind (f a) k) env w).
  - apply H.
  - rewrite !run_bind. destruct (m env w) as [[a|e|] w1]; reflexivity.
Qed.

Lemma confined_ret_bind {A B} (a : A) (k : A -> M B) :
  confined input output (k a) -> confined input output (bind (ret a) k).
Proof. intros H env w. apply H. Qed.

Lemma confined_when (c : bool) (m : M unit) :
  confined input output m -> confined input output (when c m).
Proof. intros H. destruct c; [exact H|apply confined_ret]. Qed.

End ConfinedFacts.

Ltac confined_step :=
  lazymatch goal with
  | |- Streams.confined _ _ (Native.ret _) => apply confined_ret
  | |- Streams.confined _ _ (Native.throw _) => apply confined_throw
  | |- Streams.confined _ _ (Native.native _) => apply confined_native
  | |- Streams.confined _ _ (Native.peek _ _) => apply confined_peek
  | |- Streams.confined _ _ (Native.read_stream _ _) =>
      apply confined_read_stream
  | |- Streams.confined _ _ (Native.write_stream _ _ _) =>
      apply confined_write_stream
  | |- Streams.confined _ _ (Native.istream_failed _) =>
      apply confined_istream_failed
  | |- Streams.confined _ _ (Native.ostream_failed _) =>
      apply confined_ostream_failed
  | |- Streams.confined _ _ Native.get_resolved => apply confined_get_resolved
  | |- Streams.confined _ _ Native.set_resolved => apply confined_set_resolved
  | |- Streams.confined _ _ (Native.bind _ _) =>
      apply confined_bind; [|intros ?]
  | |- Streams.confined _ _ (Native.Defer _ _) => apply confined_Defer
  | |- Streams.confined _ _ (Native.Defer_ref _ _ _) =>
      apply confined_Defer_ref; [intros ?|]
  | |- Streams.confined _ _ (Native.when _ _) => apply confined_when
  | |- Streams.confined _ _ (if ?c then _ else _) => destruct c
  | |- Streams.confined _ _ (match ?v with _ => _ end) => destruct v
  | |- Streams.confined _ _ (let _ := _ in _) => cbv zeta
  end.

Ltac confined_unfold :=
  progress
    unfold Main.try_block, FirstState.try_block, Gpu.DrainTo,
      Gpu.GbmDevice_new, Gpu.GbmDevice_delete, Gpu.CreateGbmBuffer,
      Gpu.GbmBuffer_new, Gpu.GbmBuffer_delete, Gpu.FillFrom, Gpu.CreateEglImage,
      Gpu.EglContext_new, Gpu.EglContext_delete, Gpu.MakeCurrent,
      Gpu.ResetCurrent, Gpu.Sync, Gpu.CreateGlTexture, Gpu.CreateGlProgram,
      Gpu.CheckBuildable, Gpu.VerifyExtension, Gpu.throwEgl, Gpu.throwGl,
      ES31.FramesconvES31_new, ES31.FramesconvES31_delete, ES31.Convert,
      ES20.FramesconvES20_new, ES20.FramesconvES20_delete, ES20.Convert,
      ES20.delete_unless_zero.

Ltac confined_tac := repeat first [ confined_step | confined_unfold ].

Section ConfinedRuns.
Import Native Streams.

(** Whichever converter the factory makes, its two operations stay within
    the streams, so the rest of [main] may use them freely. *)
Lemma confined_factory (input output : option string) (es20 : bool) {B}
      (k : Framesconv -> M B) :
  (forall fc,
      (forall texture_rgbx width height texture_nv12,
          confined input output
                   (Convert fc texture_rgbx width height texture_nv12)) ->
      confined input output (Framesconv_delete fc) ->
      confined input output (k fc)) ->
  confined input output
           (bind (if es20 then ES20.CreateFramesconvES20
                  else ES31.CreateFramesconvES31) k).
Proof.
  intros Hk.
  destruct es20;
    [unfold ES20.CreateFramesconvES20|unfold ES31.CreateFramesconvES31];
    (apply confined_assoc; apply confined_bind; [confined_tac|]);
    intros self; apply confined_ret_bind; apply Hk;
    cbn [Convert Framesconv_delete]; intros; confined_tac.
Qed.

Lemma try_block_confined (options : Cmdline.Options) :
  confined (Cmdline.input options) (Cmdline.output options)
           (Main.try_block options).
Proof.
  repeat first [ apply confined_factory; intros ? ? ?
               | match goal with H : _ |- _ => apply H end
               | confined_step | confined_unfold ].
Qed.

Lemma first_try_block_confined (options : FirstState.Options) :
  confined (FirstState.input options) (FirstState.output options)
           (FirstState.try_block options).
Proof. confined_tac. Qed.

End ConfinedRuns.

(** X23.  Of the streams that carry frames, the standard input, the
    standard output and the files opened by name, [main] reads from none
    but the one [-i] selects and writes to none but the one [-o] selects
    (the standard input and output when they are not given): every
    stream opened under another name is after the run as it was before.
    The standard error, which [main] writes on every run, is not among
    them. *)
Theorem main_touches_only_its_streams
        (argv : list string) (options : Cmdline.Options)
        (env : Native.Env) (w : Native.world) :
  Cmdline.ParseCommandline argv = Cmdline.Parsed options ->
  (forall id, Native.same_stream id (Cmdline.input options) = false ->
              Native.fin (snd (Main.main argv env w)) id = Native.fin w id)
  /\ (forall id, Native.same_stream id (Cmdline.output options) = false ->
                 Native.fout (snd (Main.main argv env w)) id = Native.fout w id).
Proof.
  intros Hparse. unfold Main.main. rewrite Hparse.
  destruct (try_block_confined options env w) as [Hi Ho].
  destruct (Main.try_block options env w) as [[u|e|] w1]; cbn [snd] in *; auto.
Qed.

Lemma main_touches_only_its_streams_witness :
  Native.fin (snd (Main.main Demo.argv Demo.env Demo.start)) (Some "other")
  = Native.fin Demo.start (Some "other")
  /\ Native.fout (snd (Main.main Demo.argv Demo.env Demo.start)) (Some "other")
     = Native.fout Demo.start (Some "other").
Proof.
  destruct (main_touches_only_its_streams
              Demo.argv
              {| Cmdline.width := 8; Cmdline.height := 4;
                 Cmdline.input := None; Cmdline.output := None;
                 Cmdline.render_node := Some "/dev/dri/renderD128";
                 Cmdline.es20 := false |} Demo.env Demo.start eq_refl)
    as [Hi Ho].
  split; [apply Hi|apply Ho]; reflexivity.
Defined.
